(** * LCFRS grammar induction (inducer.py): a shallow embedding and its properties

    The development follows [src/inducer.py].  Python strings are lists of
    characters (one byte each), Python integers are [Z], the objects of class [Node] live in
    an explicit store (a reference is the index of the object in the store),
    the dictionary [nodes] is an insertion-ordered association list, and the
    exceptions a tree can raise are the constructors of [exn]. *)

From Stdlib Require Import Ascii String Decimal DecimalString.
From Stdlib Require DecimalPos.
From Stdlib Require Import List Bool Arith ZArith Lia Permutation Sorted FinFun.
Import ListNotations.

(** ** Python strings *)

Definition str := list ascii.

Definition lit (s : string) : str := list_ascii_of_string s.
Arguments lit s%_string.

Fixpoint str_eqb (a b : str) : bool :=
  match a, b with
  | [], [] => true
  | x :: a', y :: b' => Ascii.eqb x y && str_eqb a' b'
  | _, _ => false
  end.

(** [old] is a prefix of [s] *)
Fixpoint prefixb (old s : str) : bool :=
  match old, s with
  | [], _ => true
  | x :: old', y :: s' => Ascii.eqb x y && prefixb old' s'
  | _ :: _, [] => false
  end.

(** [a in s] on strings: [a] occurs in [s] as a substring *)
Fixpoint contains (a s : str) : bool :=
  prefixb a s ||
  match s with
  | [] => false
  | _ :: s' => contains a s'
  end.

(** [s.replace(old, new)]: the occurrences of [old] are replaced from left
    to right, without overlap.  [n] bounds the number of steps; the length
    of the string is enough. *)
Fixpoint replace_go (n : nat) (old new s : str) : str :=
  match n with
  | O => s
  | S n' =>
      match s with
      | [] => []
      | c :: s' =>
          if prefixb old s
          then new ++ replace_go n' old new (skipn (length old) s)
          else c :: replace_go n' old new s'
      end
  end.

Definition replace (old new s : str) : str :=
  match old with
  | [] => new ++ flat_map (fun c => c :: new) s
  | _ :: _ => replace_go (length s) old new s
  end.

(** [s.split(sep)] for a one-character separator *)
Fixpoint split_on (sep : ascii) (s : str) : list str :=
  match s with
  | [] => [[]]
  | c :: s' =>
      if Ascii.eqb c sep then [] :: split_on sep s'
      else match split_on sep s' with
           | [] => [[c]]
           | w :: ws => (c :: w) :: ws
           end
  end.

Definition tab : ascii := Ascii.ascii_of_nat 9.

(** [str(n)] for an integer *)
Definition str_of_Z (z : Z) : str :=
  list_ascii_of_string (NilZero.string_of_int (Z.to_int z)).

(** ** Results of a computation that can raise or fail to return *)

Inductive exn : Type := IndexError | KeyError.

Inductive result (A : Type) : Type :=
| Ok (a : A)
| Raise (e : exn)
| Timeout.

Arguments Ok {A} a.
Arguments Raise {A} e.
Arguments Timeout {A}.

Definition bind {A B : Type} (m : result A) (k : A -> result B) : result B :=
  match m with
  | Ok a => k a
  | Raise e => Raise e
  | Timeout => Timeout
  end.

Notation "x <- m ;; k" := (bind m (fun x => k))
  (at level 61, m at next level, right associativity).
Notation "' p <- m ;; k" := (bind m (fun x => let p := x in k))
  (at level 61, p pattern, m at next level, right associativity).

(** ** class Node *)

Definition ref := nat.

Record Node : Type := mkNode {
  id : str;
  label : str;
  mother : str;
  strID : list Z;
  daughters : list ref
}.

Definition heap := list Node.

Definition noNode : Node := mkNode [] [] [] [] [].

Definition get (h : heap) (r : ref) : Node := nth r h noNode.

Fixpoint upd (h : heap) (r : ref) (f : Node -> Node) : heap :=
  match h, r with
  | [], _ => []
  | n :: h', O => f n :: h'
  | n :: h', S r' => n :: upd h' r' f
  end.

Definition set_strID (v : list Z) (n : Node) : Node :=
  mkNode (id n) (label n) (mother n) v (daughters n).

Definition append_daughter (d : ref) (n : Node) : Node :=
  mkNode (id n) (label n) (mother n) (strID n) (daughters n ++ [d]).

(** [Node.__init__(l)]: the fields 0, 2 and 5 of the split line *)
Definition Node_init (l : list str) : result Node :=
  match nth_error l 0, nth_error l 2, nth_error l 5 with
  | Some i, Some lb, Some m => Ok (mkNode i lb m [] [])
  | _, _, _ => Raise IndexError
  end.

Definition allDaughtersHaveStrID (h : heap) (r : ref) : bool :=
  forallb (fun d => match strID (get h d) with [] => false | _ :: _ => true end)
          (daughters (get h r)).

(** [list.sort()] on integers *)
Fixpoint insert_sorted (x : Z) (l : list Z) : list Z :=
  match l with
  | [] => [x]
  | y :: l' => if (x <=? y)%Z then x :: l else y :: insert_sorted x l'
  end.

Fixpoint sort (l : list Z) : list Z :=
  match l with
  | [] => []
  | x :: l' => insert_sorted x (sort l')
  end.

Definition getStrID (h : heap) (r : ref) : heap :=
  match daughters (get h r) with
  | [d] => upd h r (set_strID (strID (get h d)))
  | ds => upd h r (set_strID (sort (flat_map (fun d => strID (get h d)) ds)))
  end.

(** [Node.findArgs]: the loop over the positions, with the arguments
    finished so far and the argument under construction *)
Fixpoint findArgs_loop (prev : option Z) (l : list Z) (args : list str) (arg : str)
  : list str * str :=
  match l with
  | [] => (args, arg)
  | x :: l' =>
      let '(args1, arg1) :=
        match prev with
        | Some p => if (x - 1 =? p)%Z then (args, arg) else (args ++ [arg], [])
        | None => (args, arg)
        end in
      findArgs_loop (Some x) l' args1 (arg1 ++ lit "Y_" ++ str_of_Z x)
  end.

Definition findArgs_of (sid : list Z) : list str :=
  let '(args, arg) := findArgs_loop None sid [] [] in args ++ [arg].

Definition findArgs (h : heap) (r : ref) : list str := findArgs_of (strID (get h r)).

(** ** class Predicate *)

Record Predicate : Type := mkPredicate {
  name : str;
  args : list str
}.

Definition Predicate_mkform (p : Predicate) : str :=
  fold_left
    (fun form arg =>
       (form ++ arg) ++
       (if str_eqb arg (last (args p) []) then lit ")" else lit ","))
    (args p)
    (name p ++ lit "(").

(** ** class Rule *)

Inductive rhs_t : Type :=
| Eps
| Preds (ps : list Predicate).

Record Rule : Type := mkRule {
  lhs : Predicate;
  rhs : rhs_t;
  form : str
}.

Definition Rule_mkform (l : Predicate) (r : rhs_t) : str :=
  (Predicate_mkform l ++ lit "->") ++
  match r with
  | Eps => lit "eps"
  | Preds ps => fold_left (fun form pred => form ++ Predicate_mkform pred) ps []
  end.

Definition var (count : Z) : str := lit "X_" ++ str_of_Z count.

(** The body of the innermost loop, for one left-hand-side argument: the
    three replacements between the end marker being added and removed. *)
Definition substitute (a : str) (count : Z) (l : str) : str :=
  let l1 := l ++ lit "|" in
  let l2 := replace (a ++ lit "Y") (var count ++ lit "Y") l1 in
  let l3 := replace (a ++ lit "X") (var count ++ lit "X") l2 in
  let l4 := replace (a ++ lit "|") (var count ++ lit "|") l3 in
  removelast l4.

(** [for j in range(len(self.lhs.args))], for the right-hand-side argument
    whose current value is [a] *)
Fixpoint contract_j (a : str) (count : Z) (largs : list str)
  : list str * str * Z :=
  match largs with
  | [] => ([], a, count)
  | l :: rest =>
      if contains a l then
        let '(rest', a', count') := contract_j (var count) (count + 1) rest in
        (substitute a count l :: rest', a', count')
      else
        let '(rest', a', count') := contract_j a count rest in
        (l :: rest', a', count')
  end.

(** [for i in range(len(pred.args))] *)
Fixpoint contract_i (pargs : list str) (count : Z) (largs : list str)
  : list str * list str * Z :=
  match pargs with
  | [] => (largs, [], count)
  | a :: pargs' =>
      let '(largs1, a', count1) := contract_j a count largs in
      let '(largs2, pargs2, count2) := contract_i pargs' count1 largs1 in
      (largs2, a' :: pargs2, count2)
  end.

(** [for pred in self.rhs] *)
Fixpoint contract (ps : list Predicate) (count : Z) (largs : list str)
  : list str * list Predicate * Z :=
  match ps with
  | [] => (largs, [], count)
  | p :: ps' =>
      let '(largs1, pargs1, count1) := contract_i (args p) count largs in
      let '(largs2, ps2, count2) := contract ps' count1 largs1 in
      (largs2, mkPredicate (name p) pargs1 :: ps2, count2)
  end.

Definition hash : ascii := "#"%char.

Definition Rule_init (h : heap) (r : ref) : result Rule :=
  let node := get h r in
  match id node with
  | [] => Raise IndexError
  | c :: _ =>
      if negb (Ascii.eqb c hash) then
        let l := mkPredicate (label node) [id node] in
        Ok (mkRule l Eps (Rule_mkform l Eps))
      else
        let rhs0 :=
          map (fun d => mkPredicate (label (get h d)) (findArgs h d))
              (daughters node) in
        let '(largs, ps, _) := contract rhs0 0%Z (findArgs h r) in
        let l := mkPredicate (label node) largs in
        Ok (mkRule l (Preds ps) (Rule_mkform l (Preds ps)))
  end.

(** ** class Grammar *)

(** the dictionary [nodes]: keys in insertion order *)
Definition dict := list (str * ref).

Fixpoint dict_get (d : dict) (k : str) : option ref :=
  match d with
  | [] => None
  | (k', v) :: d' => if str_eqb k k' then Some v else dict_get d' k
  end.

Fixpoint dict_set (d : dict) (k : str) (v : ref) : dict :=
  match d with
  | [] => [(k, v)]
  | (k', v') :: d' =>
      if str_eqb k k' then (k', v) :: d' else (k', v') :: dict_set d' k v
  end.

Definition dict_values (d : dict) : list ref := map snd d.

(** first loop of [induce]: one object per line *)
Fixpoint build (tree : list str) (h : heap) (nodes : dict) (leaves : list ref)
  : result (heap * dict * list ref) :=
  match tree with
  | [] => Ok (h, nodes, leaves)
  | line :: tree' =>
      node <- Node_init (split_on tab line) ;;
      let r := length h in
      match id node with
      | [] => Raise IndexError
      | c :: key =>
          if Ascii.eqb c hash
          then build tree' (h ++ [node]) (dict_set nodes key r) leaves
          else build tree' (h ++ [node]) nodes (leaves ++ [r])
      end
  end.

(** second loop: [for s in range(len(leaves))] *)
Fixpoint link_leaves (nodes : dict) (s : Z) (ls : list ref) (h : heap)
  : result heap :=
  match ls with
  | [] => Ok h
  | leaf :: ls' =>
      let h1 := upd h leaf (set_strID [s]) in
      match dict_get nodes (mother (get h1 leaf)) with
      | None => Raise KeyError
      | Some m => link_leaves nodes (s + 1) ls' (upd h1 m (append_daughter leaf))
      end
  end.

(** third loop: [for node in nodes.values()] *)
Fixpoint link_nodes (nodes : dict) (vs : list ref) (h : heap) : result heap :=
  match vs with
  | [] => Ok h
  | r :: vs' =>
      if negb (str_eqb (mother (get h r)) (lit "0")) then
        match dict_get nodes (mother (get h r)) with
        | None => Raise KeyError
        | Some m => link_nodes nodes vs' (upd h m (append_daughter r))
        end
      else link_nodes nodes vs' h
  end.

(** [list.remove(x)]: the first element equal to [x] goes *)
Fixpoint remove_first (x : ref) (l : list ref) : list ref :=
  match l with
  | [] => []
  | y :: l' => if Nat.eqb x y then l' else y :: remove_first x l'
  end.

Record pstate : Type := mkPstate {
  p_heap : heap;
  p_nodesval : list ref;
  p_nodes2 : list ref
}.

(** [for node in nodesval], from index [i] on; the body removes the
    current element from the list it iterates over.  [n] bounds the number
    of iterations; the length of the list is enough. *)
Fixpoint scan (n : nat) (i : nat) (st : pstate) : pstate :=
  match n with
  | O => st
  | S n' =>
      match nth_error (p_nodesval st) i with
      | None => st
      | Some r =>
          if allDaughtersHaveStrID (p_heap st) r
          then scan n' (S i)
                 (mkPstate (getStrID (p_heap st) r)
                           (remove_first r (p_nodesval st))
                           (p_nodes2 st ++ [r]))
          else scan n' (S i) st
      end
  end.

(** [while nodesval != []] *)
Fixpoint propagate (fuel : nat) (st : pstate) : result pstate :=
  match fuel with
  | O => Timeout
  | S fuel' =>
      match p_nodesval st with
      | [] => Ok st
      | _ :: _ => propagate fuel' (scan (length (p_nodesval st)) 0 st)
      end
  end.

(** the duplicate check and [self.rules.append(newrule)] *)
Definition add_rule (rules : list Rule) (newrule : Rule) : list Rule :=
  match rules with
  | [] => rules ++ [newrule]
  | _ :: _ =>
      if existsb (fun rule => str_eqb (form newrule) (form rule)) rules
      then rules
      else rules ++ [newrule]
  end.

Fixpoint add_rules (h : heap) (rs : list ref) (rules : list Rule)
  : result (list Rule) :=
  match rs with
  | [] => Ok rules
  | r :: rs' =>
      newrule <- Rule_init h r ;;
      add_rules h rs' (add_rule rules newrule)
  end.

(** the tree of [induce] once the daughters are linked *)
Definition linked (tree : list str) : result (heap * dict * list ref) :=
  '(h0, nodes, leaves) <- build tree [] [] [] ;;
  h1 <- link_leaves nodes 0%Z leaves h0 ;;
  h2 <- link_nodes nodes (dict_values nodes) h1 ;;
  Ok (h2, nodes, leaves).

(** the tree of [induce] once the string IDs are set *)
Definition spans (fuel : nat) (tree : list str)
  : result (heap * dict * list ref * list ref) :=
  '(h2, nodes, leaves) <- linked tree ;;
  st <- propagate fuel (mkPstate h2 (dict_values nodes) []) ;;
  Ok (p_heap st, nodes, leaves, p_nodes2 st).

Definition induce (fuel : nat) (rules : list Rule) (tree : list str)
  : result (list Rule) :=
  '(h, nodes, leaves, nodes2) <- spans fuel tree ;;
  rules1 <- add_rules h leaves rules ;;
  add_rules h nodes2 rules1.

(** the loop of [Grammar.__init__] over the trees of the file *)
Fixpoint Grammar_induce_all (fuel : nat) (rules : list Rule) (trees : list (list str))
  : result (list Rule) :=
  match trees with
  | [] => Ok rules
  | tree :: trees' =>
      rules' <- induce fuel rules tree ;;
      Grammar_induce_all fuel rules' trees'
  end.

(** ** Examples *)

Definition line (i lb m : string) : str :=
  lit i ++ [tab] ++ lit "_" ++ [tab] ++ lit lb ++ [tab] ++ lit "_" ++ [tab]
  ++ lit "_" ++ [tab] ++ lit m.

Definition string_of_str (s : str) : string := string_of_list_ascii s.

Definition forms (r : result (list Rule)) : result (list string) :=
  match r with
  | Ok rs => Ok (map (fun x => string_of_str (form x)) rs)
  | Raise e => Raise e
  | Timeout => Timeout
  end.

Definition tree1 : list str :=
  [ line "a" "A" "500"; line "b" "B" "501"; line "c" "C" "500";
    line "#500" "VP" "501"; line "#501" "S" "0" ].

(** ** Specification vocabulary *)

(** [",".join(l)] *)
Definition join_commas (l : list str) : str :=
  match l with
  | [] => []
  | a :: l' => a ++ flat_map (fun b => lit "," ++ b) l'
  end.

(** the text of a run of positions: one token per position, in order *)
Definition token (p : Z) : str := lit "Y_" ++ str_of_Z p.

Definition tokens (run : list Z) : str := flat_map token run.

(** the maximal contiguous runs of a list of positions: a new run starts at
    each position that is not one greater than its predecessor *)
Fixpoint components (l : list Z) : list (list Z) :=
  match l with
  | [] => []
  | x :: l' =>
      match components l' with
      | (y :: run) :: rs =>
          if (y - 1 =? x)%Z then (x :: y :: run) :: rs
          else [x] :: (y :: run) :: rs
      | _ => [[x]]
      end
  end.

(** every position of the run is one greater than its predecessor *)
Fixpoint contiguous (l : list Z) : Prop :=
  match l with
  | x :: ((y :: _) as l') => (y - 1 = x)%Z /\ contiguous l'
  | _ => True
  end.

(** consecutive runs are separated by a gap *)
Definition separated (rs : list (list Z)) : Prop :=
  forall i r1 r2,
    nth_error rs i = Some r1 -> nth_error rs (S i) = Some r2 ->
    (hd 0 r2 - 1 <> last r1 0)%Z.

(** the fan-out of a span: the number of positions that start a run, that
    is the first position and each position that is not one greater than
    its predecessor *)
Fixpoint run_starts (prev : option Z) (l : list Z) : nat :=
  match l with
  | [] => 0
  | x :: l' =>
      match prev with
      | None => 1
      | Some p => if (x - 1 =? p)%Z then 0 else 1
      end + run_starts (Some x) l'
  end.

Definition fanout (l : list Z) : nat := run_starts None l.

Definition finish (x : list str * str) : list str := fst x ++ [snd x].

Definition prepend (arg : str) (rs : list str) : list str :=
  match rs with
  | [] => [arg]
  | r :: rs' => (arg ++ r) :: rs'
  end.

(** a leaf whose mother id names no node, in front of a well-formed tree *)
Definition tree_dangling : list str := [ line "a" "A" "7" ].

(** an internal node without daughters below the root *)
Definition tree_childless : list str :=
  [ line "#500" "S" "0"; line "#501" "NP" "500" ].

(** the characters that build the arguments of a rule *)
Definition cY : ascii := "Y"%char.
Definition cX : ascii := "X"%char.
Definition c_ : ascii := "_"%char.
Definition bar : ascii := "|"%char.

Definition is_digit (c : ascii) : bool :=
  (48 <=? nat_of_ascii c) && (nat_of_ascii c <=? 57).

Definition digit_val (c : ascii) : Z := Z.of_nat (nat_of_ascii c) - 48.

(** the number a string of digits denotes, read after the number [acc] *)
Definition val_acc (acc : Z) (ds : str) : Z :=
  fold_left (fun a c => (10 * a + digit_val c)%Z) ds acc.

Definition uchars (u : uint) : str :=
  list_ascii_of_string (NilEmpty.string_of_uint u).

(** the tokens of an argument under contraction: a position or a variable *)
Inductive tok : Type :=
| TY (p : Z)
| TX (c : Z).

Definition tok_head (t : tok) : ascii :=
  match t with TY _ => cY | TX _ => cX end.

Definition tok_idx (t : tok) : Z :=
  match t with TY p => p | TX c => c end.

Definition render_tok (t : tok) : str :=
  tok_head t :: c_ :: str_of_Z (tok_idx t).

Definition render (toks : list tok) : str := flat_map render_tok toks.

(** what may follow a numeral: nothing, or a character that is no digit *)
Definition endok (r : str) : Prop :=
  match r with
  | [] => True
  | d :: _ => is_digit d = false
  end.

(** [old] matches at no position of [u], when [v] follows [u] *)
Definition nomatch (old u v : str) : Prop :=
  forall u1 u2, u = u1 ++ u2 -> u2 <> [] -> prefixb old (u2 ++ v) = false.

(** wherever the character [h] occurs in [u], it starts a token whose
    number satisfies [P] *)
Definition safe (h : ascii) (P : Z -> Prop) (u v : str) : Prop :=
  forall w1 w2,
    u = w1 ++ h :: w2 ->
    exists q r,
      P q /\ (0 <= q)%Z /\ w2 ++ v = c_ :: str_of_Z q ++ r /\ endok r.

(** the character after an argument's tokens [post], once the end marker
    is added *)
Definition next_char (post : list tok) : ascii :=
  match post with
  | [] => bar
  | t :: _ => tok_head t
  end.

(** the positions an argument still holds as tokens *)
Definition positions (toks : list tok) : list Z :=
  flat_map (fun t => match t with TY q => [q] | TX _ => [] end) toks.

(** the variables an argument holds *)
Definition variables (toks : list tok) : list Z :=
  flat_map (fun t => match t with TY _ => [] | TX c => [c] end) toks.

Definition nonneg (toks : list tok) : Prop :=
  Forall (fun t => (0 <= tok_idx t)%Z) toks.

Definition in_run (q : Z) (r : list Z) : bool := existsb (Z.eqb q) r.

Definition heads (q : Z) (r : list Z) : bool :=
  match r with
  | [] => false
  | x :: _ => Z.eqb q x
  end.

(** among the runs contracted so far, the first of them into the variable
    [c], the one that holds position [q]: the number of its variable, and
    whether [q] is its first position *)
Fixpoint find_run (done : list (list Z)) (c : Z) (q : Z) : option (Z * bool) :=
  match done with
  | [] => None
  | r :: done' =>
      if in_run q r then Some (c, heads q r) else find_run done' (c + 1) q
  end.

(** what stands for position [q] in the left-hand side once the runs
    [done] are contracted: its token, the variable of the run it starts,
    or nothing *)
Definition tokf (done : list (list Z)) (q : Z) : list tok :=
  match find_run done 0 q with
  | None => [TY q]
  | Some (c, true) => [TX c]
  | Some (_, false) => []
  end.

Definition collapse (done : list (list Z)) (C : list Z) : list tok :=
  flat_map (tokf done) C.

(** the runs behind the arguments [findArgs] returns *)
Definition comps (s : list Z) : list (list Z) :=
  match s with
  | [] => [[]]
  | _ :: _ => components s
  end.

(** the variables numbered from [k], one per run *)
Definition fresh_vars (k : Z) (n : nat) : list str :=
  map (fun i => var (k + Z.of_nat i)) (seq 0 n).

(** the left-hand-side arguments of a node with span [s] once the runs
    [done] are contracted *)
Definition lhs_state (s : list Z) (done : list (list Z)) : list str :=
  map (fun C => render (collapse done C)) (comps s).

(** a daughter's label and the runs of its span *)
Definition item := (str * list (list Z))%type.

Definition preds_of (items : list item) : list Predicate :=
  map (fun it => mkPredicate (fst it) (map tokens (snd it))) items.

(** the right-hand side once every run has its variable, numbered from [k] *)
Fixpoint contracted (items : list item) (k : Z) : list Predicate :=
  match items with
  | [] => []
  | (nm, rs) :: items' =>
      mkPredicate nm (fresh_vars k (length rs))
      :: contracted items' (k + Z.of_nat (length rs))
  end.

(** a run to contract: not empty, contiguous, inside the span [s] *)
Definition run_of (s r : list Z) : Prop :=
  r <> [] /\ contiguous r /\ (forall q, In q r -> In q s).

(** the daughters of a node as the contraction sees them *)
Definition items_of (h : heap) (ds : list ref) : list item :=
  map (fun d => (label (get h d), components (strID (get h d)))) ds.

(** a store with two leaves under one internal node *)
Definition heap_two_leaves : heap :=
  [ mkNode (lit "a") (lit "A") (lit "500") [0%Z] [];
    mkNode (lit "b") (lit "B") (lit "500") [1%Z] [];
    mkNode (lit "#500") (lit "S") (lit "0") [0%Z; 1%Z] [0; 1] ].

(** ** The tree of a list of records *)

Definition is_leaf_node (n : Node) : bool :=
  match id n with
  | c :: _ => negb (Ascii.eqb c hash)
  | [] => false
  end.

Definition is_internal_node (n : Node) : bool :=
  match id n with
  | c :: _ => Ascii.eqb c hash
  | [] => false
  end.

(** the records of the leaves, and of the internal nodes, in the order of
    the lines *)
Definition leaf_refs (h : heap) : list ref :=
  filter (fun i => is_leaf_node (get h i)) (seq 0 (length h)).

Definition internal_refs (h : heap) : list ref :=
  filter (fun i => is_internal_node (get h i)) (seq 0 (length h)).

(** the node a record is a daughter of: the node its mother id names,
    unless the record is an internal node with mother id "0" *)
Definition mother_of (h : heap) (nodes : dict) (x : ref) : option ref :=
  if is_internal_node (get h x) && str_eqb (mother (get h x)) (lit "0")
  then None
  else dict_get nodes (mother (get h x)).

Definition is_daughter (h : heap) (nodes : dict) (r x : ref) : bool :=
  match mother_of h nodes x with
  | Some m => Nat.eqb m r
  | None => false
  end.

(** what the first loop of [induce] establishes *)
Definition built (h : heap) (nodes : dict) (leaves : list ref) : Prop :=
  leaves = leaf_refs h /\
  (forall i, i < length h ->
     id (get h i) <> [] /\ strID (get h i) = [] /\ daughters (get h i) = []) /\
  NoDup (map fst nodes) /\
  (forall k r, In (k, r) nodes -> r < length h /\ id (get h r) = hash :: k) /\
  NoDup (dict_values nodes) /\
  (NoDup (map (fun i => id (get h i)) (internal_refs h)) ->
   dict_values nodes = internal_refs h).

(** two stores hold the same records: only string IDs and daughters may
    differ *)
Definition same_records (h h' : heap) : Prop :=
  length h' = length h /\
  forall r, id (get h' r) = id (get h r) /\
            label (get h' r) = label (get h r) /\
            mother (get h' r) = mother (get h r).

(** what the three loops of [induce] in front of the span propagation
    establish *)
Definition linked_tree (h : heap) (nodes : dict) (leaves : list ref) : Prop :=
  leaves = leaf_refs h /\
  NoDup (map fst nodes) /\
  (forall k r, In (k, r) nodes -> r < length h /\ id (get h r) = hash :: k) /\
  NoDup (dict_values nodes) /\
  (NoDup (map (fun i => id (get h i)) (internal_refs h)) ->
   dict_values nodes = internal_refs h) /\
  (forall r, daughters (get h r)
             = filter (is_daughter h nodes r) leaves
               ++ filter (is_daughter h nodes r) (dict_values nodes)) /\
  (forall i l, nth_error leaves i = Some l -> strID (get h l) = [Z.of_nat i]) /\
  (forall r, ~ In r leaves -> strID (get h r) = []).

(** [up h nodes x n r]: [n] mother links lead from [x] to [r] *)
Inductive up (h : heap) (nodes : dict) : ref -> nat -> ref -> Prop :=
| up_O (x : ref) : up h nodes x 0 x
| up_S (x m : ref) (n : nat) (r : ref) :
    mother_of h nodes x = Some m -> up h nodes m n r -> up h nodes x (S n) r.

(** [r] transitively dominates [x] *)
Definition dominates (h : heap) (nodes : dict) (r x : ref) : Prop :=
  exists n, up h nodes x (S n) r.

(** the mother links of [x] lead to a root in [n] steps *)
Inductive rooted (h : heap) (nodes : dict) : ref -> nat -> Prop :=
| rooted_root (x : ref) : mother_of h nodes x = None -> rooted h nodes x 0
| rooted_step (x m : ref) (n : nat) :
    mother_of h nodes x = Some m -> rooted h nodes m n ->
    rooted h nodes x (S n).

(** the mother relation has no cycle: the mother links of every internal
    node lead to a root *)
Definition acyclic (h : heap) (nodes : dict) : Prop :=
  forall v, In v (dict_values nodes) -> exists n, rooted h nodes v n.

(** every internal node dominates a leaf *)
Definition fertile (h : heap) (nodes : dict) (leaves : list ref) : Prop :=
  forall v, In v (dict_values nodes) ->
            exists l, In l leaves /\ dominates h nodes v l.

(** [L] is the ascending list, without repeats, of the positions of the
    leaves that [r] dominates *)
Definition is_span (h : heap) (nodes : dict) (leaves : list ref) (r : ref)
  (L : list Z) : Prop :=
  StronglySorted Z.lt L /\
  forall z, In z L <->
            exists k l, z = Z.of_nat k /\ nth_error leaves k = Some l /\
                        dominates h nodes r l.

(** position [z] is the position of a leaf that is [d] or below [d] *)
Definition span_rel (h : heap) (nodes : dict) (leaves : list ref) (d : ref) (z : Z)
  : Prop :=
  exists k l n, z = Z.of_nat k /\ nth_error leaves k = Some l /\ up h nodes l n d.

(** the string ID [getStrID] computes *)
Definition new_strID (h : heap) (r : ref) : list Z :=
  match daughters (get h r) with
  | [d] => strID (get h d)
  | ds => sort (flat_map (fun d => strID (get h d)) ds)
  end.

(** in the store [h'], the string ID of [d] is its span in the tree [h] *)
Definition good (h : heap) (nodes : dict) (leaves : list ref) (h' : heap) (d : ref)
  : Prop :=
  StronglySorted Z.lt (strID (get h' d)) /\
  forall z, In z (strID (get h' d)) <-> span_rel h nodes leaves d z.

(** the invariant of the span propagation on the linked tree [h] *)
Definition pinv (h : heap) (nodes : dict) (leaves : list ref) (st : pstate)
  : Prop :=
  same_records h (p_heap st) /\
  (forall r, daughters (get (p_heap st) r) = daughters (get h r)) /\
  (forall k l, nth_error leaves k = Some l ->
               strID (get (p_heap st) l) = [Z.of_nat k]) /\
  Permutation (p_nodesval st ++ p_nodes2 st) (dict_values nodes) /\
  (forall v, In v (p_nodes2 st) ->
             good h nodes leaves (p_heap st) v /\
             strID (get (p_heap st) v) <> []) /\
  (forall v, In v (p_nodesval st) -> strID (get (p_heap st) v) = []).

(** every mother id names a node: the leaves' always, the internal nodes'
    unless it is "0" *)
Definition resolves (h : heap) (nodes : dict) (leaves : list ref) : Prop :=
  (forall l, In l leaves -> dict_get nodes (mother (get h l)) <> None) /\
  (forall v, In v (dict_values nodes) ->
             mother (get h v) = lit "0" \/
             dict_get nodes (mother (get h v)) <> None).

(** a well-formed tree, on the records [h] as the first loop of [induce]
    builds them *)
Definition well_formed (h : heap) (nodes : dict) (leaves : list ref) : Prop :=
  resolves h nodes leaves /\ acyclic h nodes /\ fertile h nodes leaves.

(** an id declared three times: the dictionary keeps the first position and
    the last record *)
Definition tree_repeated_id : list str :=
  [ line "x" "X" "500"; line "y" "Y" "501";
    line "#500" "A" "502"; line "#501" "B" "502"; line "#500" "C" "502";
    line "#502" "S" "0" ].

(** ** The rest of the program *)

(** ["sep".join(l)] for a one-character separator *)
Definition join_on (sep : ascii) (l : list str) : str :=
  match l with
  | [] => []
  | a :: l' => a ++ flat_map (fun b => sep :: b) l'
  end.

(** the record [Node.__init__] makes of the fields of a line *)
Definition record_of (line : str) : Node :=
  let l := split_on tab line in
  mkNode (nth 0 l []) (nth 2 l []) (nth 5 l []) [] [].

(** a line the first loop of [induce] accepts: six fields at least, the
    first one not empty *)
Definition valid_line (line : str) : bool :=
  (6 <=? length (split_on tab line))
  && match nth 0 (split_on tab line) [] with
     | [] => false
     | _ :: _ => true
     end.

(** the span propagation cannot end: the nodes of [P] keep an empty string
    ID, and [w], which has a daughter in [P], stays unresolved *)
Definition blocked (h : heap) (P : ref -> Prop) (w : ref) (st : pstate) : Prop :=
  (forall x, daughters (get (p_heap st) x) = daughters (get h x)) /\
  (forall v, P v -> strID (get (p_heap st) v) = []) /\
  In w (p_nodesval st).

(** two internal nodes, each the mother of the other *)
Definition tree_cycle : list str :=
  [ line "#500" "A" "501"; line "#501" "B" "500" ].

(** ** Grammar.__init__: the trees of a file *)

(** [tree] is used before [tree = []] has run *)
Inductive init_exn : Type := UnboundLocalError.

(** [line[:4] == "#BOS"] and [line[:4] == "#EOS"] *)
Definition is_bos (line : str) : bool := str_eqb (firstn 4 line) (lit "#BOS").

Definition is_eos (line : str) : bool := str_eqb (firstn 4 line) (lit "#EOS").

(** The loop over the lines works on list objects: [tree = []] makes a new
    one, [trees.append(tree)] stores a reference to the current one, and
    [tree.append(line)] changes the current one wherever it is stored. *)
Record istate : Type := mkIstate {
  i_lists : list (list str);
  i_tree : option nat;
  i_trees : list nat
}.

(** [tree.append(line)] on the object [t] *)
Fixpoint append_line (lists : list (list str)) (t : nat) (line : str)
  : list (list str) :=
  match lists, t with
  | [], _ => []
  | l :: ls, O => (l ++ [line]) :: ls
  | l :: ls, S t' => l :: append_line ls t' line
  end.

(** the body of [for line in lines] *)
Definition collect_step (st : istate) (line : str) : init_exn + istate :=
  if is_bos line then
    inr (mkIstate (i_lists st ++ [[]]) (Some (length (i_lists st))) (i_trees st))
  else
    match i_tree st with
    | None => inl UnboundLocalError
    | Some t =>
        if is_eos line
        then inr (mkIstate (i_lists st) (Some t) (i_trees st ++ [t]))
        else inr (mkIstate (append_line (i_lists st) t line) (Some t) (i_trees st))
    end.

Fixpoint collect (lines : list str) (st : istate) : init_exn + istate :=
  match lines with
  | [] => inr st
  | line :: lines' =>
      match collect_step st line with
      | inl e => inl e
      | inr st' => collect lines' st'
      end
  end.

(** the list [trees] when the loop over the lines has ended *)
Definition collect_trees (lines : list str) : init_exn + list (list str) :=
  match collect lines (mkIstate [] None []) with
  | inl e => inl e
  | inr st => inr (map (fun t => nth t (i_lists st) []) (i_trees st))
  end.

(** [Grammar.__init__] on the lines of the file; the progress messages are
    left out *)
Definition Grammar_init (fuel : nat) (lines : list str)
  : init_exn + result (list Rule) :=
  match collect_trees lines with
  | inl e => inl e
  | inr trees => inr (Grammar_induce_all fuel [] trees)
  end.

(** a file cut at its [#BOS] lines: each block is such a line and the lines
    up to the next one *)
Definition blocks_lines (blocks : list (str * list str)) : list str :=
  flat_map (fun b => fst b :: snd b) blocks.

Definition cut_at_bos (blocks : list (str * list str)) : Prop :=
  Forall (fun b => is_bos (fst b) = true /\
                   Forall (fun l => is_bos l = false) (snd b)) blocks.

(** the lines of a block that are no [#EOS] line, and the number of its
    [#EOS] lines *)
Definition plain (seg : list str) : list str :=
  filter (fun l => negb (is_eos l)) seg.

Definition closings (seg : list str) : nat := length (filter is_eos seg).

(** a tree closed twice, with a line between the two [#EOS] *)
Definition file_closed_twice : list str :=
  [ lit "#BOS 1"; line "a" "A" "500"; lit "#EOS 1"; line "#500" "S" "0";
    lit "#EOS 1" ].

(** ** Grammar.pprint and Grammar.pwrite *)

(** [a < b] on strings: the order [list.sort()] uses *)
Fixpoint str_ltb (a b : str) : bool :=
  match a, b with
  | _, [] => false
  | [], _ :: _ => true
  | x :: a', y :: b' =>
      if Nat.ltb (nat_of_ascii x) (nat_of_ascii y) then true
      else if Nat.ltb (nat_of_ascii y) (nat_of_ascii x) then false
      else str_ltb a' b'
  end.

Definition str_lt (a b : str) : Prop := str_ltb a b = true.

(** [prules.sort()] *)
Fixpoint insert_str (x : str) (l : list str) : list str :=
  match l with
  | [] => [x]
  | y :: l' => if str_ltb y x then y :: insert_str x l' else x :: l
  end.

Fixpoint sort_str (l : list str) : list str :=
  match l with
  | [] => []
  | x :: l' => insert_str x (sort_str l')
  end.

(** [pprint]: the lines printed *)
Definition pprint (rules : list Rule) : list str := sort_str (map form rules).

Definition newline : ascii := Ascii.ascii_of_nat 10.

(** [pwrite]: the text written to the output file *)
Definition pwrite (rules : list Rule) : str :=
  flat_map (fun rule => rule ++ [newline]) (sort_str (map form rules)).

(** [x] is the form of a rule [induce] builds from [tree] *)
Definition tree_form (fuel : nat) (tree : list str) (x : str) : Prop :=
  exists h nodes leaves nodes2 r rule,
    spans fuel tree = Ok (h, nodes, leaves, nodes2) /\
    In r (leaves ++ nodes2) /\
    Rule_init h r = Ok rule /\ form rule = x.

(** two sentences of a file, each a [#BOS] line, the lines of a tree and an
    [#EOS] line *)
Definition sentence1 : str * list str :=
  (lit "#BOS 1", tree1 ++ [lit "#EOS 1"]).

Definition sentence2 : str * list str :=
  (lit "#BOS 2", tree_repeated_id ++ [lit "#EOS 2"]).

(** ** main *)

Definition helptext : str :=
  [newline]
  ++ lit " A program for inducing an LCFRS-grammar from a treebank in NEGRA format."
  ++ [newline; newline]
  ++ lit " Usage: python3 inducer.py [-h] [-o outputfile] inputfile"
  ++ [newline; newline]
  ++ lit " Input:" ++ [newline]
  ++ lit "  -h: display this help message and exit" ++ [newline]
  ++ lit "  -o outputfile: file to write the induced grammar on" ++ [newline]
  ++ lit "  inputfile: treebank in NeGra format to induce from"
  ++ [newline; newline]
  ++ lit " Output: the grammar rules of the induced grammar on the outputfile if specified, and otherwise printed in the terminal".

(** [for o, a in opts], on the options [getopt] returns: the help text when
    the loop returns it, otherwise the value of [f_out] after the loop *)
Fixpoint main_opts (opts : list (str * str)) (f_out : option str)
  : str + option str :=
  match opts with
  | [] => inr f_out
  | (o, a) :: opts' =>
      if str_eqb o (lit "-h") then inl helptext
      else if str_eqb o (lit "-o") then main_opts opts' (Some a)
      else main_opts opts' f_out
  end.

(** what [main] does with the options and arguments [getopt] returns *)
Inductive main_outcome : Type :=
| Help (text : str)
| NoInputFile
| Induce_from (f : str) (f_out : option str).

(** [Help]: the text is returned and no file is opened; [NoInputFile]:
    [args[0]] raises [IndexError]; [Induce_from f f_out]: the grammar of the
    file [f] is made, then printed if [f_out] is [None] and written on the
    file [f_out] otherwise *)
Definition main (opts : list (str * str)) (args : list str) : main_outcome :=
  match main_opts opts None with
  | inl text => Help text
  | inr f_out =>
      match args with
      | [] => NoInputFile
      | f :: _ => Induce_from f f_out
      end
  end.

(** the value of the last option [-o], if there is one *)
Definition last_output (opts : list (str * str)) : option str :=
  last (map (fun oa => Some (snd oa))
            (filter (fun oa => str_eqb (fst oa) (lit "-o")) opts))
       None.

(** a node with one daughter *)
Definition heap_one_daughter : heap :=
  [ mkNode (lit "a") (lit "A") (lit "500") [0%Z] [];
    mkNode (lit "#500") (lit "S") (lit "0") [] [0] ].

(** the usual text of a predicate: the name, then the arguments between
    parentheses, separated by commas *)
Definition pred_text (p : Predicate) : str :=
  name p ++ lit "(" ++ join_commas (args p) ++ lit ")".

(* ================================================================== *)
(** * Properties *)

Example induce_tree1 :
  forms (induce 10 [] tree1) =
  Ok [ "A(a)->eps"; "B(b)->eps"; "C(c)->eps"; "VP(X_0,X_1)->A(X_0)C(X_1)";
       "S(X_1X_0X_2)->B(X_0)VP(X_1,X_2)" ]%string.
Proof. vm_compute. reflexivity. Qed.

(** ** Strings: basic facts *)

Lemma str_eqb_spec (a b : str) : reflect (a = b) (str_eqb a b).
Proof.
  revert b; induction a as [|x a IH]; intros [|y b]; simpl;
    try (constructor; congruence).
  destruct (Ascii.eqb_spec x y) as [->|Hxy]; simpl.
  - destruct (IH b) as [->|Hab]; constructor; congruence.
  - constructor; congruence.
Qed.

Lemma str_eqb_refl (a : str) : str_eqb a a = true.
Proof. destruct (str_eqb_spec a a); congruence. Qed.

Lemma str_eqb_eq (a b : str) : str_eqb a b = true <-> a = b.
Proof. destruct (str_eqb_spec a b); split; congruence. Qed.

Lemma str_eqb_neq (a b : str) : str_eqb a b = false <-> a <> b.
Proof. destruct (str_eqb_spec a b); split; congruence. Qed.

(** ** Predicate.mkform *)

Lemma mkform_fold (z : str) :
  forall (l : list str) (acc : str),
    l <> [] ->
    last l [] = z ->
    (forall i, i < length l - 1 -> nth i l [] <> z) ->
    fold_left
      (fun form arg => (form ++ arg) ++ (if str_eqb arg z then lit ")" else lit ","))
      l acc
    = acc ++ join_commas l ++ lit ")".
Proof.
  induction l as [|a l IH]; intros acc Hne Hlast Hdiff; [congruence|].
  destruct l as [|b l].
  - simpl in *. subst z. rewrite str_eqb_refl, app_nil_r.
    now rewrite <- app_assoc.
  - assert (Ha : str_eqb a z = false).
    { apply str_eqb_neq. apply (Hdiff 0). simpl. lia. }
    remember (b :: l) as l' eqn:El'.
    cbn [fold_left]. rewrite Ha.
    rewrite IH.
    + subst l'. cbn [join_commas flat_map]. now rewrite <- !app_assoc.
    + subst l'. discriminate.
    + subst l'. exact Hlast.
    + intros i Hi. apply (Hdiff (S i)). subst l'. simpl in *. lia.
Qed.

(** C10: with a non-empty argument list whose last value occurs at no
    earlier index, [Predicate.mkform] returns the name followed by the
    arguments, joined by commas, between parentheses. *)
Theorem Predicate_mkform_joined (p : Predicate) :
  args p <> [] ->
  (forall i, i < length (args p) - 1 -> nth i (args p) [] <> last (args p) []) ->
  Predicate_mkform p = name p ++ lit "(" ++ join_commas (args p) ++ lit ")".
Proof.
  intros Hne Hdiff. unfold Predicate_mkform.
  rewrite mkform_fold; auto. now rewrite <- app_assoc.
Qed.

Lemma Predicate_mkform_joined_witness :
  Predicate_mkform (mkPredicate (lit "VP") [lit "X_0"; lit "X_1"])
  = lit "VP(X_0,X_1)".
Proof.
  apply (Predicate_mkform_joined (mkPredicate (lit "VP") [lit "X_0"; lit "X_1"])).
  - discriminate.
  - intros [|[|i]] Hi; simpl in *; [discriminate | lia | lia].
Defined.

(** The comparison is by value: when the last value also occurs earlier,
    the parenthesis is closed there too. *)
Example Predicate_mkform_repeated_last :
  Predicate_mkform (mkPredicate (lit "VP") [lit "a"; lit "b"; lit "a"])
  = lit "VP(a)b,a)".
Proof. reflexivity. Qed.

(** ** Node.findArgs *)

Lemma findArgs_of_finish (s : list Z) :
  findArgs_of s = finish (findArgs_loop None s [] []).
Proof.
  unfold findArgs_of, finish. now destruct (findArgs_loop None s [] []).
Qed.

Lemma components_head (x : Z) (l : list Z) :
  exists run rs, components (x :: l) = (x :: run) :: rs.
Proof.
  simpl. destruct (components l) as [|[|y run] rs]; eauto.
  destruct (y - 1 =? x)%Z; eauto.
Qed.

Lemma findArgs_loop_components :
  forall (l : list Z) (p : Z) (args : list str) (arg : str),
    finish (findArgs_loop (Some p) l args (arg ++ token p))
    = args ++ prepend arg (map tokens (components (p :: l))).
Proof.
  induction l as [|x l IH]; intros p args arg.
  - simpl. unfold finish. simpl. now rewrite app_nil_r.
  - cbn [findArgs_loop].
    destruct (components_head x l) as (run & rs & Hc).
    change (components (p :: x :: l)) with
      (match components (x :: l) with
       | (y :: run) :: rs =>
           if (y - 1 =? p)%Z then (p :: y :: run) :: rs
           else [p] :: (y :: run) :: rs
       | _ => [[p]]
       end).
    specialize (IH x). rewrite Hc in *.
    destruct (x - 1 =? p)%Z.
    + change (lit "Y_" ++ str_of_Z x) with (token x).
      rewrite IH. cbn [map prepend tokens flat_map].
      now rewrite <- !app_assoc.
    + change ([] ++ lit "Y_" ++ str_of_Z x) with ([] ++ token x).
      rewrite IH. cbn [map prepend tokens flat_map].
      rewrite <- !app_assoc. simpl. now rewrite app_nil_r.
Qed.

Lemma findArgs_of_components (s : list Z) :
  s <> [] -> findArgs_of s = map tokens (components s).
Proof.
  destruct s as [|p l]; [congruence|]. intros _.
  rewrite findArgs_of_finish. cbn [findArgs_loop].
  change (lit "Y_" ++ str_of_Z p) with (token p).
  rewrite (findArgs_loop_components l p [] []).
  destruct (components_head p l) as (run & rs & ->). reflexivity.
Qed.

Lemma components_step (x z : Z) (l : list Z) :
  exists run rs,
    components (z :: l) = (z :: run) :: rs /\
    components (x :: z :: l) =
      if (z - 1 =? x)%Z then (x :: z :: run) :: rs
      else [x] :: (z :: run) :: rs.
Proof.
  destruct (components_head z l) as (run & rs & Hc).
  exists run, rs. split; [exact Hc|].
  change (components (x :: z :: l)) with
    (match components (z :: l) with
     | (y :: run) :: rs =>
         if (y - 1 =? x)%Z then (x :: y :: run) :: rs
         else [x] :: (y :: run) :: rs
     | _ => [[x]]
     end).
  now rewrite Hc.
Qed.

Lemma components_concat (l : list Z) : concat (components l) = l.
Proof.
  induction l as [|x l IH]; [reflexivity|].
  destruct l as [|z l]; [reflexivity|].
  destruct (components_step x z l) as (run & rs & Hc & ->).
  rewrite Hc in IH.
  destruct (z - 1 =? x)%Z; simpl in *; now rewrite IH.
Qed.

Lemma components_runs (l : list Z) :
  Forall (fun run => run <> [] /\ contiguous run) (components l).
Proof.
  induction l as [|x l IH]; [constructor|].
  destruct l as [|z l]; [repeat constructor; discriminate|].
  destruct (components_step x z l) as (run & rs & Hc & ->).
  rewrite Hc in IH. inversion IH as [|? ? [_ Hrun] Hrs]; subst.
  destruct (z - 1 =? x)%Z eqn:E.
  - constructor; [|assumption]. split; [discriminate|].
    simpl. split; [lia|exact Hrun].
  - constructor; [split; [discriminate|exact I]|].
    constructor; [split; [discriminate|assumption]|assumption].
Qed.

Lemma components_separated (l : list Z) : separated (components l).
Proof.
  induction l as [|x l IH]; intros i r1 r2 H1 H2.
  - destruct i; discriminate.
  - destruct l as [|z l]; [destruct i as [|[|i]]; discriminate|].
    destruct (components_step x z l) as (run & rs & Hc & Hx).
    rewrite Hx in H1, H2. rewrite Hc in IH.
    destruct (z - 1 =? x)%Z eqn:E.
    + destruct i as [|i]; simpl in *.
      * injection H1 as <-.
        change (last (x :: z :: run) 0%Z) with (last (z :: run) 0%Z).
        eapply (IH 0); simpl; eauto.
      * eapply (IH (S i)); simpl; eauto.
    + destruct i as [|i]; simpl in *.
      * injection H1 as <-. injection H2 as <-. simpl. lia.
      * eapply (IH i); eauto.
Qed.

Lemma components_length (l : list Z) (p : Z) :
  length (components (p :: l)) = S (run_starts (Some p) l).
Proof.
  revert p; induction l as [|x l IH]; intros p; [reflexivity|].
  destruct (components_step p x l) as (run & rs & Hc & ->).
  specialize (IH x). rewrite Hc in IH.
  cbn [run_starts]. destruct (x - 1 =? p)%Z; simpl in *; lia.
Qed.

Lemma tokens_concat (rs : list (list Z)) :
  concat (map tokens rs) = tokens (concat rs).
Proof.
  unfold tokens. induction rs as [|r rs IH]; [reflexivity|].
  simpl. now rewrite IH, flat_map_app.
Qed.

(** C4 (for a non-empty list of positions): [findArgs] returns the text of
    the maximal contiguous runs, in order: the runs concatenate to the list,
    inside a run every position is one greater than its predecessor, two
    consecutive runs are separated by a gap, the returned arguments
    concatenate to one token per position, and there are as many arguments
    as the fan-out. *)
Theorem findArgs_maximal_runs (s : list Z) :
  s <> [] ->
  findArgs_of s = map tokens (components s) /\
  concat (components s) = s /\
  Forall (fun run => run <> [] /\ contiguous run) (components s) /\
  separated (components s) /\
  concat (findArgs_of s) = tokens s /\
  length (findArgs_of s) = fanout s.
Proof.
  intros Hne. pose proof (findArgs_of_components s Hne) as Hf.
  repeat split.
  - exact Hf.
  - apply components_concat.
  - apply components_runs.
  - apply components_separated.
  - now rewrite Hf, tokens_concat, components_concat.
  - rewrite Hf, length_map. destruct s as [|p l]; [congruence|].
    now rewrite components_length.
Qed.

Lemma findArgs_maximal_runs_witness :
  findArgs_of [0; 1; 3; 4; 7]%Z = [lit "Y_0Y_1"; lit "Y_3Y_4"; lit "Y_7"] /\
  length (findArgs_of [0; 1; 3; 4; 7]%Z) = fanout [0; 1; 3; 4; 7]%Z.
Proof.
  destruct (findArgs_maximal_runs [0; 1; 3; 4; 7]%Z) as (H1 & _ & _ & _ & _ & H6).
  - discriminate.
  - split; [rewrite H1; reflexivity | exact H6].
Defined.

(** C4, the empty list: a node without positions gets one empty argument,
    although its span has no run. *)
Lemma findArgs_empty_span :
  StronglySorted Z.lt [] /\ Forall (fun p => 0 <= p)%Z [] /\
  findArgs_of [] = [[]] /\ components [] = [] /\
  length (findArgs_of []) <> fanout [].
Proof.
  repeat split; try constructor. simpl. discriminate.
Qed.

(** ** The stored rules *)

Lemma add_rule_unfold (rules : list Rule) (newrule : Rule) :
  add_rule rules newrule =
  if existsb (fun rule => str_eqb (form newrule) (form rule)) rules
  then rules else rules ++ [newrule].
Proof. now destruct rules. Qed.

Lemma form_stored (rules : list Rule) (newrule : Rule) :
  existsb (fun rule => str_eqb (form newrule) (form rule)) rules = true
  <-> In (form newrule) (map form rules).
Proof.
  rewrite existsb_exists, in_map_iff. split.
  - intros (x & Hx & He). apply str_eqb_eq in He. eauto.
  - intros (x & He & Hx). exists x. split; [assumption|].
    apply str_eqb_eq. congruence.
Qed.

Lemma add_rule_dup (rules : list Rule) (newrule : Rule) :
  In (form newrule) (map form rules) -> add_rule rules newrule = rules.
Proof.
  intros H. rewrite add_rule_unfold.
  apply form_stored in H. now rewrite H.
Qed.

Lemma add_rule_new (rules : list Rule) (newrule : Rule) :
  ~ In (form newrule) (map form rules) ->
  add_rule rules newrule = rules ++ [newrule].
Proof.
  intros H. rewrite add_rule_unfold.
  destruct (existsb _ rules) eqn:E; [|reflexivity].
  apply form_stored in E. contradiction.
Qed.

Lemma add_rule_cases (rules : list Rule) (newrule : Rule) :
  (In (form newrule) (map form rules) /\ add_rule rules newrule = rules) \/
  (~ In (form newrule) (map form rules) /\
   add_rule rules newrule = rules ++ [newrule]).
Proof.
  destruct (existsb (fun rule => str_eqb (form newrule) (form rule)) rules) eqn:E.
  - left. apply form_stored in E. split; [assumption|now apply add_rule_dup].
  - right. assert (H : ~ In (form newrule) (map form rules)).
    { intros H. apply form_stored in H. congruence. }
    split; [assumption|now apply add_rule_new].
Qed.

Lemma add_rule_NoDup (rules : list Rule) (newrule : Rule) :
  NoDup (map form rules) -> NoDup (map form (add_rule rules newrule)).
Proof.
  intros Hnd. destruct (add_rule_cases rules newrule) as [[_ ->]|[Hn ->]].
  - assumption.
  - rewrite map_app. simpl.
    apply NoDup_app_remove_l with (l := []). simpl.
    apply Permutation_NoDup with (l := form newrule :: map form rules).
    + apply Permutation_cons_append.
    + now constructor.
Qed.

Lemma add_rule_extends (rules : list Rule) (newrule : Rule) :
  exists new, add_rule rules newrule = rules ++ new.
Proof.
  destruct (add_rule_cases rules newrule) as [[_ ->]|[_ ->]].
  - exists []. now rewrite app_nil_r.
  - eauto.
Qed.

Lemma add_rule_stores (rules : list Rule) (newrule : Rule) :
  In (form newrule) (map form (add_rule rules newrule)).
Proof.
  destruct (add_rule_cases rules newrule) as [[H ->]|[_ ->]].
  - assumption.
  - rewrite map_app, in_app_iff. right. now left.
Qed.

Lemma add_rules_inv (h : heap) :
  forall (rs : list ref) (rules rules' : list Rule),
    add_rules h rs rules = Ok rules' ->
    (NoDup (map form rules) -> NoDup (map form rules')) /\
    (exists new, rules' = rules ++ new) /\
    (forall r, In r rs ->
       exists rule, Rule_init h r = Ok rule /\ In (form rule) (map form rules')).
Proof.
  induction rs as [|r rs IH]; intros rules rules' H; simpl in H.
  - injection H as <-. repeat split; auto.
    + exists []. now rewrite app_nil_r.
    + intros r [].
  - destruct (Rule_init h r) as [rule| |] eqn:Er; simpl in H; try discriminate.
    destruct (IH _ _ H) as (Hnd & (new & Hnew) & Hall).
    repeat split.
    + intros H0. apply Hnd. now apply add_rule_NoDup.
    + destruct (add_rule_extends rules rule) as (new0 & E0).
      exists (new0 ++ new). rewrite Hnew, E0. now rewrite app_assoc.
    + intros r0 [<-|Hin]; [|now apply Hall].
      exists rule. split; [assumption|].
      rewrite Hnew, map_app, in_app_iff. left. apply add_rule_stores.
Qed.

Lemma add_rules_stored (h : heap) :
  forall (rs : list ref) (rules : list Rule),
    (forall r, In r rs ->
       exists rule, Rule_init h r = Ok rule /\ In (form rule) (map form rules)) ->
    add_rules h rs rules = Ok rules.
Proof.
  induction rs as [|r rs IH]; intros rules H; [reflexivity|].
  simpl. destruct (H r (or_introl eq_refl)) as (rule & -> & Hin). simpl.
  rewrite (add_rule_dup _ _ Hin). apply IH.
  intros r0 Hr0. apply H. now right.
Qed.

Lemma induce_inv (fuel : nat) (rules rules' : list Rule) (tree : list str) :
  induce fuel rules tree = Ok rules' ->
  exists h nodes leaves nodes2 rules1,
    spans fuel tree = Ok (h, nodes, leaves, nodes2) /\
    add_rules h leaves rules = Ok rules1 /\
    add_rules h nodes2 rules1 = Ok rules'.
Proof.
  unfold induce. intros H.
  destruct (spans fuel tree) as [[[[h nodes] leaves] nodes2]| |];
    simpl in H; try discriminate.
  destruct (add_rules h leaves rules) as [rules1| |] eqn:E1;
    simpl in H; try discriminate.
  exists h, nodes, leaves, nodes2, rules1. auto.
Qed.

Lemma induce_NoDup (fuel : nat) (rules rules' : list Rule) (tree : list str) :
  induce fuel rules tree = Ok rules' ->
  (NoDup (map form rules) -> NoDup (map form rules')) /\
  (exists new, rules' = rules ++ new).
Proof.
  intros H. destruct (induce_inv _ _ _ _ H) as (h & ? & leaves & nodes2 & rules1 & _ & H1 & H2).
  destruct (add_rules_inv _ _ _ _ H1) as (N1 & (new1 & E1) & _).
  destruct (add_rules_inv _ _ _ _ H2) as (N2 & (new2 & E2) & _).
  split; [auto|].
  exists (new1 ++ new2). now rewrite E2, E1, app_assoc.
Qed.

Lemma Grammar_induce_all_NoDup (fuel : nat) :
  forall (trees : list (list str)) (rules rules' : list Rule),
    Grammar_induce_all fuel rules trees = Ok rules' ->
    (NoDup (map form rules) -> NoDup (map form rules')) /\
    (exists new, rules' = rules ++ new).
Proof.
  induction trees as [|tree trees IH]; intros rules rules' H; simpl in H.
  - injection H as <-. split; [auto|]. exists []. now rewrite app_nil_r.
  - destruct (induce fuel rules tree) as [rules1| |] eqn:E; simpl in H;
      try discriminate.
    destruct (induce_NoDup _ _ _ _ E) as (N1 & new1 & E1).
    destruct (IH _ _ H) as (N2 & new2 & E2).
    split; [auto|].
    exists (new1 ++ new2). now rewrite E2, E1, app_assoc.
Qed.

(** C7: [self.rules] starts empty; after the trees [trees1] and then the
    trees [trees2] have been induced, no two stored rules have the same
    form, the rules stored after [trees1] are still there, in the same
    order and in front, and a new rule is appended exactly when its form
    is that of no stored rule. *)
Theorem stored_forms_distinct
  (fuel : nat) (trees1 trees2 : list (list str)) (rules1 rules : list Rule) :
  Grammar_induce_all fuel [] trees1 = Ok rules1 ->
  Grammar_induce_all fuel rules1 trees2 = Ok rules ->
  NoDup (map form rules) /\
  (exists new, rules = rules1 ++ new) /\
  (forall newrule,
     (In (form newrule) (map form rules) -> add_rule rules newrule = rules) /\
     (~ In (form newrule) (map form rules) ->
      add_rule rules newrule = rules ++ [newrule])).
Proof.
  intros H1 H2.
  destruct (Grammar_induce_all_NoDup _ _ _ _ H1) as (N1 & _).
  destruct (Grammar_induce_all_NoDup _ _ _ _ H2) as (N2 & E2).
  repeat split.
  - apply N2, N1. constructor.
  - exact E2.
  - apply add_rule_dup.
  - apply add_rule_new.
Qed.

Lemma stored_forms_distinct_witness :
  exists rules,
    Grammar_induce_all 10 [] [tree1; tree1] = Ok rules /\
    NoDup (map form rules) /\ length rules = 5.
Proof.
  eexists. split; [vm_compute; reflexivity|].
  split; [|reflexivity].
  eapply (stored_forms_distinct 10 [tree1] [tree1]); vm_compute; reflexivity.
Defined.

(** when [induce] returns on a tree, a second call with the same tree
    leaves the stored rules as they are: every rule it builds has the form
    of a stored rule *)
Lemma induce_again
  (fuel : nat) (rules rules' : list Rule) (tree : list str) :
  induce fuel rules tree = Ok rules' ->
  induce fuel rules' tree = Ok rules'.
Proof.
  intros H.
  destruct (induce_inv _ _ _ _ H) as (h & nodes & leaves & nodes2 & rules1 & Hs & H1 & H2).
  destruct (add_rules_inv _ _ _ _ H1) as (_ & _ & A1).
  destruct (add_rules_inv _ _ _ _ H2) as (_ & (new2 & E2) & A2).
  unfold induce. rewrite Hs. simpl.
  rewrite add_rules_stored.
  - simpl. now apply add_rules_stored.
  - intros r Hr. destruct (A1 r Hr) as (rule & Hr1 & Hin).
    exists rule. split; [assumption|].
    rewrite E2, map_app, in_app_iff. now left.
Qed.

(** ** The store *)

Lemma get_upd_field (A : Type) (P : Node -> A) (f : Node -> Node) :
  (forall n, P (f n) = P n) ->
  forall (h : heap) (r r' : ref), P (get (upd h r f) r') = P (get h r').
Proof.
  intros Hf. unfold get.
  induction h as [|n h IH]; intros r r'; [reflexivity|].
  destruct r as [|r], r' as [|r']; simpl; auto.
Qed.

Lemma mother_upd_strID (v : list Z) (h : heap) (r r' : ref) :
  mother (get (upd h r (set_strID v)) r') = mother (get h r').
Proof. now apply get_upd_field. Qed.

Lemma mother_upd_daughter (d : ref) (h : heap) (r r' : ref) :
  mother (get (upd h r (append_daughter d)) r') = mother (get h r').
Proof. now apply get_upd_field. Qed.

(** ** A mother id that names no node *)

Lemma link_leaves_mother (nodes : dict) :
  forall (ls : list ref) (s : Z) (h h' : heap),
    link_leaves nodes s ls h = Ok h' ->
    forall r, mother (get h' r) = mother (get h r).
Proof.
  induction ls as [|leaf ls IH]; intros s h h' H r; simpl in H.
  - now injection H as <-.
  - destruct (dict_get nodes _) as [m|]; [|discriminate].
    rewrite (IH _ _ _ H). now rewrite mother_upd_daughter, mother_upd_strID.
Qed.

Lemma link_leaves_outcome (nodes : dict) :
  forall (ls : list ref) (s : Z) (h : heap),
    (exists h', link_leaves nodes s ls h = Ok h') \/
    link_leaves nodes s ls h = Raise KeyError.
Proof.
  induction ls as [|leaf ls IH]; intros s h; simpl.
  - left. eauto.
  - destruct (dict_get nodes _) as [m|]; [apply IH|now right].
Qed.

Lemma link_leaves_dangling (nodes : dict) :
  forall (ls : list ref) (s : Z) (h : heap) (leaf : ref),
    In leaf ls ->
    dict_get nodes (mother (get h leaf)) = None ->
    link_leaves nodes s ls h = Raise KeyError.
Proof.
  induction ls as [|l0 ls IH]; intros s h leaf Hin Hnone; [destruct Hin|].
  simpl. rewrite mother_upd_strID.
  destruct (dict_get nodes (mother (get h l0))) as [m|] eqn:E; [|reflexivity].
  destruct Hin as [->|Hin]; [congruence|].
  apply (IH _ _ leaf Hin).
  now rewrite mother_upd_daughter, mother_upd_strID.
Qed.

Lemma link_nodes_dangling (nodes : dict) :
  forall (vs : list ref) (h : heap) (r : ref),
    In r vs ->
    mother (get h r) <> lit "0" ->
    dict_get nodes (mother (get h r)) = None ->
    link_nodes nodes vs h = Raise KeyError.
Proof.
  induction vs as [|v vs IH]; intros h r Hin Hroot Hnone; [destruct Hin|].
  cbn [link_nodes].
  destruct (str_eqb (mother (get h v)) (lit "0")) eqn:E0; cbn [negb].
  - destruct Hin as [->|Hin].
    + apply str_eqb_eq in E0. contradiction.
    + now apply (IH _ r).
  - destruct (dict_get nodes (mother (get h v))) as [m|] eqn:E; [|reflexivity].
    destruct Hin as [->|Hin]; [congruence|].
    apply (IH _ r Hin); now rewrite mother_upd_daughter.
Qed.

Lemma linked_dangling
  (tree : list str) (h0 : heap) (nodes : dict) (leaves : list ref) (r : ref) :
  build tree [] [] [] = Ok (h0, nodes, leaves) ->
  In r leaves \/ In r (dict_values nodes) ->
  mother (get h0 r) <> lit "0" ->
  dict_get nodes (mother (get h0 r)) = None ->
  linked tree = Raise KeyError.
Proof.
  intros Hb Hin Hroot Hnone. unfold linked. rewrite Hb. simpl.
  destruct Hin as [Hin|Hin].
  - erewrite link_leaves_dangling; eauto.
  - destruct (link_leaves_outcome nodes leaves 0 h0) as [[h1 E]|E]; rewrite E;
      [|reflexivity].
    simpl. rewrite (link_nodes_dangling nodes _ h1 r Hin); auto;
      now rewrite (link_leaves_mother _ _ _ _ _ E).
Qed.

(** C5, as the code has it: when a leaf, or an internal node kept in the
    dictionary, names a mother id that is neither "0" nor a key of the
    dictionary, the loops that link the daughters raise [KeyError], so
    [induce] raises it before any rule is built, and the loop over the
    trees ends with that exception, whatever trees follow. *)
Theorem dangling_mother_raises_KeyError
  (fuel : nat) (rules : list Rule) (tree : list str) (trees : list (list str))
  (h0 : heap) (nodes : dict) (leaves : list ref) (r : ref) :
  build tree [] [] [] = Ok (h0, nodes, leaves) ->
  In r leaves \/ In r (dict_values nodes) ->
  mother (get h0 r) <> lit "0" ->
  dict_get nodes (mother (get h0 r)) = None ->
  linked tree = Raise KeyError /\
  induce fuel rules tree = Raise KeyError /\
  Grammar_induce_all fuel rules (tree :: trees) = Raise KeyError.
Proof.
  intros Hb Hin Hroot Hnone.
  pose proof (linked_dangling _ _ _ _ _ Hb Hin Hroot Hnone) as El.
  assert (E : induce fuel rules tree = Raise KeyError).
  { unfold induce, spans. now rewrite El. }
  split; [exact El|]. split; [exact E|]. simpl. now rewrite E.
Qed.

Lemma dangling_mother_raises_KeyError_witness :
  linked tree_dangling = Raise KeyError /\
  induce 10 [] tree_dangling = Raise KeyError /\
  Grammar_induce_all 10 [] [tree_dangling; tree1] = Raise KeyError.
Proof.
  eapply (dangling_mother_raises_KeyError 10 [] tree_dangling [tree1] _ _ _ 0).
  - vm_compute. reflexivity.
  - left. left. reflexivity.
  - vm_compute. discriminate.
  - vm_compute. reflexivity.
Defined.

(** C5, the claim as stated: the tree after the offending one is not
    processed; alone it would have stored five rules. *)
Lemma dangling_mother_stops_the_loop :
  mother (get [mkNode (lit "a") (lit "A") (lit "7") [] []] 0) = lit "7" /\
  Grammar_induce_all 10 [] [tree_dangling; tree1] = Raise KeyError /\
  forms (Grammar_induce_all 10 [] [tree1]) =
    Ok [ "A(a)->eps"; "B(b)->eps"; "C(c)->eps"; "VP(X_0,X_1)->A(X_0)C(X_1)";
         "S(X_1X_0X_2)->B(X_0)VP(X_1,X_2)" ]%string.
Proof. vm_compute. auto. Qed.

(** ** The while loop of the span propagation *)

Lemma propagate_stuck (st : pstate) :
  p_nodesval st <> [] ->
  scan (length (p_nodesval st)) 0 st = st ->
  forall fuel, propagate fuel st = Timeout.
Proof.
  intros Hne Hscan fuel. induction fuel as [|fuel IH]; [reflexivity|].
  cbn [propagate]. destruct (p_nodesval st) eqn:E; [congruence|].
  rewrite Hscan. exact IH.
Qed.

(** C6, the claim as stated: on a tree with an internal node without
    daughters below the root, the loop returns for no amount of fuel and
    raises nothing. *)
Lemma childless_node_never_resolves :
  ~ exists fuel, spans fuel tree_childless <> Timeout.
Proof.
  intros [fuel H]. apply H. clear H.
  unfold spans.
  set (L := linked tree_childless). vm_compute in L. subst L. cbn [bind].
  destruct fuel as [|fuel]; [reflexivity|].
  cbn [propagate dict_values map snd p_nodesval].
  set (st1 := scan _ _ _). vm_compute in st1. subst st1.
  rewrite propagate_stuck; [reflexivity|discriminate|].
  vm_compute. reflexivity.
Qed.

(** ** Decimal numerals *)

Lemma uchars_digits (u : uint) : Forall (fun c => is_digit c = true) (uchars u).
Proof.
  unfold uchars. induction u; simpl; constructor; auto.
Qed.

Lemma val_acc_uchars (u : uint) :
  forall acc : positive,
    val_acc (Z.pos acc) (uchars u) = Z.pos (Pos.of_uint_acc u acc).
Proof.
  unfold uchars, val_acc.
  induction u; intros acc; cbn [NilEmpty.string_of_uint list_ascii_of_string
                                fold_left Pos.of_uint_acc];
    [reflexivity|..]; rewrite <- IHu; f_equal;
    match goal with
    | |- context [digit_val ?c] =>
        let v := eval vm_compute in (digit_val c) in
        change (digit_val c) with v
    end; lia.
Qed.

Lemma val_uchars (u : uint) : val_acc 0 (uchars u) = Z.of_N (Pos.of_uint u).
Proof.
  induction u; [reflexivity| |..];
    try (unfold uchars; cbn [NilEmpty.string_of_uint list_ascii_of_string
                             Pos.of_uint];
         unfold val_acc; cbn [fold_left];
         change (fold_left _ ?l ?a) with (val_acc a (list_ascii_of_string (NilEmpty.string_of_uint u)));
         fold (uchars u);
         match goal with
         | |- val_acc ?a _ = Z.of_N (Npos (Pos.of_uint_acc _ ?q)) =>
             change a with (Z.pos q); now rewrite val_acc_uchars
         end).
  unfold uchars in *. cbn [NilEmpty.string_of_uint list_ascii_of_string Pos.of_uint].
  unfold val_acc in *. cbn [fold_left]. exact IHu.
Qed.

Lemma str_of_Z_uchars (z : Z) :
  (0 <= z)%Z ->
  exists u, str_of_Z z = uchars u /\ Z.of_N (Pos.of_uint u) = z /\ uchars u <> [].
Proof.
  intros Hz. destruct z as [|q|q]; [| |lia].
  - exists (D0 Nil). repeat split. discriminate.
  - exists (Pos.to_uint q). unfold str_of_Z, uchars. cbn [Z.to_int NilZero.string_of_int].
    pose proof (DecimalPos.Unsigned.to_uint_nonnil q) as Hn.
    assert (E : NilZero.string_of_uint (Pos.to_uint q)
                = NilEmpty.string_of_uint (Pos.to_uint q)).
    { unfold NilZero.string_of_uint. destruct (Pos.to_uint q); congruence. }
    rewrite E. split; [reflexivity|]. split.
    + now rewrite DecimalPos.Unsigned.of_to.
    + destruct (Pos.to_uint q); try congruence; discriminate.
Qed.

Lemma str_of_Z_digits (z : Z) :
  (0 <= z)%Z -> Forall (fun c => is_digit c = true) (str_of_Z z).
Proof.
  intros Hz. destruct (str_of_Z_uchars z Hz) as (u & -> & _). apply uchars_digits.
Qed.

Lemma str_of_Z_nonempty (z : Z) : (0 <= z)%Z -> str_of_Z z <> [].
Proof.
  intros Hz. destruct (str_of_Z_uchars z Hz) as (u & -> & _ & H). exact H.
Qed.

Lemma val_str_of_Z (z : Z) : (0 <= z)%Z -> val_acc 0 (str_of_Z z) = z.
Proof.
  intros Hz. destruct (str_of_Z_uchars z Hz) as (u & -> & H & _).
  now rewrite val_uchars.
Qed.

Lemma str_of_Z_inj (p q : Z) :
  (0 <= p)%Z -> (0 <= q)%Z -> str_of_Z p = str_of_Z q -> p = q.
Proof.
  intros Hp Hq E. rewrite <- (val_str_of_Z p Hp), <- (val_str_of_Z q Hq).
  now rewrite E.
Qed.

Lemma digit_val_nonneg (c : ascii) : is_digit c = true -> (0 <= digit_val c)%Z.
Proof.
  unfold is_digit, digit_val. rewrite andb_true_iff, !Nat.leb_le. lia.
Qed.

Lemma val_acc_ge (ds : str) :
  Forall (fun c => is_digit c = true) ds ->
  forall acc, (0 <= acc)%Z -> (acc <= val_acc acc ds)%Z.
Proof.
  unfold val_acc. induction 1 as [|c ds Hc _ IH]; intros acc Ha; cbn [fold_left];
    [lia|].
  pose proof (digit_val_nonneg c Hc).
  specialize (IH (10 * acc + digit_val c)%Z). lia.
Qed.

(** a numeral that starts with the numeral of [p] denotes at least [p] *)
Lemma str_of_Z_prefix_le (p q : Z) (r : str) :
  (0 <= p)%Z -> (0 <= q)%Z -> str_of_Z q = str_of_Z p ++ r -> (p <= q)%Z.
Proof.
  intros Hp Hq E.
  pose proof (str_of_Z_digits q Hq) as Dq. rewrite E in Dq.
  apply Forall_app in Dq. destruct Dq as [_ Dr].
  rewrite <- (val_str_of_Z q Hq), E.
  unfold val_acc. rewrite fold_left_app. fold (val_acc 0 (str_of_Z p)).
  rewrite (val_str_of_Z p Hp).
  now apply val_acc_ge.
Qed.

(** ** Prefixes and replacement *)

Lemma prefixb_app (a t : str) : prefixb a (a ++ t) = true.
Proof.
  induction a as [|x a IH]; [reflexivity|]. simpl.
  now rewrite Ascii.eqb_refl.
Qed.

Lemma prefixb_iff (a s : str) : prefixb a s = true <-> exists t, s = a ++ t.
Proof.
  split.
  - revert s. induction a as [|x a IH]; intros s H; [now exists s|].
    destruct s as [|y s]; [discriminate|]. simpl in H.
    apply andb_true_iff in H. destruct H as [Hxy H].
    apply Ascii.eqb_eq in Hxy. subst y.
    destruct (IH _ H) as [t ->]. now exists t.
  - intros [t ->]. apply prefixb_app.
Qed.

Lemma digit_not_letter (c : ascii) :
  is_digit c = true -> c <> cY /\ c <> cX /\ c <> c_ /\ c <> bar.
Proof.
  intros H. repeat split; intros ->; vm_compute in H; discriminate.
Qed.

Lemma digits_prefix (a b x r t : str) :
  Forall (fun c => is_digit c = true) a ->
  Forall (fun c => is_digit c = true) b ->
  endok x -> endok r ->
  a ++ x ++ t = b ++ r ->
  (exists t', b = a ++ t') /\ (x <> [] -> a = b).
Proof.
  intros Da Db Hx Hr E.
  apply app_eq_app in E. destruct E as [l [[E1 E2]|[E1 E2]]].
  - destruct l as [|e l].
    + rewrite app_nil_r in E1. subst b. split; [|reflexivity].
      exists []. now rewrite app_nil_r.
    + exfalso. subst r. simpl in Hr.
      rewrite E1 in Da. apply Forall_app in Da. destruct Da as [_ Da].
      inversion Da; congruence.
  - split; [now exists l|]. intros Hne.
    destruct l as [|e l]; [now rewrite app_nil_r in E1|].
    exfalso. destruct x as [|d x]; [congruence|].
    simpl in Hx, E2. injection E2 as -> _.
    rewrite E1 in Db. apply Forall_app in Db. destruct Db as [_ Db].
    inversion Db; congruence.
Qed.

Lemma safe_nomatch (h : ascii) (P : Z -> Prop) (p : Z) (x u v : str) :
  (0 <= p)%Z -> endok x ->
  (forall q, P q -> (0 <= q)%Z ->
             (exists t, str_of_Z q = str_of_Z p ++ t) ->
             (x <> [] -> p = q) -> False) ->
  safe h P u v ->
  nomatch (h :: c_ :: str_of_Z p ++ x) u v.
Proof.
  intros Hp Hx Hex Hs u1 u2 E Hne.
  destruct u2 as [|e u2]; [congruence|].
  cbn [app prefixb].
  destruct (Ascii.eqb_spec h e) as [<-|]; [|reflexivity].
  cbn [andb].
  destruct (Hs u1 u2 E) as (q & r & HP & Hq & Ev & Hr). rewrite Ev.
  cbn [prefixb]. rewrite Ascii.eqb_refl. cbn [andb].
  destruct (prefixb (str_of_Z p ++ x) (str_of_Z q ++ r)) eqn:Hpre;
    [exfalso|reflexivity].
  apply prefixb_iff in Hpre. destruct Hpre as [t Et].
  rewrite <- app_assoc in Et. symmetry in Et.
  destruct (digits_prefix _ _ _ _ _ (str_of_Z_digits p Hp) (str_of_Z_digits q Hq)
              Hx Hr Et) as (H1 & H2).
  apply (Hex q HP Hq H1).
  intros Hxn. apply (str_of_Z_inj p q Hp Hq). auto.
Qed.

Lemma nomatch_app (old a b v : str) :
  nomatch old a (b ++ v) -> nomatch old b v -> nomatch old (a ++ b) v.
Proof.
  intros Ha Hb u1 u2 E Hne.
  apply app_eq_app in E. destruct E as [l [[E1 E2]|[E1 E2]]].
  - destruct l as [|e l].
    + rewrite app_nil_l in E2. subst u2. apply (Hb [] b); auto.
    + subst u2. rewrite <- app_assoc. apply (Ha u1 (e :: l)); auto. discriminate.
  - apply (Hb l u2); auto.
Qed.

Lemma replace_go_nomatch (old new : str) :
  forall (s : str) (n : nat), nomatch old s [] -> replace_go n old new s = s.
Proof.
  induction s as [|c s IH]; intros n H; destruct n as [|n]; try reflexivity.
  cbn [replace_go].
  assert (E : prefixb old (c :: s) = false).
  { rewrite <- (app_nil_r (c :: s)). apply (H [] (c :: s)); [reflexivity|discriminate]. }
  rewrite E. f_equal. apply IH.
  intros u1 u2 E2 Hne. apply (H (c :: u1) u2); [now subst|assumption].
Qed.

Lemma replace_go_once (old new w : str) :
  old <> [] -> nomatch old w [] ->
  forall (u : str) (n : nat),
    nomatch old u (old ++ w) -> length u < n ->
    replace_go n old new (u ++ old ++ w) = u ++ new ++ w.
Proof.
  intros Hold Hw. induction u as [|c u IH]; intros n Hu Hn.
  - destruct n as [|n]; [lia|]. cbn [app replace_go].
    destruct (old ++ w) as [|c s] eqn:E.
    { destruct old; [congruence|discriminate]. }
    rewrite <- E, prefixb_app.
    rewrite skipn_app, skipn_all, Nat.sub_diag. cbn [app skipn].
    now rewrite replace_go_nomatch.
  - destruct n as [|n]; [simpl in Hn; lia|]. cbn [app replace_go].
    assert (E : prefixb old (c :: u ++ old ++ w) = false).
    { apply (Hu [] (c :: u)); [reflexivity|discriminate]. }
    rewrite E. f_equal. apply IH; [|simpl in Hn; lia].
    intros u1 u2 E2 Hne. apply (Hu (c :: u1) u2); [now subst|assumption].
Qed.

Lemma replace_nomatch (old new s : str) :
  old <> [] -> nomatch old s [] -> replace old new s = s.
Proof.
  intros Hold H. unfold replace. destruct old; [congruence|].
  now apply replace_go_nomatch.
Qed.

Lemma replace_once (old new u w : str) :
  old <> [] -> nomatch old u (old ++ w) -> nomatch old w [] ->
  replace old new (u ++ old ++ w) = u ++ new ++ w.
Proof.
  intros Hold Hu Hw. unfold replace. destruct old as [|c old]; [congruence|].
  apply replace_go_once; auto.
  rewrite !length_app. simpl. lia.
Qed.

(** ** Where a token can start *)

Lemma safe_app (h : ascii) (P : Z -> Prop) (a b v : str) :
  safe h P a (b ++ v) -> safe h P b v -> safe h P (a ++ b) v.
Proof.
  intros Ha Hb w1 w2 E.
  apply app_eq_app in E. destruct E as [l [[E1 E2]|[E1 E2]]].
  - destruct l as [|e l].
    + rewrite app_nil_l in E2. apply (Hb [] w2). now rewrite E2.
    + injection E2 as <- ->. rewrite <- app_assoc. apply (Ha w1 l). exact E1.
  - apply (Hb l w2). exact E2.
Qed.

Lemma safe_absent (h : ascii) (P : Z -> Prop) (a v : str) :
  ~ In h a -> safe h P a v.
Proof.
  intros Hn w1 w2 E. exfalso. apply Hn. rewrite E. apply in_elt.
Qed.

Lemma safe_suffix (h : ascii) (P : Z -> Prop) (a b v : str) :
  safe h P (a ++ b) v -> safe h P b v.
Proof.
  intros H w1 w2 E. apply (H (a ++ w1) w2). now rewrite E, app_assoc.
Qed.

Lemma numeral_no_head (h : ascii) (q : Z) :
  h = cY \/ h = cX -> (0 <= q)%Z -> ~ In h (c_ :: str_of_Z q).
Proof.
  intros Hh Hq [E|Hin].
  - destruct Hh; subst h; discriminate.
  - pose proof (str_of_Z_digits q Hq) as D. rewrite Forall_forall in D.
    destruct (digit_not_letter h (D h Hin)) as (? & ? & _).
    destruct Hh; contradiction.
Qed.

Lemma endok_render (toks : list tok) (v : str) :
  endok v -> endok (render toks ++ v).
Proof.
  intros Hv. destruct toks as [|[q|c] toks]; [exact Hv|reflexivity|reflexivity].
Qed.

Lemma safe_render (h : ascii) (P : Z -> Prop) (v : str) :
  h = cY \/ h = cX -> endok v ->
  forall toks : list tok,
    Forall (fun t => (0 <= tok_idx t)%Z) toks ->
    (forall t, In t toks -> tok_head t = h -> P (tok_idx t)) ->
    safe h P (render toks) v.
Proof.
  intros Hh Hv. induction toks as [|t toks IH]; intros Hnn HP.
  - apply safe_absent. intros [].
  - inversion Hnn as [|? ? Ht Hnn']; subst.
    change (render (t :: toks)) with (render_tok t ++ render toks).
    apply safe_app.
    + destruct (ascii_dec (tok_head t) h) as [Eh|Nh].
      * intros w1 w2 E. unfold render_tok in E. rewrite Eh in E.
        destruct w1 as [|e w1].
        -- injection E as <-.
           exists (tok_idx t), (render toks ++ v).
           split; [apply HP; [now left|assumption]|].
           split; [assumption|]. split; [reflexivity|].
           now apply endok_render.
        -- exfalso. injection E as _ E.
           apply (numeral_no_head h (tok_idx t) Hh Ht). rewrite E. apply in_elt.
      * apply safe_absent. intros [E|Hin]; [congruence|].
        now apply (numeral_no_head h (tok_idx t) Hh Ht).
    + apply IH; [assumption|]. intros t' Hin. apply HP. now right.
Qed.

(** ** The substitution of one run *)

Lemma render_app (a b : list tok) : render (a ++ b) = render a ++ render b.
Proof. apply flat_map_app. Qed.

Lemma tokens_render (run : list Z) : tokens run = render (map TY run).
Proof.
  induction run as [|p run IH]; [reflexivity|].
  change (tokens (p :: run)) with (token p ++ tokens run).
  now rewrite IH.
Qed.

Lemma prefixb_app_same (a x y : str) : prefixb (a ++ x) (a ++ y) = prefixb x y.
Proof.
  induction a as [|c a IH]; [reflexivity|]. simpl. now rewrite Ascii.eqb_refl.
Qed.

Lemma render_next (post : list tok) :
  exists w, render post ++ [bar] = next_char post :: w.
Proof.
  destruct post as [|t post]; [now exists []|].
  exists (c_ :: str_of_Z (tok_idx t) ++ render post ++ [bar]).
  change (render (t :: post)) with (render_tok t ++ render post).
  now rewrite <- app_assoc.
Qed.

Lemma endok_run_tail (run : list Z) (b : ascii) :
  is_digit b = false -> endok (tokens run ++ [b]) /\ tokens run ++ [b] <> [].
Proof.
  intros Hb. destruct run as [|q run]; split; try discriminate.
  - exact Hb.
  - reflexivity.
Qed.

Lemma safe_render_absent (p : Z) (toks : list tok) (v : str) :
  nonneg toks -> ~ In (TY p) toks -> endok v ->
  safe cY (fun q => q <> p) (render toks) v.
Proof.
  intros Hnn Hp Hv. apply safe_render; auto.
  intros [q|c] Hin Hh; [|discriminate]. simpl. intros ->. contradiction.
Qed.

Lemma pattern_nomatch (p : Z) (x u v : str) :
  (0 <= p)%Z -> endok x -> x <> [] ->
  safe cY (fun q => q <> p) u v ->
  nomatch (cY :: c_ :: str_of_Z p ++ x) u v.
Proof.
  intros Hp Hx Hne Hs. apply (safe_nomatch cY (fun q => q <> p)); auto.
  intros q Hq _ _ E. apply Hq. symmetry. auto.
Qed.

Lemma absent_nomatch (p : Z) (x : str) (toks : list tok) :
  (0 <= p)%Z -> endok x -> x <> [] ->
  nonneg toks -> ~ In (TY p) toks ->
  nomatch (cY :: c_ :: str_of_Z p ++ x) (render toks ++ [bar]) [].
Proof.
  intros Hp Hx Hne Hnn Hab. apply pattern_nomatch; auto.
  apply safe_app.
  - apply safe_render_absent; auto. reflexivity.
  - apply safe_absent. intros [E|[]]. discriminate.
Qed.

Lemma pattern_shape (p : Z) (run : list Z) (b : ascii) :
  tokens (p :: run) ++ [b] = cY :: c_ :: str_of_Z p ++ (tokens run ++ [b]).
Proof.
  change (tokens (p :: run)) with ((cY :: c_ :: str_of_Z p) ++ tokens run).
  now rewrite <- app_assoc.
Qed.

Lemma replace_absent (p : Z) (run : list Z) (b : ascii) (new : str) (toks : list tok) :
  (0 <= p)%Z -> is_digit b = false ->
  nonneg toks -> ~ In (TY p) toks ->
  replace (tokens (p :: run) ++ [b]) new (render toks ++ [bar])
  = render toks ++ [bar].
Proof.
  intros Hp Hb Hnn Hab.
  destruct (endok_run_tail run b Hb) as (Hx & Hne).
  rewrite pattern_shape.
  apply replace_nomatch; [discriminate|].
  now apply absent_nomatch.
Qed.

Lemma replace_at_run
  (p : Z) (run : list Z) (b : ascii) (c : Z) (pre post : list tok) :
  (0 <= p)%Z -> is_digit b = false ->
  nonneg pre -> nonneg (map TY run ++ post) ->
  ~ In (TY p) pre -> ~ In (TY p) (map TY run ++ post) ->
  replace (tokens (p :: run) ++ [b]) (var c ++ [b])
          (render (pre ++ map TY (p :: run) ++ post) ++ [bar])
  = if Ascii.eqb (next_char post) b
    then render (pre ++ TX c :: post) ++ [bar]
    else render (pre ++ map TY (p :: run) ++ post) ++ [bar].
Proof.
  intros Hp Hb Hpre Hpost Apre Apost.
  destruct (endok_run_tail run b Hb) as (Hx & Hne).
  assert (Hnn_post : nonneg post).
  { apply Forall_app in Hpost. tauto. }
  assert (Apost' : ~ In (TY p) post).
  { intros H. apply Apost. apply in_or_app. now right. }
  set (old := tokens (p :: run) ++ [b]).
  assert (Eold : old = cY :: c_ :: str_of_Z p ++ (tokens run ++ [b]))
    by apply pattern_shape.
  destruct (render_next post) as [w Ew].
  rewrite !render_app, <- !app_assoc, <- tokens_render.
  destruct (Ascii.eqb_spec (next_char post) b) as [Eb|Nb].
  - rewrite Ew, Eb.
    change (tokens (p :: run) ++ b :: w) with (tokens (p :: run) ++ [b] ++ w).
    rewrite (app_assoc (tokens (p :: run))). fold old.
    rewrite replace_once.
    + change (render (TX c :: post)) with (var c ++ render post).
      rewrite <- !app_assoc. rewrite Ew, Eb. reflexivity.
    + rewrite Eold. discriminate.
    + rewrite Eold at 1. apply pattern_nomatch; auto.
      apply safe_render_absent; auto. rewrite Eold. reflexivity.
    + rewrite Eold. apply pattern_nomatch; auto.
      apply (safe_suffix cY _ [b]). cbn [app]. rewrite <- Eb, <- Ew.
      apply safe_app.
      * apply safe_render_absent; auto. reflexivity.
      * apply safe_absent. intros [E|[]]. discriminate.
  - apply replace_nomatch; [rewrite Eold; discriminate|].
    apply nomatch_app.
    + rewrite Eold. apply pattern_nomatch; auto.
      apply safe_render_absent; auto. reflexivity.
    + change (tokens (p :: run)) with ([cY] ++ c_ :: str_of_Z p ++ tokens run).
      rewrite <- app_assoc. apply nomatch_app.
      * intros u1 u2 E Hu2.
        assert (u2 = [cY]) as ->.
        { destruct u1 as [|e u1]; [now symmetry|].
          destruct u1; destruct u2; try discriminate; congruence. }
        rewrite app_nil_r. unfold old.
        change ([cY] ++ (c_ :: str_of_Z p ++ tokens run) ++ render post ++ [bar])
          with (tokens (p :: run) ++ render post ++ [bar]).
        rewrite prefixb_app_same, Ew. cbn [prefixb].
        destruct (Ascii.eqb_spec b (next_char post)); [congruence|reflexivity].
      * rewrite Eold. apply pattern_nomatch; auto.
        change (c_ :: str_of_Z p ++ tokens run)
          with ((c_ :: str_of_Z p) ++ tokens run).
        rewrite <- app_assoc.
        apply safe_app.
        -- apply safe_absent. apply numeral_no_head; auto.
        -- rewrite tokens_render, app_assoc, <- render_app.
           apply safe_app.
           ++ apply safe_render_absent; auto. reflexivity.
           ++ apply safe_absent. intros [E|[]]. discriminate.
Qed.

(** the body of the innermost loop replaces the run, as a whole, by the
    variable *)
Lemma substitute_run (p : Z) (run : list Z) (c : Z) (pre post : list tok) :
  (0 <= p)%Z -> (0 <= c)%Z ->
  nonneg pre -> nonneg (map TY run ++ post) ->
  ~ In (TY p) pre -> ~ In (TY p) (map TY run ++ post) ->
  substitute (tokens (p :: run)) c (render (pre ++ map TY (p :: run) ++ post))
  = render (pre ++ TX c :: post).
Proof.
  intros Hp Hc Hpre Hpost Apre Apost.
  assert (Hnn' : nonneg (pre ++ TX c :: post)).
  { apply Forall_app. split; [assumption|]. constructor; [exact Hc|].
    apply Forall_app in Hpost. tauto. }
  assert (Ab' : ~ In (TY p) (pre ++ TX c :: post)).
  { intros H. apply in_app_or in H. destruct H as [H|[H|H]];
      [contradiction|discriminate|].
    apply Apost. apply in_or_app. now right. }
  unfold substitute.
  change (lit "|") with [bar]. change (lit "Y") with [cY].
  change (lit "X") with [cX].
  rewrite (replace_at_run p run cY c pre post); auto.
  destruct post as [|[q|c'] post]; cbn [next_char tok_head].
  - change (Ascii.eqb bar cY) with false. cbv iota.
    rewrite (replace_at_run p run cX c pre []); auto.
    cbn [next_char]. change (Ascii.eqb bar cX) with false. cbv iota.
    rewrite (replace_at_run p run bar c pre []); auto.
    cbn [next_char]. change (Ascii.eqb bar bar) with true. cbv iota.
    apply removelast_last.
  - change (Ascii.eqb cY cY) with true. cbv iota.
    rewrite !replace_absent; auto. apply removelast_last.
  - change (Ascii.eqb cX cY) with false. cbv iota.
    rewrite (replace_at_run p run cX c pre (TX c' :: post)); auto.
    cbn [next_char tok_head]. change (Ascii.eqb cX cX) with true. cbv iota.
    rewrite !replace_absent; auto. apply removelast_last.
Qed.

(** where the run does not start, nothing is replaced, whatever longer
    tokens the argument holds *)
Lemma substitute_absent (p : Z) (run : list Z) (c : Z) (toks : list tok) :
  (0 <= p)%Z -> nonneg toks -> ~ In (TY p) toks ->
  substitute (tokens (p :: run)) c (render toks) = render toks.
Proof.
  intros Hp Hnn Hab. unfold substitute.
  change (lit "|") with [bar]. change (lit "Y") with [cY].
  change (lit "X") with [cX].
  rewrite !replace_absent; auto. apply removelast_last.
Qed.

(** ** The test [pred.args[i] in self.lhs.args[j]] *)

Lemma contains_app (a w : str) : forall u, contains a (u ++ a ++ w) = true.
Proof.
  induction u as [|c u IH].
  - cbn [app]. destruct (a ++ w) eqn:E; cbn [contains]; rewrite <- E;
      now rewrite prefixb_app.
  - cbn [app contains]. rewrite IH. apply orb_true_r.
Qed.

Lemma contains_nomatch (a : str) :
  a <> [] -> forall s, nomatch a s [] -> contains a s = false.
Proof.
  intros Ha. induction s as [|c s IH]; intros H.
  - destruct a; [congruence|reflexivity].
  - cbn [contains]. rewrite IH.
    + rewrite orb_false_r. rewrite <- (app_nil_r (c :: s)).
      apply (H [] (c :: s)); [reflexivity|discriminate].
    + intros u1 u2 E Hne. apply (H (c :: u1) u2); [now subst|assumption].
Qed.

Lemma endok_tokens (run : list Z) : endok (tokens run).
Proof. destruct run; [exact I|reflexivity]. Qed.

Lemma contains_run_smaller (p : Z) (run : list Z) (toks : list tok) :
  (0 <= p)%Z -> nonneg toks ->
  (forall q, In (TY q) toks -> (q < p)%Z) ->
  contains (tokens (p :: run)) (render toks) = false.
Proof.
  intros Hp Hnn Hlt.
  change (tokens (p :: run)) with (cY :: c_ :: str_of_Z p ++ tokens run).
  apply contains_nomatch; [discriminate|].
  apply (safe_nomatch cY (fun q => (q < p)%Z)); auto.
  - apply endok_tokens.
  - intros q Hq Hq0 [t Et] _.
    pose proof (str_of_Z_prefix_le p q t Hp Hq0 Et). lia.
  - apply safe_render; auto; [exact I|].
    intros [q|c] Hin Hh; [|discriminate]. now apply Hlt.
Qed.

Lemma contains_var_fresh (k : Z) (toks : list tok) :
  (0 <= k)%Z -> nonneg toks ->
  (forall c, In (TX c) toks -> (c < k)%Z) ->
  contains (var k) (render toks) = false.
Proof.
  intros Hk Hnn Hlt.
  change (var k) with (cX :: c_ :: str_of_Z k).
  rewrite <- (app_nil_r (str_of_Z k)).
  apply contains_nomatch; [discriminate|].
  apply (safe_nomatch cX (fun c => (c < k)%Z)); auto.
  - exact I.
  - intros q Hq Hq0 [t Et] _.
    pose proof (str_of_Z_prefix_le k q t Hk Hq0 Et). lia.
  - apply safe_render; auto; [exact I|].
    intros [q|c] Hin Hh; [discriminate|]. now apply Hlt.
Qed.

Lemma contract_j_none (a : str) (count : Z) :
  forall largs : list str,
    Forall (fun l => contains a l = false) largs ->
    contract_j a count largs = (largs, a, count).
Proof.
  induction 1 as [|l largs Hl _ IH]; [reflexivity|].
  cbn [contract_j]. now rewrite Hl, IH.
Qed.

(** one pass of the loop over the left-hand-side arguments, for a run
    that one argument holds: the arguments in front hold smaller
    positions only, and the arguments behind hold older variables only *)
Lemma contract_j_run
  (p : Z) (run : list Z) (k : Z) (pre post : list tok) (Lpost : list (list tok)) :
  (0 <= p)%Z -> (0 <= k)%Z ->
  nonneg pre -> nonneg (map TY run ++ post) -> Forall nonneg Lpost ->
  ~ In (TY p) pre -> ~ In (TY p) (map TY run ++ post) ->
  (forall L c, In L Lpost -> In (TX c) L -> (c < k)%Z) ->
  forall Lpre : list (list tok),
    Forall nonneg Lpre ->
    (forall L q, In L Lpre -> In (TY q) L -> (q < p)%Z) ->
    contract_j (tokens (p :: run)) k
      (map render (Lpre ++ (pre ++ map TY (p :: run) ++ post) :: Lpost))
    = (map render (Lpre ++ (pre ++ TX k :: post) :: Lpost), var k, (k + 1)%Z).
Proof.
  intros Hp Hk Hpre Hpost HLpost Apre Apost Hvars.
  induction Lpre as [|L Lpre IH]; intros HLpre Hsmall.
  - cbn [app]. rewrite !map_cons. cbn [contract_j].
    change (TY p :: map TY run) with (map TY (p :: run)).
    assert (Hc : contains (tokens (p :: run))
                   (render (pre ++ map TY (p :: run) ++ post)) = true).
    { rewrite !render_app, <- tokens_render. apply contains_app. }
    rewrite Hc. rewrite contract_j_none.
    + rewrite substitute_run; auto.
    + rewrite Forall_map, Forall_forall. intros L HL.
      apply contains_var_fresh; auto.
      * rewrite Forall_forall in HLpost. now apply HLpost.
      * intros c. now apply Hvars.
  - inversion HLpre; subst.
    cbn [app]. rewrite map_cons. cbn [contract_j].
    rewrite contains_run_smaller; auto.
    + rewrite IH; auto. intros L' q HL'. apply Hsmall. now right.
    + intros q. apply Hsmall. now left.
Qed.

(** ** Positions held by the arguments *)

Lemma positions_app (a b : list tok) :
  positions (a ++ b) = positions a ++ positions b.
Proof. apply flat_map_app. Qed.

Lemma positions_TY (l : list Z) : positions (map TY l) = l.
Proof.
  induction l as [|x l IH]; [reflexivity|].
  change (positions (map TY (x :: l))) with (x :: positions (map TY l)).
  now rewrite IH.
Qed.

Lemma In_positions (q : Z) (toks : list tok) :
  In (TY q) toks <-> In q (positions toks).
Proof.
  unfold positions. rewrite in_flat_map. split.
  - intros H. exists (TY q). split; [assumption|now left].
  - intros ([q'|c] & Hin & Hq); [|destruct Hq].
    destruct Hq as [->|[]]. assumption.
Qed.

Lemma In_variables (c : Z) (toks : list tok) :
  In (TX c) toks <-> In c (variables toks).
Proof.
  unfold variables. rewrite in_flat_map. split.
  - intros H. exists (TX c). split; [assumption|now left].
  - intros ([q|c'] & Hin & Hc); [destruct Hc|].
    destruct Hc as [->|[]]. assumption.
Qed.

Lemma positions_concat_In (Ls : list (list tok)) (L : list tok) (q : Z) :
  In L Ls -> In (TY q) L -> In q (positions (concat Ls)).
Proof.
  intros HL Hq. apply In_positions. apply in_concat. eauto.
Qed.

Lemma sorted_middle (a b : list Z) (p : Z) :
  StronglySorted Z.lt (a ++ p :: b) ->
  (forall x, In x a -> (x < p)%Z) /\ (forall x, In x b -> (p < x)%Z).
Proof.
  induction a as [|y a IH]; intros H.
  - apply StronglySorted_inv in H. destruct H as [_ H].
    rewrite Forall_forall in H. split; [intros x []|exact H].
  - cbn [app] in H. apply StronglySorted_inv in H. destruct H as [Hs Hy].
    destruct (IH Hs) as [Ha Hb]. split; [|exact Hb].
    intros x [<-|Hx]; [|now apply Ha].
    rewrite Forall_forall in Hy. apply Hy. apply in_elt.
Qed.

(** C2: in one pass of the loop over the left-hand-side arguments, whose
    tokens hold positions in ascending order and variables older than the
    new one, the run of the right-hand-side argument is replaced, as a
    whole, by the new variable in the argument that holds it; every other
    token of every argument stays, the right-hand-side argument becomes
    the variable and the counter advances by one.  An argument that does
    not hold the first token of the run is left as it is by the
    replacements, also when it holds a longer token that starts with the
    same text. *)
Theorem contraction_replaces_whole_run
  (p : Z) (run : list Z) (k : Z)
  (Lpre : list (list tok)) (pre post : list tok) (Lpost : list (list tok)) :
  (0 <= k)%Z ->
  Forall nonneg (Lpre ++ (pre ++ map TY (p :: run) ++ post) :: Lpost) ->
  StronglySorted Z.lt
    (positions (concat (Lpre ++ (pre ++ map TY (p :: run) ++ post) :: Lpost))) ->
  (forall c,
     In c (variables (concat (Lpre ++ (pre ++ map TY (p :: run) ++ post) :: Lpost))) ->
     (c < k)%Z) ->
  contract_j (tokens (p :: run)) k
    (map render (Lpre ++ (pre ++ map TY (p :: run) ++ post) :: Lpost))
  = (map render (Lpre ++ (pre ++ TX k :: post) :: Lpost), var k, (k + 1)%Z)
  /\ (forall toks,
        nonneg toks -> ~ In (TY p) toks ->
        substitute (tokens (p :: run)) k (render toks) = render toks).
Proof.
  intros Hk Hnn Hsort Hvars.
  apply Forall_app in Hnn. destruct Hnn as [HLpre Hnn].
  inversion Hnn as [|? ? HM HLpost]; subst.
  apply Forall_app in HM. destruct HM as [Hpre HM].
  change (map TY (p :: run) ++ post) with (TY p :: map TY run ++ post) in HM.
  inversion HM as [|? ? Hp Hrest]; subst. simpl in Hp.
  rewrite concat_app, positions_app in Hsort. cbn [concat] in Hsort.
  rewrite !positions_app, positions_TY in Hsort.
  rewrite <- !app_assoc in Hsort. rewrite app_assoc in Hsort.
  cbn [app] in Hsort.
  destruct (sorted_middle _ _ _ Hsort) as [Hlt Hgt].
  split.
  - apply contract_j_run; auto.
    + intros H. apply In_positions in H.
      assert (p < p)%Z; [|lia]. apply Hlt. apply in_or_app. now right.
    + intros H. apply In_positions in H.
      rewrite positions_app, positions_TY in H.
      assert (p < p)%Z; [|lia]. apply Hgt.
      rewrite app_assoc. apply in_or_app. now left.
    + intros L c HL Hc. apply Hvars. apply In_variables.
      apply in_concat. exists L. split; [|assumption].
      apply in_or_app. right. now right.
    + intros L q HL Hq. apply Hlt. apply in_or_app. left.
      now apply (positions_concat_In Lpre L).
  - intros toks Ht Hab. now apply substitute_absent.
Qed.

Lemma contraction_replaces_whole_run_witness :
  contract_j (lit "Y_1") 0 [lit "Y_0Y_1"; lit "Y_10Y_11"]
  = ([lit "Y_0X_0"; lit "Y_10Y_11"], lit "X_0", 1%Z)
  /\ substitute (lit "Y_1") 0 (lit "Y_10Y_11") = lit "Y_10Y_11".
Proof.
  destruct (contraction_replaces_whole_run 1 [] 0 [] [TY 0] [] [[TY 10; TY 11]])
    as [H1 H2].
  - lia.
  - repeat constructor; simpl; lia.
  - simpl. repeat constructor; lia.
  - simpl. intros c [].
  - split; [exact H1|].
    apply (H2 [TY 10; TY 11]).
    + repeat constructor; simpl; lia.
    + simpl. intros [H|[H|[]]]; discriminate.
Defined.

(** the test itself is plain containment: it holds for "Y_1" in "Y_10" *)
Example contains_longer_token :
  contains (lit "Y_1") (lit "Y_10Y_11") = true.
Proof. reflexivity. Qed.

(** ** A contiguous run of a sorted span lies inside one component *)

Lemma contiguous_lt (r : list Z) :
  forall x, contiguous (x :: r) -> Forall (fun y => (x < y)%Z) r.
Proof.
  induction r as [|y r IH]; intros x H; [constructor|].
  destruct H as [Hy Hr]. constructor; [lia|].
  eapply Forall_impl; [|apply (IH y Hr)]. simpl. intros; lia.
Qed.

Lemma sorted_head_next (x y : Z) (l : list Z) :
  StronglySorted Z.lt (x :: l) -> In y l -> (y - 1 = x)%Z ->
  exists l', l = y :: l'.
Proof.
  intros Hs Hin Hy. destruct l as [|z l]; [destruct Hin|].
  apply StronglySorted_inv in Hs. destruct Hs as [Hl Hx].
  inversion Hx as [|? ? Hxz _]; subst.
  destruct Hin as [->|Hin]; [now exists l|].
  apply StronglySorted_inv in Hl. destruct Hl as [_ Hz].
  rewrite Forall_forall in Hz. specialize (Hz y Hin). lia.
Qed.

Lemma run_at_head (r : list Z) :
  forall (x : Z) (l : list Z),
    StronglySorted Z.lt (x :: l) -> contiguous (x :: r) ->
    (forall q, In q r -> In q l) ->
    exists B rs, components (x :: l) = ((x :: r) ++ B) :: rs.
Proof.
  induction r as [|y r IH]; intros x l Hs Hc Hin.
  - destruct (components_head x l) as (run & rs & E). now exists run, rs.
  - destruct Hc as [Hy Hc].
    destruct (sorted_head_next x y l Hs (Hin y (or_introl eq_refl)) Hy) as [l' ->].
    assert (Hs' : StronglySorted Z.lt (y :: l')).
    { now apply StronglySorted_inv in Hs. }
    destruct (IH y l' Hs' Hc) as (B & rs & E).
    { intros q Hq. destruct (Hin q (or_intror Hq)) as [<-|H]; [|exact H].
      pose proof (contiguous_lt r y Hc) as Hlt.
      rewrite Forall_forall in Hlt. specialize (Hlt y Hq). lia. }
    destruct (components_step x y l') as (run & rs' & E1 & E2).
    rewrite E in E1. injection E1 as <- <-.
    rewrite E2. apply Z.eqb_eq in Hy. rewrite Hy.
    now exists B, rs.
Qed.

Lemma run_in_component (s : list Z) :
  StronglySorted Z.lt s ->
  forall r : list Z,
    r <> [] -> contiguous r -> (forall q, In q r -> In q s) ->
    exists Cpre A B Cpost, components s = Cpre ++ (A ++ r ++ B) :: Cpost.
Proof.
  induction s as [|x l IH]; intros Hs r Hne Hc Hin.
  - destruct r as [|p r]; [congruence|]. destruct (Hin p (or_introl eq_refl)).
  - destruct r as [|p r]; [congruence|].
    pose proof (contiguous_lt r p Hc) as Hlt. rewrite Forall_forall in Hlt.
    pose proof Hs as Hs0.
    apply StronglySorted_inv in Hs. destruct Hs as [Hl Hx].
    rewrite Forall_forall in Hx.
    destruct (Z.eq_dec p x) as [->|Hpx].
    + destruct (run_at_head r x l Hs0 Hc) as (B & rs & E).
      { intros q Hq. destruct (Hin q (or_intror Hq)) as [<-|H]; [|exact H].
        specialize (Hlt x Hq). lia. }
      exists [], [], B, rs. exact E.
    + assert (Hp : In p l).
      { destruct (Hin p (or_introl eq_refl)); [congruence|assumption]. }
      destruct (IH Hl (p :: r)) as (Cpre & A & B & Cpost & E);
        [discriminate|assumption| |].
      { intros q [<-|Hq]; [assumption|].
        destruct (Hin q (or_intror Hq)) as [<-|H]; [|exact H].
        specialize (Hlt x Hq). specialize (Hx p Hp). lia. }
      destruct l as [|z l]; [destruct Hp|].
      destruct (components_step x z l) as (run & rs & E1 & E2).
      rewrite E2. rewrite E in E1.
      destruct (z - 1 =? x)%Z.
      * destruct Cpre as [|C0 Cpre]; cbn [app] in E1; injection E1 as E1 E3.
        -- exists [], (x :: A), B, Cpost. cbn [app]. now rewrite <- E1, <- E3.
        -- exists ((x :: C0) :: Cpre), A, B, Cpost. cbn [app].
           now rewrite <- E1, <- E3.
      * exists ([x] :: Cpre), A, B, Cpost. cbn [app]. now rewrite <- E1.
Qed.

(** ** The left-hand side after some runs are contracted *)

Lemma in_run_In (q : Z) (r : list Z) : in_run q r = true <-> In q r.
Proof.
  unfold in_run. rewrite existsb_exists. split.
  - intros (x & Hx & E). apply Z.eqb_eq in E. now subst.
  - intros H. exists q. split; [assumption|apply Z.eqb_refl].
Qed.

Lemma in_run_false (q : Z) (r : list Z) : in_run q r = false <-> ~ In q r.
Proof.
  rewrite <- in_run_In. destruct (in_run q r); split; congruence.
Qed.

Lemma find_run_None (q : Z) :
  forall (done : list (list Z)) (c : Z),
    ~ In q (concat done) -> find_run done c q = None.
Proof.
  induction done as [|r done IH]; intros c H; [reflexivity|].
  cbn [find_run]. cbn [concat] in H.
  assert (Hr : in_run q r = false).
  { apply in_run_false. intros Hq. apply H. apply in_or_app. now left. }
  rewrite Hr. apply IH. intros Hq. apply H. apply in_or_app. now right.
Qed.

Lemma find_run_Some (q : Z) :
  forall (done : list (list Z)) (c v : Z) (b : bool),
    find_run done c q = Some (v, b) ->
    (c <= v < c + Z.of_nat (length done))%Z /\ In q (concat done).
Proof.
  induction done as [|r done IH]; intros c v b H; [discriminate|].
  cbn [find_run] in H. cbn [concat length].
  destruct (in_run q r) eqn:Hr.
  - injection H as <- _. split; [lia|].
    apply in_or_app. left. now apply in_run_In.
  - destruct (IH _ _ _ H) as [Hv Hin]. split; [lia|].
    apply in_or_app. now right.
Qed.

Lemma find_run_covered (q : Z) :
  forall (done : list (list Z)) (c : Z),
    In q (concat done) -> exists v b, find_run done c q = Some (v, b).
Proof.
  induction done as [|r done IH]; intros c H; [destruct H|].
  cbn [find_run]. cbn [concat] in H.
  destruct (in_run q r) eqn:Hr; [eauto|].
  apply in_app_or in H. destruct H as [H|H]; [|now apply IH].
  apply in_run_In in H. congruence.
Qed.

Lemma find_run_app (q : Z) (r : list Z) :
  forall (done : list (list Z)) (c : Z),
    find_run (done ++ [r]) c q =
    match find_run done c q with
    | Some x => Some x
    | None =>
        if in_run q r then Some ((c + Z.of_nat (length done))%Z, heads q r)
        else None
    end.
Proof.
  induction done as [|r0 done IH]; intros c.
  - cbn [app find_run length]. rewrite Z.add_0_r. reflexivity.
  - cbn [app find_run length]. destruct (in_run q r0); [reflexivity|].
    rewrite IH. destruct (find_run done (c + 1) q); [reflexivity|].
    destruct (in_run q r); [|reflexivity]. do 2 f_equal. lia.
Qed.

Lemma collapse_app (done : list (list Z)) (a b : list Z) :
  collapse done (a ++ b) = collapse done a ++ collapse done b.
Proof. apply flat_map_app. Qed.

Lemma collapse_untouched (done : list (list Z)) (l : list Z) :
  (forall q, In q l -> ~ In q (concat done)) -> collapse done l = map TY l.
Proof.
  induction l as [|q l IH]; intros H; [reflexivity|].
  change (collapse done (q :: l)) with (tokf done q ++ collapse done l).
  unfold tokf. rewrite find_run_None by (apply H; now left).
  rewrite IH; [reflexivity|]. intros q' Hq'. apply H. now right.
Qed.

Lemma collapse_other_run (done : list (list Z)) (r l : list Z) :
  (forall q, In q l -> ~ In q r) -> collapse (done ++ [r]) l = collapse done l.
Proof.
  induction l as [|q l IH]; intros H; [reflexivity|].
  change (collapse ?d (q :: l)) with (tokf d q ++ collapse d l).
  rewrite IH by (intros q' Hq'; apply H; now right).
  f_equal. unfold tokf. rewrite find_run_app.
  destruct (find_run done 0 q); [reflexivity|].
  assert (Hr : in_run q r = false) by (apply in_run_false, H; now left).
  now rewrite Hr.
Qed.

Lemma collapse_new_run (done : list (list Z)) (p : Z) (run : list Z) :
  (forall q, In q (p :: run) -> ~ In q (concat done)) -> ~ In p run ->
  collapse (done ++ [p :: run]) (p :: run) = [TX (Z.of_nat (length done))].
Proof.
  intros Hd Hp.
  change (collapse ?d (p :: run)) with (tokf d p ++ collapse d run).
  assert (E1 : tokf (done ++ [p :: run]) p = [TX (Z.of_nat (length done))]).
  { unfold tokf. rewrite find_run_app, find_run_None by (apply Hd; now left).
    unfold in_run, heads. cbn [existsb]. now rewrite Z.eqb_refl. }
  rewrite E1.
  assert (E2 : forall l, (forall q, In q l -> In q run) ->
                         collapse (done ++ [p :: run]) l = []).
  { induction l as [|q l IH]; intros Hl; [reflexivity|].
    change (collapse ?d (q :: l)) with (tokf d q ++ collapse d l).
    rewrite IH by (intros q' Hq'; apply Hl; now right).
    rewrite app_nil_r. unfold tokf.
    assert (Hq : In q run) by (apply Hl; now left).
    rewrite find_run_app, find_run_None by (apply Hd; now right).
    assert (Hr : in_run q (p :: run) = true) by (apply in_run_In; now right).
    rewrite Hr. unfold heads.
    destruct (Z.eqb_spec q p) as [->|]; [contradiction|reflexivity]. }
  now rewrite E2.
Qed.

Lemma collapse_tokens (done : list (list Z)) (l : list Z) (t : tok) :
  In t (collapse done l) ->
  match t with
  | TY q => In q l /\ ~ In q (concat done)
  | TX c => (0 <= c < Z.of_nat (length done))%Z
  end.
Proof.
  unfold collapse. rewrite in_flat_map. intros (q & Hq & Ht).
  unfold tokf in Ht. destruct (find_run done 0 q) as [[v b]|] eqn:E.
  - apply find_run_Some in E. destruct E as [Hv _].
    destruct b; [|destruct Ht]. destruct Ht as [<-|[]]. lia.
  - destruct Ht as [<-|[]]. split; [assumption|].
    intros Hin. destruct (find_run_covered q done 0 Hin) as (v & b & E').
    congruence.
Qed.

Lemma collapse_nonneg (done : list (list Z)) (l : list Z) :
  Forall (fun q => (0 <= q)%Z) l -> nonneg (collapse done l).
Proof.
  intros Hl. apply Forall_forall. intros t Ht.
  apply collapse_tokens in Ht. destruct t as [q|c]; simpl.
  - rewrite Forall_forall in Hl. now apply Hl.
  - lia.
Qed.

Lemma collapse_covered (done : list (list Z)) (l : list Z) :
  (forall q, In q l -> In q (concat done)) ->
  exists cs, Forall (fun c => (0 <= c)%Z) cs /\ collapse done l = map TX cs.
Proof.
  induction l as [|q l IH]; intros H; [now exists []|].
  destruct IH as (cs & Hcs & E); [intros q' Hq'; apply H; now right|].
  change (collapse done (q :: l)) with (tokf done q ++ collapse done l).
  rewrite E. unfold tokf.
  destruct (find_run_covered q done 0 (H q (or_introl eq_refl))) as (v & b & Ef).
  rewrite Ef. apply find_run_Some in Ef. destruct b.
  - exists (v :: cs). split; [constructor; [lia|assumption]|reflexivity].
  - now exists cs.
Qed.

Lemma render_vars (cs : list Z) : render (map TX cs) = flat_map var cs.
Proof.
  induction cs as [|c cs IH]; [reflexivity|].
  change (render (map TX (c :: cs))) with (var c ++ render (map TX cs)).
  now rewrite IH.
Qed.

(** ** The contraction loops *)

Lemma NoDup_app_disjoint (A : Type) (a b : list A) (x : A) :
  NoDup (a ++ b) -> In x a -> In x b -> False.
Proof.
  induction a as [|y a IH]; intros H Ha Hb; [destruct Ha|].
  cbn [app] in H. inversion H as [|? ? Hy Hr]; subst.
  destruct Ha as [->|Ha]; [|now apply IH].
  apply Hy. apply in_or_app. now right.
Qed.

Lemma sorted_NoDup (l : list Z) : StronglySorted Z.lt l -> NoDup l.
Proof.
  induction 1 as [|x l _ IH Hx]; constructor; [|assumption].
  intros Hin. rewrite Forall_forall in Hx. specialize (Hx x Hin). lia.
Qed.

Lemma findArgs_of_comps (s : list Z) : findArgs_of s = map tokens (comps s).
Proof.
  destruct s as [|x l]; [reflexivity|].
  now apply findArgs_of_components.
Qed.

Lemma comps_concat (s : list Z) : concat (comps s) = s.
Proof. destruct s; [reflexivity|apply components_concat]. Qed.

Lemma lhs_state_start (s : list Z) : lhs_state s [] = findArgs_of s.
Proof.
  rewrite findArgs_of_comps. unfold lhs_state. apply map_ext.
  intros C. rewrite collapse_untouched by (intros q _ []).
  symmetry. apply tokens_render.
Qed.

Section Contraction.

Variable s : list Z.
Hypothesis s_sorted : StronglySorted Z.lt s.
Hypothesis s_nonneg : Forall (fun q => (0 <= q)%Z) s.

Lemma comps_nonneg (C : list Z) :
  In C (comps s) -> Forall (fun q => (0 <= q)%Z) C.
Proof.
  intros HC. rewrite Forall_forall in *. intros q Hq. apply s_nonneg.
  rewrite <- comps_concat. apply in_concat. eauto.
Qed.

Lemma contract_j_step (done : list (list Z)) (p : Z) (run : list Z) :
  run_of s (p :: run) ->
  (forall q, In q (p :: run) -> ~ In q (concat done)) ->
  contract_j (tokens (p :: run)) (Z.of_nat (length done)) (lhs_state s done)
  = (lhs_state s (done ++ [p :: run]),
     var (Z.of_nat (length done)),
     (Z.of_nat (length done) + 1)%Z).
Proof.
  intros (_ & Hc & Hin) Hfresh.
  destruct (run_in_component s s_sorted (p :: run)) as (Cpre & A & B & Cpost & E);
    [discriminate|assumption|assumption|].
  assert (Ecomps : comps s = components s).
  { destruct s; [destruct (Hin p (or_introl eq_refl))|reflexivity]. }
  assert (Es : s = (concat Cpre ++ A) ++ p :: (run ++ B ++ concat Cpost)).
  { rewrite <- (components_concat s), E, concat_app. cbn [concat].
    rewrite <- !app_assoc. reflexivity. }
  pose proof s_sorted as Hs. rewrite Es in Hs.
  destruct (sorted_middle _ _ _ Hs) as [Hlt Hgt].
  pose proof (contiguous_lt run p Hc) as Hrun. rewrite Forall_forall in Hrun.
  assert (Hge : forall q, In q (p :: run) -> (p <= q)%Z).
  { intros q [<-|Hq]; [lia|]. specialize (Hrun q Hq). lia. }
  assert (Hnd : NoDup s) by now apply sorted_NoDup.
  assert (Hp0 : (0 <= p)%Z).
  { rewrite Forall_forall in s_nonneg. apply s_nonneg, Hin. now left. }
  assert (HnnC : forall C, In C (comps s) -> nonneg (collapse done C)).
  { intros C HC. apply collapse_nonneg. now apply comps_nonneg. }
  rewrite Ecomps, E in HnnC.
  assert (Hrun_nodup : ~ In p run).
  { intros H. specialize (Hrun p H). lia. }
  assert (HB : forall q, In q B -> ~ In q (p :: run)).
  { intros q HqB Hqr. rewrite Es in Hnd.
    apply NoDup_remove_1 in Hnd. rewrite app_assoc in Hnd.
    destruct Hqr as [<-|Hqr].
    - assert (p < p)%Z; [|lia]. apply Hgt.
      apply in_or_app. right. apply in_or_app. now left.
    - apply (NoDup_app_disjoint _ ((concat Cpre ++ A) ++ run) (B ++ concat Cpost) q);
        auto.
      + apply in_or_app. now right.
      + apply in_or_app. now left. }
  assert (HCpost : forall C q, In C Cpost -> In q C -> ~ In q (p :: run)).
  { intros C q HC HqC Hqr. rewrite Es in Hnd.
    apply NoDup_remove_1 in Hnd. rewrite app_assoc in Hnd.
    assert (HqP : In q (concat Cpost)) by (apply in_concat; eauto).
    destruct Hqr as [<-|Hqr].
    - assert (p < p)%Z; [|lia]. apply Hgt.
      apply in_or_app. right. apply in_or_app. now right.
    - apply (NoDup_app_disjoint _ ((concat Cpre ++ A) ++ run) (B ++ concat Cpost) q);
        auto.
      + apply in_or_app. now right.
      + apply in_or_app. now right. }
  assert (HA : forall q, In q A -> ~ In q (p :: run)).
  { intros q HqA Hqr. specialize (Hge q Hqr).
    assert (q < p)%Z; [|lia]. apply Hlt. apply in_or_app. now right. }
  assert (HCpre : forall C q, In C Cpre -> In q C -> ~ In q (p :: run)).
  { intros C q HC HqC Hqr. specialize (Hge q Hqr).
    assert (q < p)%Z; [|lia]. apply Hlt. apply in_or_app. left.
    apply in_concat. eauto. }
  unfold lhs_state. rewrite Ecomps, E.
  rewrite !map_app, !map_cons.
  rewrite !collapse_app.
  rewrite (collapse_untouched done (p :: run)) by assumption.
  rewrite (collapse_new_run done p run) by assumption.
  rewrite (collapse_other_run done (p :: run) A) by assumption.
  rewrite (collapse_other_run done (p :: run) B) by assumption.
  rewrite (map_ext_in (fun C => render (collapse (done ++ [p :: run]) C))
             (fun C => render (collapse done C)) Cpre)
    by (intros C HC; f_equal; apply collapse_other_run; intros q; now apply HCpre).
  rewrite (map_ext_in (fun C => render (collapse (done ++ [p :: run]) C))
             (fun C => render (collapse done C)) Cpost)
    by (intros C HC; f_equal; apply collapse_other_run; intros q; now apply HCpost).
  rewrite <- (map_map (collapse done) render Cpre).
  rewrite <- (map_map (collapse done) render Cpost).
  rewrite <- !map_cons, <- !map_app. cbn [app].
  assert (HnnM : nonneg (collapse done A) /\ nonneg (collapse done B)).
  { assert (H : nonneg (collapse done (A ++ (p :: run) ++ B))).
    { apply HnnC. apply in_or_app. right. now left. }
    rewrite !collapse_app in H. apply Forall_app in H. destruct H as [H1 H].
    apply Forall_app in H. tauto. }
  destruct HnnM as [HnnA HnnB].
  apply contract_j_run.
  - exact Hp0.
  - lia.
  - exact HnnA.
  - apply Forall_app. split; [|exact HnnB].
    apply Forall_forall. intros t Ht. apply in_map_iff in Ht.
    destruct Ht as (q & <- & Hq). simpl. specialize (Hrun q Hq). lia.
  - apply Forall_forall. intros L HL. apply in_map_iff in HL.
    destruct HL as (C & <- & HC). apply HnnC.
    apply in_or_app. right. now right.
  - intros H. apply collapse_tokens in H. destruct H as [H _].
    apply (HA p H). now left.
  - intros H. apply in_app_or in H. destruct H as [H|H].
    + apply in_map_iff in H. destruct H as (q & Eq & Hq).
      injection Eq as ->. contradiction.
    + apply collapse_tokens in H. destruct H as [H _].
      apply (HB p H). now left.
  - intros L c HL Hc'. apply in_map_iff in HL. destruct HL as (C & <- & HC).
    apply collapse_tokens in Hc'. lia.
  - apply Forall_forall. intros L HL. apply in_map_iff in HL.
    destruct HL as (C & <- & HC). apply HnnC.
    apply in_or_app. now left.
  - intros L q HL Hq. apply in_map_iff in HL. destruct HL as (C & <- & HC).
    apply collapse_tokens in Hq. destruct Hq as [Hq _].
    apply Hlt. apply in_or_app. left. apply in_concat. eauto.
Qed.

(** the loop over the arguments of one right-hand-side predicate *)
Lemma contract_i_runs :
  forall (rs done : list (list Z)),
    Forall (run_of s) rs ->
    NoDup (concat done ++ concat rs) ->
    contract_i (map tokens rs) (Z.of_nat (length done)) (lhs_state s done)
    = (lhs_state s (done ++ rs),
       fresh_vars (Z.of_nat (length done)) (length rs),
       Z.of_nat (length (done ++ rs))).
Proof.
  induction rs as [|r rs IH]; intros done Hrs Hnd.
  - cbn [map contract_i]. now rewrite app_nil_r.
  - inversion Hrs as [|? ? Hr Hrs']; subst.
    destruct r as [|p run]; [now destruct Hr|].
    cbn [map contract_i].
    rewrite contract_j_step; auto.
    + replace (Z.of_nat (length done) + 1)%Z
        with (Z.of_nat (length (done ++ [p :: run])))
        by (rewrite length_app; simpl; lia).
      rewrite IH; auto.
      * rewrite <- app_assoc. cbn [app]. f_equal. f_equal.
        unfold fresh_vars. cbn [length seq map].
        rewrite Z.add_0_r. f_equal.
        rewrite <- seq_shift, map_map. apply map_ext.
        intros i. f_equal. rewrite length_app. simpl. lia.
      * rewrite concat_app. cbn [concat]. rewrite app_nil_r.
        rewrite <- app_assoc. exact Hnd.
    + intros q Hq Hd. cbn [concat] in Hnd.
      apply (NoDup_app_disjoint _ _ _ q Hnd Hd).
      apply in_or_app. now left.
Qed.

(** the loop over the right-hand-side predicates *)
Lemma contract_items :
  forall (items : list item) (done : list (list Z)),
    Forall (fun it => Forall (run_of s) (snd it)) items ->
    NoDup (concat done ++ concat (concat (map snd items))) ->
    contract (preds_of items) (Z.of_nat (length done)) (lhs_state s done)
    = (lhs_state s (done ++ concat (map snd items)),
       contracted items (Z.of_nat (length done)),
       Z.of_nat (length (done ++ concat (map snd items)))).
Proof.
  induction items as [|[nm rs] items IH]; intros done Hit Hnd.
  - cbn. now rewrite app_nil_r.
  - inversion Hit as [|? ? Hrs Hit']; subst. simpl in Hrs.
    cbn [preds_of map contract fst snd args name concat] in *.
    rewrite concat_app, app_assoc in Hnd.
    rewrite contract_i_runs; auto.
    + fold (preds_of items). rewrite IH; auto.
      * rewrite <- app_assoc. cbn [contracted]. do 3 f_equal.
        f_equal. rewrite length_app. lia.
      * now rewrite concat_app.
    + apply NoDup_app_remove_r in Hnd. exact Hnd.
Qed.

End Contraction.

(** ** Rule.__init__ on an internal node *)

Lemma map_seq_from (A : Type) :
  forall (n : nat) (g : nat -> A) (a : nat),
    map g (seq a n) = map (fun i => g (a + i)) (seq 0 n).
Proof.
  induction n as [|n IH]; intros g a; [reflexivity|].
  cbn [seq map]. rewrite Nat.add_0_r. f_equal.
  rewrite (IH g (S a)), (IH (fun i => g (a + i)) 1). apply map_ext.
  intros i. f_equal. lia.
Qed.

Lemma fresh_vars_app (k : Z) (a b : nat) :
  fresh_vars k (a + b) = fresh_vars k a ++ fresh_vars (k + Z.of_nat a) b.
Proof.
  unfold fresh_vars. rewrite seq_app, map_app. f_equal.
  cbn [Nat.add]. rewrite map_seq_from. apply map_ext.
  intros i. f_equal. lia.
Qed.

Lemma contracted_args (items : list item) :
  forall k : Z,
    concat (map args (contracted items k))
    = fresh_vars k (length (concat (map snd items))).
Proof.
  induction items as [|[nm rs] items IH]; intros k; [reflexivity|].
  cbn [contracted map concat args snd].
  rewrite length_app, fresh_vars_app, IH. reflexivity.
Qed.

Lemma contracted_names (items : list item) :
  forall k : Z, map name (contracted items k) = map fst items.
Proof.
  induction items as [|[nm rs] items IH]; intros k; [reflexivity|].
  cbn [contracted map name fst]. now rewrite IH.
Qed.

Lemma var_inj (c c' : Z) : (0 <= c)%Z -> (0 <= c')%Z -> var c = var c' -> c = c'.
Proof.
  intros Hc Hc' E. unfold var in E. apply app_inv_head in E.
  now apply str_of_Z_inj.
Qed.

Lemma fresh_vars_NoDup (n : nat) : NoDup (fresh_vars 0 n).
Proof.
  unfold fresh_vars. apply Injective_map_NoDup; [|apply seq_NoDup].
  intros i j E. apply var_inj in E; lia.
Qed.

Lemma var_no_Y (c : Z) : (0 <= c)%Z -> ~ In cY (var c).
Proof.
  intros Hc [E|H]; [discriminate|].
  now apply (numeral_no_head cY c (or_introl eq_refl) Hc).
Qed.

Lemma items_runs (h : heap) (ds : list ref) :
  concat (concat (map snd (items_of h ds)))
  = flat_map (fun d => strID (get h d)) ds.
Proof.
  induction ds as [|d ds IH]; [reflexivity|].
  cbn [items_of map snd concat flat_map]. fold (items_of h ds).
  now rewrite concat_app, components_concat, IH.
Qed.

Lemma items_preds (h : heap) (ds : list ref) :
  Forall (fun d => strID (get h d) <> []) ds ->
  map (fun d => mkPredicate (label (get h d)) (findArgs h d)) ds
  = preds_of (items_of h ds).
Proof.
  intros H. unfold preds_of, items_of. rewrite map_map.
  apply map_ext_in. intros d Hd. cbn [fst snd]. f_equal.
  unfold findArgs. apply findArgs_of_components.
  rewrite Forall_forall in H. now apply H.
Qed.

Lemma contract_j_length :
  forall (largs : list str) (a : str) (count : Z),
    length (fst (fst (contract_j a count largs))) = length largs.
Proof.
  induction largs as [|l rest IH]; intros a count; [reflexivity|].
  cbn [contract_j]. destruct (contains a l).
  - specialize (IH (var count) (count + 1)%Z).
    destruct (contract_j (var count) (count + 1) rest) as [[rest' a'] count'].
    cbn [fst length] in *. now rewrite IH.
  - specialize (IH a count).
    destruct (contract_j a count rest) as [[rest' a'] count'].
    cbn [fst length] in *. now rewrite IH.
Qed.

Lemma contract_i_length :
  forall (pargs : list str) (count : Z) (largs : list str),
    length (fst (fst (contract_i pargs count largs))) = length largs /\
    length (snd (fst (contract_i pargs count largs))) = length pargs.
Proof.
  induction pargs as [|a pargs IH]; intros count largs; [split; reflexivity|].
  cbn [contract_i]. pose proof (contract_j_length largs a count) as Hj.
  destruct (contract_j a count largs) as [[largs1 a'] count1].
  specialize (IH count1 largs1).
  destruct (contract_i pargs count1 largs1) as [[largs2 pargs2] count2].
  cbn [fst snd length] in *. destruct IH as [-> ->]. auto.
Qed.

Lemma contract_length :
  forall (ps : list Predicate) (count : Z) (largs : list str),
    length (fst (fst (contract ps count largs))) = length largs /\
    map (fun p => length (args p)) (snd (fst (contract ps count largs)))
    = map (fun p => length (args p)) ps.
Proof.
  induction ps as [|p ps IH]; intros count largs; [split; reflexivity|].
  cbn [contract]. pose proof (contract_i_length (args p) count largs) as Hi.
  destruct (contract_i (args p) count largs) as [[largs1 pargs1] count1].
  specialize (IH count1 largs1).
  destruct (contract ps count1 largs1) as [[largs2 ps2] count2].
  cbn [fst snd length map args] in *. destruct IH as [-> ->].
  destruct Hi as [-> ->]. auto.
Qed.

Lemma variables_app (a b : list tok) :
  variables (a ++ b) = variables a ++ variables b.
Proof. apply flat_map_app. Qed.

Lemma variables_TX (cs : list Z) : variables (map TX cs) = cs.
Proof.
  induction cs as [|c cs IH]; [reflexivity|].
  cbn [map]. change (variables (TX c :: map TX cs)) with (c :: variables (map TX cs)).
  now rewrite IH.
Qed.

Lemma variables_collapse (done : list (list Z)) (l : list Z) :
  variables (collapse done l)
  = flat_map (fun q => variables (tokf done q)) l.
Proof.
  induction l as [|q l IH]; [reflexivity|].
  change (collapse done (q :: l)) with (tokf done q ++ collapse done l).
  rewrite variables_app, IH. reflexivity.
Qed.

Lemma variables_concat (done : list (list Z)) (Cs : list (list Z)) :
  concat (map (fun C => variables (collapse done C)) Cs)
  = variables (collapse done (concat Cs)).
Proof.
  induction Cs as [|C Cs IH]; [reflexivity|].
  cbn [map concat]. now rewrite collapse_app, variables_app, IH.
Qed.

(** once every run has its variable, the positions of the runs, in the
    order of the runs, give the variables in order, each once *)
Lemma variables_all :
  forall done : list (list Z),
    Forall (fun r => r <> []) done -> NoDup (concat done) ->
    variables (collapse done (concat done))
    = map Z.of_nat (seq 0 (length done)).
Proof.
  induction done as [|r done IH] using rev_ind; intros Hne Hnd; [reflexivity|].
  apply Forall_app in Hne. destruct Hne as [Hne Hr].
  inversion Hr as [|? ? Hr0 _]; subst. destruct r as [|p run]; [congruence|].
  rewrite concat_app in *. cbn [concat] in *. rewrite app_nil_r in *.
  assert (Hdis : forall q, In q (p :: run) -> ~ In q (concat done)).
  { intros q Hq Hq'. apply (NoDup_app_disjoint Z _ _ q Hnd Hq' Hq). }
  assert (Hp : ~ In p run).
  { apply NoDup_app_remove_l in Hnd. now inversion Hnd. }
  rewrite collapse_app, variables_app.
  rewrite collapse_other_run; [|intros q Hq Hq'; now apply (Hdis q)].
  rewrite (collapse_new_run done p run Hdis Hp).
  rewrite (IH Hne (NoDup_app_remove_r _ _ Hnd)).
  rewrite length_app. cbn [length]. rewrite Nat.add_1_r, seq_S, map_app.
  reflexivity.
Qed.

(** C1: for an internal node whose span is sorted, without repeats, and
    is covered exactly by the spans of its daughters, none of them empty,
    [Rule.__init__] returns a rule in which every left-hand-side argument
    is a sequence of variables (no character "Y" is left), every
    right-hand-side argument is one variable, and these variables are
    X_0, X_1, ... in order, pairwise distinct.  No argument is lost or
    added: the left-hand side has the node's label and as many arguments as
    [findArgs] returns for the node, the right-hand side has one predicate
    per daughter with as many arguments as [findArgs] returns for the
    daughter, so that [n] is the number of all arguments of the daughters,
    and the left-hand side holds each of the variables X_0, ..., X_(n-1)
    exactly once. *)
Theorem Rule_init_variables_only (h : heap) (r : ref) (key : str) :
  id (get h r) = hash :: key ->
  StronglySorted Z.lt (strID (get h r)) ->
  Forall (fun q => (0 <= q)%Z) (strID (get h r)) ->
  Forall (fun d => strID (get h d) <> []) (daughters (get h r)) ->
  Permutation (flat_map (fun d => strID (get h d)) (daughters (get h r)))
              (strID (get h r)) ->
  exists rule ps n,
    Rule_init h r = Ok rule /\
    rhs rule = Preds ps /\
    Forall (fun a =>
              (exists cs, Forall (fun c => (0 <= c)%Z) cs /\ a = flat_map var cs)
              /\ ~ In cY a)
           (args (lhs rule)) /\
    map name ps = map (fun d => label (get h d)) (daughters (get h r)) /\
    concat (map args ps) = fresh_vars 0 n /\
    NoDup (concat (map args ps)) /\
    name (lhs rule) = label (get h r) /\
    length (args (lhs rule)) = length (findArgs h r) /\
    map (fun p => length (args p)) ps
    = map (fun d => length (findArgs h d)) (daughters (get h r)) /\
    n = length (flat_map (fun d => findArgs h d) (daughters (get h r))) /\
    exists css,
      args (lhs rule) = map (fun cs => flat_map var cs) css /\
      Permutation (concat css) (map Z.of_nat (seq 0 n)).
Proof.
  intros Hid Hs Hnn Hds Hperm.
  set (s := strID (get h r)) in *.
  set (ds := daughters (get h r)) in *.
  set (items := items_of h ds).
  assert (Hruns : Forall (fun it => Forall (run_of s) (snd it)) items).
  { apply Forall_forall. intros it Hit. apply in_map_iff in Hit.
    destruct Hit as (d & <- & Hd). cbn [snd].
    pose proof (components_runs (strID (get h d))) as Hr.
    rewrite Forall_forall in *. intros run Hrun.
    destruct (Hr run Hrun) as [H1 H2]. repeat split; auto.
    intros q Hq. apply (Permutation_in _ Hperm).
    apply in_flat_map. exists d. split; [assumption|].
    rewrite <- (components_concat (strID (get h d))).
    apply in_concat. eauto. }
  assert (Hnd : NoDup (concat (concat (map snd items)))).
  { unfold items. rewrite items_runs.
    apply (Permutation_NoDup (Permutation_sym Hperm)).
    now apply sorted_NoDup. }
  assert (Hcont :
            contract (preds_of items) 0 (lhs_state s [])
            = (lhs_state s ([] ++ concat (map snd items)),
               contracted items 0,
               Z.of_nat (length ([] ++ concat (map snd items))))).
  { now apply (contract_items s Hs Hnn items [] Hruns). }
  cbn [app] in Hcont.
  assert (Hcov : forall C, In C (comps s) ->
                   exists cs, Forall (fun c => (0 <= c)%Z) cs /\
                              collapse (concat (map snd items)) C = map TX cs).
  { intros C HC. apply collapse_covered.
    intros q Hq. unfold items. rewrite items_runs. fold ds.
    apply (Permutation_in _ (Permutation_sym Hperm)). fold s.
    rewrite <- (comps_concat s). apply in_concat. eauto. }
  pose proof (contract_length (preds_of items) 0 (lhs_state s [])) as [Hlen Hars].
  rewrite Hcont in Hlen, Hars. cbn [fst snd] in Hlen, Hars.
  assert (Hars' : map (fun p => length (args p)) (contracted items 0)
                  = map (fun d => length (findArgs h d)) ds).
  { rewrite Hars. unfold items. rewrite <- (items_preds h ds Hds).
    now rewrite map_map. }
  exists (mkRule (mkPredicate (label (get h r))
                    (lhs_state s (concat (map snd items))))
            (Preds (contracted items 0))
            (Rule_mkform (mkPredicate (label (get h r))
                            (lhs_state s (concat (map snd items))))
                         (Preds (contracted items 0)))),
         (contracted items 0),
         (length (concat (map snd items))).
  split; [|split; [reflexivity|split; [|split; [|split; [|split;
    [|split; [reflexivity|split; [|split; [assumption|split]]]]]]]]].
  - unfold Rule_init. rewrite Hid.
    change (negb (Ascii.eqb hash hash)) with false. cbv iota.
    fold ds. rewrite (items_preds h ds Hds). fold items.
    unfold findArgs. fold s. rewrite <- lhs_state_start, Hcont. reflexivity.
  - cbn [lhs args]. unfold lhs_state. apply Forall_forall.
    intros a Ha. apply in_map_iff in Ha. destruct Ha as (C & <- & HC).
    destruct (Hcov C HC) as (cs & Hcs & E).
    rewrite E, render_vars. split; [now exists cs|].
    intros HY. apply in_flat_map in HY. destruct HY as (c & Hc & HY).
    rewrite Forall_forall in Hcs. now apply (var_no_Y c (Hcs c Hc)).
  - rewrite contracted_names. unfold items, items_of. now rewrite map_map.
  - apply contracted_args.
  - rewrite contracted_args. apply fresh_vars_NoDup.
  - cbn [lhs args]. rewrite Hlen, lhs_state_start. reflexivity.
  - pose proof (contracted_args items 0) as Hc.
    apply (f_equal (@length str)) in Hc.
    unfold fresh_vars in Hc. rewrite length_map, length_seq in Hc.
    rewrite <- Hc, flat_map_concat_map, !length_concat, !map_map.
    now rewrite <- Hars'.
  - exists (map (fun C => variables (collapse (concat (map snd items)) C))
                (comps s)).
    split.
    + cbn [lhs args]. unfold lhs_state. rewrite map_map.
      apply map_ext_in. intros C HC. destruct (Hcov C HC) as (cs & _ & E).
      now rewrite E, variables_TX, render_vars.
    + rewrite variables_concat, comps_concat, variables_collapse.
      rewrite <- (variables_all (concat (map snd items))); [| |assumption].
      * rewrite variables_collapse. apply Permutation_flat_map.
        unfold items. rewrite items_runs. now apply Permutation_sym.
      * apply Forall_forall. intros run Hrun. apply in_concat in Hrun.
        destruct Hrun as (rs & Hrs & Hrun). apply in_map_iff in Hrs.
        destruct Hrs as (it & <- & Hit). rewrite Forall_forall in Hruns.
        specialize (Hruns it Hit). rewrite Forall_forall in Hruns.
        now destruct (Hruns run Hrun).
Qed.

Lemma Rule_init_variables_only_witness :
  exists rule ps n,
    Rule_init heap_two_leaves 2 = Ok rule /\
    rhs rule = Preds ps /\
    Forall (fun a =>
              (exists cs, Forall (fun c => (0 <= c)%Z) cs /\ a = flat_map var cs)
              /\ ~ In cY a)
           (args (lhs rule)) /\
    map name ps = [lit "A"; lit "B"] /\
    concat (map args ps) = fresh_vars 0 n /\
    NoDup (concat (map args ps)) /\
    name (lhs rule) = lit "S" /\
    length (args (lhs rule)) = 1 /\
    map (fun p => length (args p)) ps = [1; 1] /\
    n = 2 /\
    exists css,
      args (lhs rule) = map (fun cs => flat_map var cs) css /\
      Permutation (concat css) (map Z.of_nat (seq 0 n)).
Proof.
  apply (Rule_init_variables_only heap_two_leaves 2 (lit "500")).
  - reflexivity.
  - repeat constructor.
  - repeat constructor; discriminate.
  - repeat constructor; discriminate.
  - apply Permutation_refl.
Defined.

Example Rule_init_two_leaves :
  match Rule_init heap_two_leaves 2 with
  | Ok rule => form rule = lit "S(X_0X_1)->A(X_0)B(X_1)"
  | _ => False
  end.
Proof. vm_compute. reflexivity. Qed.

(** ** The store and the dictionary *)

Lemma get_app_old (h : heap) (n : Node) (i : ref) :
  i < length h -> get (h ++ [n]) i = get h i.
Proof. intros H. unfold get. now apply app_nth1. Qed.

Lemma get_app_new (h : heap) (n : Node) : get (h ++ [n]) (length h) = n.
Proof. unfold get. apply nth_middle. Qed.

Lemma length_upd (f : Node -> Node) :
  forall (h : heap) (r : ref), length (upd h r f) = length h.
Proof.
  induction h as [|n h IH]; intros [|r]; simpl; auto.
Qed.

Lemma get_upd_same (f : Node -> Node) :
  forall (h : heap) (r : ref), r < length h -> get (upd h r f) r = f (get h r).
Proof.
  unfold get. induction h as [|n h IH]; intros [|r] H; simpl in *; try lia; auto.
  apply IH. lia.
Qed.

Lemma get_upd_other (f : Node -> Node) :
  forall (h : heap) (r r' : ref), r <> r' -> get (upd h r f) r' = get h r'.
Proof.
  unfold get. induction h as [|n h IH]; intros [|r] [|r'] H; simpl; auto;
    try congruence.
Qed.

Lemma get_beyond (h : heap) (r : ref) : length h <= r -> get h r = noNode.
Proof. intros H. unfold get. now apply nth_overflow. Qed.

Lemma dict_get_In (d : dict) (k : str) (r : ref) :
  dict_get d k = Some r -> In (k, r) d.
Proof.
  induction d as [|[k' v] d IH]; [discriminate|]. cbn [dict_get].
  destruct (str_eqb_spec k k') as [->|].
  - intros [= ->]. now left.
  - intros H. right. auto.
Qed.

Lemma dict_In_get (d : dict) (k : str) (r : ref) :
  NoDup (map fst d) -> In (k, r) d -> dict_get d k = Some r.
Proof.
  induction d as [|[k' v] d IH]; intros Hnd Hin; [destruct Hin|].
  cbn [map fst] in Hnd. inversion Hnd as [|? ? Hk Hnd']; subst.
  cbn [dict_get]. destruct Hin as [[= -> ->]|Hin].
  - now rewrite str_eqb_refl.
  - destruct (str_eqb_spec k k') as [->|]; [|auto].
    exfalso. apply Hk. change k' with (fst (k', r)). now apply in_map.
Qed.

Lemma dict_get_value (d : dict) (k : str) (r : ref) :
  dict_get d k = Some r -> In r (dict_values d).
Proof.
  intros H. apply dict_get_In in H. change r with (snd (k, r)).
  now apply in_map.
Qed.

Lemma dict_set_new (d : dict) (k : str) (v : ref) :
  ~ In k (map fst d) -> dict_set d k v = d ++ [(k, v)].
Proof.
  induction d as [|[k' v'] d IH]; intros H; [reflexivity|].
  cbn [dict_set]. destruct (str_eqb_spec k k') as [->|].
  - exfalso. apply H. now left.
  - cbn [app]. f_equal. apply IH. intros Hin. apply H. now right.
Qed.

Lemma dict_set_keys (d : dict) (k : str) (v : ref) :
  In k (map fst d) -> map fst (dict_set d k v) = map fst d.
Proof.
  induction d as [|[k' v'] d IH]; intros H; [destruct H|].
  cbn [dict_set]. destruct (str_eqb_spec k k') as [->|]; [reflexivity|].
  cbn [map fst]. f_equal. apply IH. destruct H as [H|H]; [|exact H].
  simpl in H. congruence.
Qed.

Lemma dict_set_NoDup_keys (d : dict) (k : str) (v : ref) :
  NoDup (map fst d) -> NoDup (map fst (dict_set d k v)).
Proof.
  intros H. destruct (in_dec (list_eq_dec ascii_dec) k (map fst d)) as [Hin|Hn].
  - now rewrite dict_set_keys.
  - rewrite dict_set_new, map_app by assumption. cbn [map fst].
    apply NoDup_app_remove_l with (l := []). cbn [app].
    apply (Permutation_NoDup (Permutation_cons_append _ _)).
    now constructor.
Qed.

Lemma dict_set_In (d : dict) (k : str) (v : ref) (k' : str) (r' : ref) :
  In (k', r') (dict_set d k v) -> (k' = k /\ r' = v) \/ In (k', r') d.
Proof.
  induction d as [|[k0 v0] d IH]; cbn [dict_set].
  - intros [[= <- <-]|[]]. now left.
  - destruct (str_eqb_spec k k0) as [->|Hne].
    + intros [[= <- <-]|Hin]; [now left|]. right. now right.
    + intros [E|Hin]; [right; now left|].
      destruct (IH Hin) as [H|H]; [now left|]. right. now right.
Qed.

Lemma dict_set_values (d : dict) (k : str) (v r : ref) :
  In r (dict_values (dict_set d k v)) -> r = v \/ In r (dict_values d).
Proof.
  unfold dict_values. intros H. apply in_map_iff in H.
  destruct H as ([k' r'] & <- & Hin). cbn [snd].
  destruct (dict_set_In d k v k' r' Hin) as [[_ ->]|H]; [now left|].
  right. change r' with (snd (k', r')). now apply in_map.
Qed.

Lemma dict_set_NoDup_values (d : dict) (k : str) (v : ref) :
  NoDup (dict_values d) -> ~ In v (dict_values d) ->
  NoDup (dict_values (dict_set d k v)).
Proof.
  unfold dict_values.
  induction d as [|[k0 v0] d IH]; intros Hnd Hv; cbn [dict_set map snd].
  - repeat constructor. intros [].
  - cbn [map snd] in Hnd, Hv. inversion Hnd as [|? ? Hv0 Hnd']; subst.
    destruct (str_eqb_spec k k0) as [->|Hne]; cbn [map snd].
    + constructor; [|assumption]. intros H. apply Hv. now right.
    + constructor.
      * intros H. apply (dict_set_values d k v v0) in H.
        destruct H as [->|H]; [|contradiction]. apply Hv. now left.
      * apply IH; [assumption|]. intros H. apply Hv. now right.
Qed.

(** ** The first loop of induce *)

Lemma filter_seq_snoc (f : nat -> bool) (n : nat) :
  filter f (seq 0 (S n)) = filter f (seq 0 n) ++ (if f n then [n] else []).
Proof.
  rewrite seq_S, filter_app. cbn [filter Nat.add]. now destruct (f n).
Qed.

Lemma filter_get_app (f : Node -> bool) (h : heap) (n : Node) :
  filter (fun i => f (get (h ++ [n]) i)) (seq 0 (length h))
  = filter (fun i => f (get h i)) (seq 0 (length h)).
Proof.
  apply filter_ext_in. intros i Hi. apply in_seq in Hi.
  rewrite get_app_old; [reflexivity|lia].
Qed.

Lemma leaf_refs_snoc (h : heap) (n : Node) :
  leaf_refs (h ++ [n])
  = leaf_refs h ++ (if is_leaf_node n then [length h] else []).
Proof.
  unfold leaf_refs. rewrite length_app, Nat.add_1_r, filter_seq_snoc.
  now rewrite filter_get_app, get_app_new.
Qed.

Lemma internal_refs_snoc (h : heap) (n : Node) :
  internal_refs (h ++ [n])
  = internal_refs h ++ (if is_internal_node n then [length h] else []).
Proof.
  unfold internal_refs. rewrite length_app, Nat.add_1_r, filter_seq_snoc.
  now rewrite filter_get_app, get_app_new.
Qed.

Lemma internal_refs_bound (h : heap) (i : ref) :
  In i (internal_refs h) -> i < length h /\ is_internal_node (get h i) = true.
Proof.
  unfold internal_refs. rewrite filter_In, in_seq. intros [H1 H2]. split; [lia|auto].
Qed.

Lemma leaf_refs_bound (h : heap) (i : ref) :
  In i (leaf_refs h) <-> i < length h /\ is_leaf_node (get h i) = true.
Proof.
  unfold leaf_refs. rewrite filter_In, in_seq. split; intros [H1 H2]; split; auto; lia.
Qed.

Lemma Node_init_fields (l : list str) (n : Node) :
  Node_init l = Ok n -> strID n = [] /\ daughters n = [].
Proof.
  unfold Node_init.
  destruct (nth_error l 0), (nth_error l 2), (nth_error l 5); try discriminate.
  intros [= <-]. auto.
Qed.

Lemma built_empty : built [] [] [].
Proof.
  unfold built. cbn. repeat split; try constructor; try (intros; lia).
Qed.

Lemma build_step_built
  (h : heap) (nodes : dict) (leaves : list ref) (n : Node) (c : ascii) (key : str) :
  built h nodes leaves ->
  id n = c :: key -> strID n = [] -> daughters n = [] ->
  built (h ++ [n])
        (if Ascii.eqb c hash then dict_set nodes key (length h) else nodes)
        (if Ascii.eqb c hash then leaves else leaves ++ [length h]).
Proof.
  intros (Hl & Hf & Hk & Hn & Hv & Hu) Hid Hs Hd.
  assert (Hold : forall i, i < length h -> get (h ++ [n]) i = get h i)
    by (intros; now apply get_app_old).
  assert (Hleaf : is_leaf_node n = negb (Ascii.eqb c hash))
    by (unfold is_leaf_node; now rewrite Hid).
  assert (Hint : is_internal_node n = Ascii.eqb c hash)
    by (unfold is_internal_node; now rewrite Hid).
  unfold built. rewrite leaf_refs_snoc, internal_refs_snoc, Hleaf, Hint, length_app.
  cbn [length]. split; [|split].
  - destruct (Ascii.eqb c hash); cbn [negb]; [now rewrite app_nil_r|now subst].
  - intros i Hi. destruct (Nat.eq_dec i (length h)) as [->|Hne].
    + rewrite get_app_new. rewrite Hid. repeat split; auto. discriminate.
    + rewrite Hold by lia. apply Hf. lia.
  - destruct (Ascii.eqb_spec c hash) as [->|Hc].
    + split; [now apply dict_set_NoDup_keys|]. split; [|split].
      * intros k r Hin. apply dict_set_In in Hin.
        destruct Hin as [[-> ->]|Hin].
        -- rewrite get_app_new. split; [lia|assumption].
        -- destruct (Hn k r Hin) as [H1 H2]. rewrite Hold by lia.
           split; [lia|assumption].
      * apply dict_set_NoDup_values; [assumption|].
        intros Hin. unfold dict_values in Hin. apply in_map_iff in Hin.
        destruct Hin as ([k r] & E & Hin). cbn [snd] in E. subst r.
        destruct (Hn k _ Hin). lia.
      * rewrite map_app. cbn [map]. rewrite get_app_new.
        intros Hnd.
        assert (Hnd_old : NoDup (map (fun i => id (get h i)) (internal_refs h))).
        { apply NoDup_app_remove_r in Hnd.
          erewrite map_ext_in; [exact Hnd|].
          intros i Hi. apply internal_refs_bound in Hi.
          cbv beta. now rewrite Hold by tauto. }
        specialize (Hu Hnd_old).
        rewrite dict_set_new.
        -- unfold dict_values in *. rewrite map_app. cbn [map snd].
           now rewrite Hu.
        -- intros Hin. apply in_map_iff in Hin.
           destruct Hin as ([k r] & E & Hin). cbn [fst] in E. subst k.
           destruct (Hn key r Hin) as [Hr Hidr].
           apply (NoDup_app_disjoint _ _ _ (id n) Hnd).
           ++ apply in_map_iff. exists r. rewrite Hold by lia.
              split; [congruence|].
              rewrite <- Hu. change r with (snd (key, r)). now apply in_map.
           ++ now left.
    + split; [assumption|]. split; [|split; [assumption|]].
      * intros k r Hin. destruct (Hn k r Hin) as [H1 H2]. rewrite Hold by lia.
        split; [lia|assumption].
      * rewrite app_nil_r. intros Hnd. rewrite Hu; [reflexivity|].
        erewrite map_ext_in; [exact Hnd|].
        intros i Hi. apply internal_refs_bound in Hi.
        cbv beta. now rewrite Hold by tauto.
Qed.

Lemma build_built :
  forall (tree : list str) (h : heap) (nodes : dict) (leaves : list ref)
         (h' : heap) (nodes' : dict) (leaves' : list ref),
    built h nodes leaves ->
    build tree h nodes leaves = Ok (h', nodes', leaves') ->
    built h' nodes' leaves'.
Proof.
  induction tree as [|line tree IH]; intros h nodes leaves h' nodes' leaves' Hb H.
  - cbn [build] in H. now injection H as <- <- <-.
  - cbn [build] in H.
    destruct (Node_init (split_on tab line)) as [n| |] eqn:En; cbn [bind] in H;
      try discriminate.
    destruct (Node_init_fields _ _ En) as [Hs Hd].
    destruct (id n) as [|c key] eqn:Hid; [discriminate|].
    pose proof (build_step_built h nodes leaves n c key Hb Hid Hs Hd) as Hb'.
    destruct (Ascii.eqb c hash); eapply IH; eauto.
Qed.

(** ** The second and third loop of induce *)

Lemma get_upd (f : Node -> Node) (h : heap) (r r' : ref) :
  get (upd h r f) r' = if Nat.eqb r r' && Nat.ltb r (length h)
                       then f (get h r') else get h r'.
Proof.
  destruct (Nat.eqb_spec r r') as [->|Hne]; cbn [andb].
  - destruct (Nat.ltb_spec r' (length h)).
    + now apply get_upd_same.
    + rewrite !get_beyond; auto. now rewrite length_upd.
  - now apply get_upd_other.
Qed.

Lemma same_records_refl (h : heap) : same_records h h.
Proof. split; auto. Qed.

Lemma same_records_trans (h1 h2 h3 : heap) :
  same_records h1 h2 -> same_records h2 h3 -> same_records h1 h3.
Proof.
  intros [L1 F1] [L2 F2]. split; [congruence|].
  intros r. destruct (F1 r) as (? & ? & ?), (F2 r) as (? & ? & ?).
  repeat split; congruence.
Qed.

Lemma same_records_upd (h : heap) (r : ref) (f : Node -> Node) :
  (forall n, id (f n) = id n /\ label (f n) = label n /\ mother (f n) = mother n) ->
  same_records h (upd h r f).
Proof.
  intros Hf. split; [apply length_upd|].
  intros r'. rewrite get_upd.
  destruct (Nat.eqb r r' && Nat.ltb r (length h)); auto.
Qed.

Lemma same_records_strID (h : heap) (r : ref) (v : list Z) :
  same_records h (upd h r (set_strID v)).
Proof. apply same_records_upd. intros n. auto. Qed.

Lemma same_records_daughter (h : heap) (r d : ref) :
  same_records h (upd h r (append_daughter d)).
Proof. apply same_records_upd. intros n. auto. Qed.

Lemma same_records_internal (h h' : heap) (x : ref) :
  same_records h h' -> is_internal_node (get h' x) = is_internal_node (get h x).
Proof.
  intros [_ F]. unfold is_internal_node. destruct (F x) as (-> & _). reflexivity.
Qed.

Lemma same_records_leaf (h h' : heap) (x : ref) :
  same_records h h' -> is_leaf_node (get h' x) = is_leaf_node (get h x).
Proof.
  intros [_ F]. unfold is_leaf_node. destruct (F x) as (-> & _). reflexivity.
Qed.

Lemma same_records_mother_of (h h' : heap) (nodes : dict) (x : ref) :
  same_records h h' -> mother_of h' nodes x = mother_of h nodes x.
Proof.
  intros H. unfold mother_of. rewrite (same_records_internal h h' x H).
  destruct H as [_ F]. destruct (F x) as (_ & _ & ->). reflexivity.
Qed.

Lemma same_records_is_daughter (h h' : heap) (nodes : dict) (r x : ref) :
  same_records h h' -> is_daughter h' nodes r x = is_daughter h nodes r x.
Proof.
  intros H. unfold is_daughter. now rewrite (same_records_mother_of h h' nodes x H).
Qed.

Lemma same_records_leaf_refs (h h' : heap) :
  same_records h h' -> leaf_refs h' = leaf_refs h.
Proof.
  intros H. unfold leaf_refs. destruct H as [L F]. rewrite L.
  apply filter_ext. intros i. apply same_records_leaf. now split.
Qed.

Lemma same_records_internal_refs (h h' : heap) :
  same_records h h' -> internal_refs h' = internal_refs h.
Proof.
  intros H. unfold internal_refs. destruct H as [L F]. rewrite L.
  apply filter_ext. intros i. apply same_records_internal. now split.
Qed.

Lemma link_leaves_spec (nodes : dict) :
  forall (ls : list ref) (s : Z) (h h' : heap),
    (forall k m, dict_get nodes k = Some m -> m < length h) ->
    NoDup ls -> (forall l, In l ls -> l < length h) ->
    link_leaves nodes s ls h = Ok h' ->
    same_records h h' /\
    (forall r, daughters (get h' r)
               = daughters (get h r)
                 ++ filter (fun l => match dict_get nodes (mother (get h l)) with
                                     | Some m => Nat.eqb m r
                                     | None => false
                                     end) ls) /\
    (forall i l, nth_error ls i = Some l ->
                 strID (get h' l) = [(s + Z.of_nat i)%Z]) /\
    (forall r, ~ In r ls -> strID (get h' r) = strID (get h r)).
Proof.
  induction ls as [|leaf ls IH]; intros s h h' Hm Hnd Hb H.
  - cbn [link_leaves] in H. injection H as <-.
    split; [apply same_records_refl|]. split; [|split]; auto.
    + intros r. cbn [filter]. now rewrite app_nil_r.
    + intros [|i] l; discriminate.
  - cbn [link_leaves] in H. rewrite mother_upd_strID in H.
    destruct (dict_get nodes (mother (get h leaf))) as [m|] eqn:Em; [|discriminate].
    set (h1 := upd h leaf (set_strID [s])) in *.
    set (h2 := upd h1 m (append_daughter leaf)) in *.
    assert (S12 : same_records h h2).
    { eapply same_records_trans; [apply same_records_strID|].
      apply same_records_daughter. }
    assert (L2 : length h2 = length h) by apply S12.
    inversion Hnd as [|? ? Hleaf Hnd']; subst.
    destruct (IH (s + 1)%Z h2 h') as (S & D & I1 & I2); auto.
    { intros k m' Hk. rewrite L2. eauto. }
    { intros l Hl. rewrite L2. apply Hb. now right. }
    assert (Hm_lt : m < length h) by eauto.
    assert (Hleaf_lt : leaf < length h) by (apply Hb; now left).
    split; [eapply same_records_trans; eauto|]. split; [|split].
    + intros r. rewrite D. cbn [filter]. rewrite Em.
      unfold h2 at 1. rewrite get_upd.
      assert (L1 : length h1 = length h) by apply length_upd. rewrite L1.
      assert (E : Nat.ltb m (length h) = true) by now apply Nat.ltb_lt.
      rewrite E, andb_true_r.
      assert (Ef : forall l, mother (get h2 l) = mother (get h l)).
      { intros l. apply S12. }
      rewrite (filter_ext _ (fun l => match dict_get nodes (mother (get h l)) with
                                      | Some m0 => Nat.eqb m0 r
                                      | None => false
                                      end)) by (intros l; now rewrite Ef).
      destruct (Nat.eqb_spec m r) as [->|Hne].
      * cbn [append_daughter daughters]. unfold h1. rewrite get_upd.
        destruct (Nat.eqb leaf r && Nat.ltb leaf (length h));
          cbn [set_strID daughters]; now rewrite <- app_assoc.
      * unfold h1. rewrite get_upd.
        destruct (Nat.eqb leaf r && Nat.ltb leaf (length h)); reflexivity.
    + intros [|i] l Hl.
      * cbn [nth_error] in Hl. injection Hl as <-.
        rewrite (I2 leaf Hleaf). unfold h2. rewrite get_upd.
        assert (E : strID (get h1 leaf) = [s]).
        { unfold h1. rewrite get_upd_same by assumption. reflexivity. }
        rewrite Z.add_0_r.
        destruct (Nat.eqb m leaf && Nat.ltb m (length h1)); exact E.
      * cbn [nth_error] in Hl. rewrite (I1 i l Hl). f_equal. lia.
    + intros r Hr. rewrite I2 by (intros Hin; apply Hr; now right).
      unfold h2. rewrite get_upd.
      assert (E : strID (get h1 r) = strID (get h r)).
      { unfold h1. rewrite get_upd_other; [reflexivity|].
        intros ->. apply Hr. now left. }
      destruct (Nat.eqb m r && Nat.ltb m (length h1)); exact E.
Qed.

Lemma link_nodes_spec (nodes : dict) :
  forall (vs : list ref) (h h' : heap),
    (forall k m, dict_get nodes k = Some m -> m < length h) ->
    link_nodes nodes vs h = Ok h' ->
    same_records h h' /\
    (forall r, daughters (get h' r)
               = daughters (get h r)
                 ++ filter (fun v => negb (str_eqb (mother (get h v)) (lit "0"))
                                     && match dict_get nodes (mother (get h v)) with
                                        | Some m => Nat.eqb m r
                                        | None => false
                                        end) vs) /\
    (forall r, strID (get h' r) = strID (get h r)).
Proof.
  induction vs as [|v vs IH]; intros h h' Hm H.
  - cbn [link_nodes] in H. injection H as <-.
    split; [apply same_records_refl|]. split; auto.
    intros r. cbn [filter]. now rewrite app_nil_r.
  - cbn [link_nodes] in H.
    destruct (str_eqb (mother (get h v)) (lit "0")) eqn:E0; cbn [negb] in H.
    + destruct (IH h h' Hm H) as (S & D & I). split; [assumption|].
      split; [|assumption]. intros r. rewrite D. cbn [filter].
      rewrite E0. reflexivity.
    + destruct (dict_get nodes (mother (get h v))) as [m|] eqn:Em; [|discriminate].
      set (h2 := upd h m (append_daughter v)) in *.
      assert (S12 : same_records h h2) by apply same_records_daughter.
      assert (L2 : length h2 = length h) by apply S12.
      destruct (IH h2 h') as (S & D & I); auto.
      { intros k m' Hk. rewrite L2. eauto. }
      assert (Hm_lt : m < length h) by eauto.
      split; [eapply same_records_trans; eauto|]. split.
      * intros r. rewrite D. cbn [filter]. rewrite E0, Em. cbn [negb andb].
        unfold h2 at 1. rewrite get_upd.
        assert (E : Nat.ltb m (length h) = true) by now apply Nat.ltb_lt.
        rewrite E, andb_true_r.
        assert (Ef : forall l, mother (get h2 l) = mother (get h l)).
        { intros l. apply S12. }
        rewrite (filter_ext _ (fun v0 =>
                   negb (str_eqb (mother (get h v0)) (lit "0"))
                   && match dict_get nodes (mother (get h v0)) with
                      | Some m0 => Nat.eqb m0 r
                      | None => false
                      end)) by (intros l; now rewrite Ef).
        destruct (Nat.eqb_spec m r) as [->|Hne];
          cbn [append_daughter daughters]; [now rewrite <- app_assoc|reflexivity].
      * intros r. rewrite I. unfold h2. rewrite get_upd.
        destruct (Nat.eqb m r && Nat.ltb m (length h)); reflexivity.
Qed.

Lemma leaf_not_internal (n : Node) :
  is_leaf_node n = true -> is_internal_node n = false.
Proof.
  unfold is_leaf_node, is_internal_node. destruct (id n) as [|c key]; [auto|].
  now destruct (Ascii.eqb c hash).
Qed.

Lemma leaf_refs_NoDup (h : heap) : NoDup (leaf_refs h).
Proof. unfold leaf_refs. apply NoDup_filter, seq_NoDup. Qed.

Lemma linked_inv (tree : list str) (h : heap) (nodes : dict) (leaves : list ref) :
  linked tree = Ok (h, nodes, leaves) ->
  linked_tree h nodes leaves /\
  exists h0, build tree [] [] [] = Ok (h0, nodes, leaves) /\ same_records h0 h.
Proof.
  unfold linked. intros H.
  destruct (build tree [] [] []) as [[[h0 nodes0] leaves0]| |] eqn:Eb;
    cbn [bind] in H; try discriminate.
  destruct (link_leaves nodes0 0 leaves0 h0) as [h1| |] eqn:E1;
    cbn [bind] in H; try discriminate.
  destruct (link_nodes nodes0 (dict_values nodes0) h1) as [h2| |] eqn:E2;
    cbn [bind] in H; try discriminate.
  injection H as <- <- <-.
  destruct (build_built _ _ _ _ _ _ _ built_empty Eb) as (Hl & Hf & Hk & Hn & Hv & Hu).
  assert (Hget : forall k m, dict_get nodes0 k = Some m -> m < length h0).
  { intros k m Hkm. apply dict_get_In in Hkm. now apply (Hn k m). }
  destruct (link_leaves_spec nodes0 leaves0 0 h0 h1) as (S1 & D1 & I1 & J1); auto.
  { rewrite Hl. apply leaf_refs_NoDup. }
  { intros l Hin. rewrite Hl in Hin. now apply leaf_refs_bound in Hin. }
  assert (L1 : length h1 = length h0) by apply S1.
  destruct (link_nodes_spec nodes0 (dict_values nodes0) h1 h2) as (S2 & D2 & I2); auto.
  { intros k m Hkm. rewrite L1. eauto. }
  assert (S02 : same_records h0 h2) by (eapply same_records_trans; eauto).
  assert (L2 : length h2 = length h0) by apply S02.
  assert (Hfields : forall r, strID (get h0 r) = [] /\ daughters (get h0 r) = []).
  { intros r. destruct (Nat.lt_ge_cases r (length h0)) as [Hr|Hr].
    - now apply Hf.
    - now rewrite get_beyond. }
  split; [|exists h0; split; [reflexivity|assumption]].
  unfold linked_tree. repeat split.
  - rewrite (same_records_leaf_refs h0 h2 S02). exact Hl.
  - exact Hk.
  - rewrite L2. now apply (Hn k r).
  - destruct S02 as [_ F]. destruct (F r) as (-> & _). now apply (Hn k r).
  - exact Hv.
  - intros Hnd. rewrite (same_records_internal_refs h0 h2 S02). apply Hu.
    rewrite (same_records_internal_refs h0 h2 S02) in Hnd.
    erewrite map_ext; [exact Hnd|]. intros i. cbv beta.
    destruct S02 as [_ F]. now destruct (F i) as (-> & _).
  - intros r. rewrite D2, D1. destruct (Hfields r) as [_ ->]. cbn [app].
    f_equal.
    + apply filter_ext_in. intros l Hin. unfold is_daughter, mother_of.
      rewrite Hl in Hin. apply leaf_refs_bound in Hin. destruct Hin as [_ Hleaf].
      rewrite (same_records_internal h0 h2 l S02), (leaf_not_internal _ Hleaf).
      cbn [andb]. destruct S02 as [_ F]. now destruct (F l) as (_ & _ & ->).
    + apply filter_ext_in. intros v Hin. unfold is_daughter, mother_of.
      unfold dict_values in Hin. apply in_map_iff in Hin.
      destruct Hin as ([k v'] & E & Hin). cbn [snd] in E. subst v'.
      destruct (Hn k v Hin) as [_ Hid].
      assert (Hint : is_internal_node (get h2 v) = true).
      { rewrite (same_records_internal h0 h2 v S02).
        unfold is_internal_node. rewrite Hid. apply Ascii.eqb_refl. }
      rewrite Hint. cbn [andb].
      assert (Em : mother (get h2 v) = mother (get h1 v)).
      { destruct S2 as [_ F]. now destruct (F v) as (_ & _ & ->). }
      rewrite Em. destruct (str_eqb (mother (get h1 v)) (lit "0")); reflexivity.
  - intros i l Hil. rewrite I2. rewrite (I1 i l Hil). reflexivity.
  - intros r Hr. rewrite I2, J1 by assumption. apply Hfields.
Qed.

(** ** Sorting *)

Lemma insert_sorted_perm (x : Z) (l : list Z) :
  Permutation (insert_sorted x l) (x :: l).
Proof.
  induction l as [|y l IH]; [reflexivity|]. cbn [insert_sorted].
  destruct (x <=? y)%Z; [reflexivity|].
  rewrite IH. apply perm_swap.
Qed.

Lemma sort_perm (l : list Z) : Permutation (sort l) l.
Proof.
  induction l as [|x l IH]; [reflexivity|]. cbn [sort].
  rewrite insert_sorted_perm. now constructor.
Qed.

Lemma insert_sorted_sorted (x : Z) (l : list Z) :
  StronglySorted Z.le l -> StronglySorted Z.le (insert_sorted x l).
Proof.
  induction 1 as [|y l Hl IH Hy]; cbn [insert_sorted].
  - repeat constructor.
  - destruct (Z.leb_spec x y).
    + constructor; [now constructor|]. constructor; [assumption|].
      eapply Forall_impl; [|exact Hy]. simpl. intros; lia.
    + constructor; [assumption|].
      apply (Permutation_Forall (Permutation_sym (insert_sorted_perm x l))).
      constructor; [lia|assumption].
Qed.

Lemma sort_sorted (l : list Z) : StronglySorted Z.le (sort l).
Proof.
  induction l as [|x l IH]; [constructor|]. now apply insert_sorted_sorted.
Qed.

Lemma sorted_le_NoDup (l : list Z) :
  StronglySorted Z.le l -> NoDup l -> StronglySorted Z.lt l.
Proof.
  induction 1 as [|x l Hl IH Hx]; intros Hnd; [constructor|].
  inversion Hnd as [|? ? Hin Hnd']; subst.
  constructor; [auto|]. rewrite Forall_forall in *. intros y Hy.
  specialize (Hx y Hy).
  destruct (Z.eq_dec x y) as [->|]; [contradiction|lia].
Qed.

Lemma NoDup_flat_map (A B : Type) (f : A -> list B) (l : list A) :
  NoDup l -> (forall x, In x l -> NoDup (f x)) ->
  (forall x y z, In x l -> In y l -> In z (f x) -> In z (f y) -> x = y) ->
  NoDup (flat_map f l).
Proof.
  induction 1 as [|a l Ha Hnd IH]; intros Hf Hdis; [constructor|].
  cbn [flat_map]. apply NoDup_app.
  - apply Hf. now left.
  - apply IH.
    + intros x Hx. apply Hf. now right.
    + intros x y z Hx Hy. apply Hdis; now right.
  - intros z Hz Hz'. apply in_flat_map in Hz'. destruct Hz' as (y & Hy & Hzy).
    apply Ha. rewrite (Hdis a y z); auto; [now left|now right].
Qed.

(** ** Mother links *)

Section Tree.

Variable h : heap.
Variable nodes : dict.
Variable leaves : list ref.
Hypothesis LT : linked_tree h nodes leaves.

Lemma mother_is_node (x m : ref) :
  mother_of h nodes x = Some m -> In m (dict_values nodes).
Proof.
  unfold mother_of. destruct (_ && _); [discriminate|]. apply dict_get_value.
Qed.

Lemma node_is_internal (v : ref) :
  In v (dict_values nodes) -> is_internal_node (get h v) = true.
Proof.
  destruct LT as (_ & _ & Hn & _). unfold dict_values. intros Hin.
  apply in_map_iff in Hin. destruct Hin as ([k v'] & E & Hin). cbn [snd] in E.
  subst v'. destruct (Hn k v Hin) as [_ Hid].
  unfold is_internal_node. rewrite Hid. apply Ascii.eqb_refl.
Qed.

Lemma leaf_is_leaf (l : ref) : In l leaves -> is_leaf_node (get h l) = true.
Proof.
  destruct LT as (Hl & _). rewrite Hl. intros H. now apply leaf_refs_bound in H.
Qed.

Lemma leaf_not_node (l : ref) : In l leaves -> ~ In l (dict_values nodes).
Proof.
  intros Hl Hv. apply leaf_is_leaf, leaf_not_internal in Hl.
  apply node_is_internal in Hv. congruence.
Qed.

Lemma leaves_NoDup : NoDup leaves.
Proof. destruct LT as (-> & _). apply leaf_refs_NoDup. Qed.

Lemma daughter_iff (r x : ref) :
  In x (daughters (get h r)) <->
  (In x leaves \/ In x (dict_values nodes)) /\ mother_of h nodes x = Some r.
Proof.
  destruct LT as (_ & _ & _ & _ & _ & Hd & _). rewrite Hd, in_app_iff, !filter_In.
  unfold is_daughter. split.
  - intros [[H1 H2]|[H1 H2]];
      (destruct (mother_of h nodes x) as [m|]; [|discriminate]);
      apply Nat.eqb_eq in H2; subst m; auto.
  - intros [[H|H] E]; rewrite E, Nat.eqb_refl; auto.
Qed.

Lemma daughters_NoDup (r : ref) : NoDup (daughters (get h r)).
Proof.
  destruct LT as (_ & _ & _ & Hv & _ & Hd & _). rewrite Hd.
  apply NoDup_app.
  - apply NoDup_filter, leaves_NoDup.
  - now apply NoDup_filter.
  - intros x H1 H2. apply filter_In in H1, H2.
    now apply (leaf_not_node x).
Qed.

Lemma rooted_fun (x : ref) (n n' : nat) :
  rooted h nodes x n -> rooted h nodes x n' -> n = n'.
Proof.
  intros H. revert n'. induction H as [x Hx|x m n Hx Hm IH]; intros n' H';
    inversion H'; subst; try congruence.
  f_equal. apply IH. congruence.
Qed.

Lemma up_rooted (x r : ref) (a n : nat) :
  up h nodes x a r -> rooted h nodes r n -> rooted h nodes x (a + n).
Proof.
  induction 1 as [x|x m a r Hx Hm IH]; intros Hr; [exact Hr|].
  cbn [Nat.add]. econstructor; eauto.
Qed.

(** a node whose mother links lead to a root is on no cycle *)
Lemma rooted_no_cycle (v : ref) (n : nat) :
  rooted h nodes v n -> ~ dominates h nodes v v.
Proof.
  intros Hr [k Hk]. pose proof (up_rooted _ _ _ _ Hk Hr) as Hr'.
  pose proof (rooted_fun _ _ _ Hr Hr'). lia.
Qed.

Lemma up_fun (x : ref) (n : nat) (a b : ref) :
  up h nodes x n a -> up h nodes x n b -> a = b.
Proof.
  intros H. revert b. induction H as [x|x m n r Hx Hm IH]; intros b H';
    inversion H'; subst; [reflexivity|]. apply IH. congruence.
Qed.

Lemma up_snoc (x d r : ref) (n : nat) :
  up h nodes x n d -> mother_of h nodes d = Some r -> up h nodes x (S n) r.
Proof.
  induction 1 as [x|x m n d Hx Hm IH]; intros Hd.
  - econstructor; [eassumption|constructor].
  - econstructor; eauto.
Qed.

Lemma up_last (x r : ref) (n : nat) :
  up h nodes x (S n) r ->
  exists d, up h nodes x n d /\ mother_of h nodes d = Some r.
Proof.
  revert x. induction n as [|n IH]; intros x H.
  - inversion H as [|? m ? ? Hx Hm]; subst. inversion Hm; subst.
    exists x. split; [constructor|assumption].
  - inversion H as [|? m ? ? Hx Hm]; subst.
    destruct (IH m Hm) as (d & Hd & Hr).
    exists d. split; [econstructor; eauto|assumption].
Qed.

Lemma up_target (x r : ref) (n : nat) :
  up h nodes x (S n) r -> In r (dict_values nodes).
Proof.
  intros H. apply up_last in H. destruct H as (d & _ & Hd).
  now apply (mother_is_node d).
Qed.

Lemma span_rel_leaf (k : nat) (l : ref) (z : Z) :
  nth_error leaves k = Some l ->
  span_rel h nodes leaves l z <-> z = Z.of_nat k.
Proof.
  intros Hk. split.
  - intros (k' & l' & n & -> & Hk' & Hup). destruct n as [|n].
    + inversion Hup; subst. f_equal.
      apply (proj1 (NoDup_nth_error leaves) leaves_NoDup);
        [apply nth_error_Some; congruence|congruence].
    + exfalso. apply (leaf_not_node l).
      * eapply nth_error_In; eauto.
      * eapply up_target; eauto.
  - intros ->. exists k, l, 0. repeat split; auto. constructor.
Qed.

Lemma span_rel_node (v : ref) (z : Z) :
  In v (dict_values nodes) ->
  span_rel h nodes leaves v z <->
  exists k l, z = Z.of_nat k /\ nth_error leaves k = Some l /\
              dominates h nodes v l.
Proof.
  intros Hv. split.
  - intros (k & l & n & -> & Hk & Hup). exists k, l. repeat split; auto.
    destruct n as [|n]; [|now exists n].
    inversion Hup; subst. exfalso. apply (leaf_not_node v); auto.
    eapply nth_error_In; eauto.
  - intros (k & l & -> & Hk & n & Hup). now exists k, l, (S n).
Qed.

Lemma span_rel_daughters (v : ref) (z : Z) :
  In v (dict_values nodes) ->
  span_rel h nodes leaves v z <->
  exists d, In d (daughters (get h v)) /\ span_rel h nodes leaves d z.
Proof.
  intros Hv. split.
  - intros (k & l & n & -> & Hk & Hup). destruct n as [|n].
    + inversion Hup; subst. exfalso. apply (leaf_not_node v); auto.
      eapply nth_error_In; eauto.
    + destruct (up_last _ _ _ Hup) as (d & Hd & Hm).
      exists d. split; [|now exists k, l, n].
      apply daughter_iff. split; [|assumption].
      destruct n as [|n].
      * inversion Hd; subst. left. eapply nth_error_In; eauto.
      * right. eapply up_target; eauto.
  - intros (d & Hd & k & l & n & -> & Hk & Hup).
    apply daughter_iff in Hd. destruct Hd as [_ Hm].
    exists k, l, (S n). repeat split; auto. eapply up_snoc; eauto.
Qed.

Lemma span_rel_disjoint (v d1 d2 : ref) (z : Z) (n : nat) :
  rooted h nodes v n ->
  In d1 (daughters (get h v)) -> In d2 (daughters (get h v)) ->
  span_rel h nodes leaves d1 z -> span_rel h nodes leaves d2 z -> d1 = d2.
Proof.
  intros Hr H1 H2 (k & l & a & -> & Hk & Ha) (k' & l' & b & E & Hk' & Hb).
  apply Nat2Z.inj in E. subst k'. assert (l' = l) by congruence. subst l'.
  apply daughter_iff in H1, H2. destruct H1 as [_ M1], H2 as [_ M2].
  pose proof (up_rooted _ _ _ _ (up_snoc _ _ _ _ Ha M1) Hr) as R1.
  pose proof (up_rooted _ _ _ _ (up_snoc _ _ _ _ Hb M2) Hr) as R2.
  pose proof (rooted_fun _ _ _ R1 R2) as E.
  assert (a = b) by lia. subst b. eapply up_fun; eauto.
Qed.

End Tree.

(** ** The span propagation *)

Lemma getStrID_eq (h : heap) (r : ref) :
  getStrID h r = upd h r (set_strID (new_strID h r)).
Proof.
  unfold getStrID, new_strID. destruct (daughters (get h r)) as [|d [|d' ds]];
    reflexivity.
Qed.

Lemma remove_first_perm (r : ref) (l : list ref) :
  In r l -> Permutation l (r :: remove_first r l).
Proof.
  induction l as [|y l IH]; intros H; [destruct H|]. cbn [remove_first].
  destruct (Nat.eqb_spec r y) as [->|Hne]; [reflexivity|].
  destruct H as [->|H]; [congruence|].
  rewrite (IH H) at 1. apply perm_swap.
Qed.

Lemma remove_first_length (r : ref) (l : list ref) :
  In r l -> S (length (remove_first r l)) = length l.
Proof.
  intros H. apply remove_first_perm in H. apply Permutation_length in H.
  now rewrite H.
Qed.

Section Propagation.

Variable h : heap.
Variable nodes : dict.
Variable leaves : list ref.
Hypothesis LT : linked_tree h nodes leaves.
Hypothesis AC : acyclic h nodes.
Hypothesis FE : fertile h nodes leaves.

Lemma node_bound (v : ref) : In v (dict_values nodes) -> v < length h.
Proof.
  destruct LT as (_ & _ & Hn & _). unfold dict_values. intros Hin.
  apply in_map_iff in Hin. destruct Hin as ([k v'] & E & Hin). cbn [snd] in E.
  subst v'. now destruct (Hn k v Hin).
Qed.

Lemma good_leaf (st : pstate) (k : nat) (l : ref) :
  pinv h nodes leaves st -> nth_error leaves k = Some l ->
  good h nodes leaves (p_heap st) l.
Proof.
  intros (_ & _ & Hl & _) Hk. unfold good. rewrite (Hl k l Hk).
  split; [repeat constructor|].
  intros z. rewrite (span_rel_leaf h nodes leaves LT k l z Hk).
  split; [intros [H|[]]; auto|intros ->; now left].
Qed.

Lemma daughters_spans (st : pstate) (r : ref) :
  pinv h nodes leaves st -> In r (dict_values nodes) ->
  (forall d, In d (daughters (get h r)) -> good h nodes leaves (p_heap st) d) ->
  NoDup (flat_map (fun d => strID (get (p_heap st) d)) (daughters (get h r))) /\
  forall z, In z (flat_map (fun d => strID (get (p_heap st) d))
                           (daughters (get h r)))
            <-> span_rel h nodes leaves r z.
Proof.
  intros Hinv Hr Hgood. split.
  - destruct (AC r Hr) as [n Hn].
    apply NoDup_flat_map.
    + now apply (daughters_NoDup h nodes leaves LT).
    + intros d Hd. apply sorted_NoDup. now apply Hgood.
    + intros d1 d2 z H1 H2 Hz1 Hz2.
      apply (span_rel_disjoint h nodes leaves LT r d1 d2 z n); auto.
      * now apply (Hgood d1).
      * now apply (Hgood d2).
  - intros z. rewrite in_flat_map, (span_rel_daughters h nodes leaves LT r z Hr).
    split; intros (d & Hd & Hz); exists d; (split; [assumption|]);
      now apply (Hgood d).
Qed.

Lemma new_strID_good (st : pstate) (r : ref) :
  pinv h nodes leaves st -> In r (dict_values nodes) ->
  (forall d, In d (daughters (get h r)) -> good h nodes leaves (p_heap st) d) ->
  StronglySorted Z.lt (new_strID (p_heap st) r) /\
  (forall z, In z (new_strID (p_heap st) r) <-> span_rel h nodes leaves r z) /\
  new_strID (p_heap st) r <> [].
Proof.
  intros Hinv Hr Hgood.
  destruct (daughters_spans st r Hinv Hr Hgood) as [Hnd Hmem].
  assert (Hd : daughters (get (p_heap st) r) = daughters (get h r))
    by apply Hinv.
  assert (H12 : StronglySorted Z.lt (new_strID (p_heap st) r) /\
                (forall z, In z (new_strID (p_heap st) r)
                           <-> span_rel h nodes leaves r z)).
  { unfold new_strID. rewrite Hd.
    destruct (daughters (get h r)) as [|d [|d' ds]] eqn:Eds.
    - split; [constructor|]. intros z. rewrite <- Hmem. reflexivity.
    - cbn [flat_map] in Hnd, Hmem. rewrite app_nil_r in Hnd, Hmem.
      split; [|exact Hmem]. apply Hgood. now left.
    - split.
      + apply sorted_le_NoDup; [apply sort_sorted|].
        apply (Permutation_NoDup (Permutation_sym (sort_perm _))). exact Hnd.
      + intros z. rewrite <- Hmem. split; apply Permutation_in;
          [apply sort_perm|apply Permutation_sym, sort_perm]. }
  destruct H12 as [H1 H2]. split; [assumption|]. split; [assumption|].
  destruct (FE r Hr) as (l & Hl & Hdom).
  apply In_nth_error in Hl. destruct Hl as [k Hk].
  assert (Hz : In (Z.of_nat k) (new_strID (p_heap st) r)).
  { apply H2. apply span_rel_node; auto. now exists k, l. }
  intros E. rewrite E in Hz. destruct Hz.
Qed.

Lemma pinv_step (st : pstate) (r : ref) :
  pinv h nodes leaves st -> In r (p_nodesval st) ->
  allDaughtersHaveStrID (p_heap st) r = true ->
  pinv h nodes leaves
       (mkPstate (getStrID (p_heap st) r)
                 (remove_first r (p_nodesval st))
                 (p_nodes2 st ++ [r])).
Proof.
  intros Hinv Hr Hall.
  pose proof Hinv as (HS & HD & HL & HP & H2 & HV).
  assert (Hrn : In r (dict_values nodes)).
  { apply (Permutation_in _ HP). apply in_or_app. now left. }
  assert (Hnd : NoDup (p_nodesval st ++ p_nodes2 st)).
  { apply (Permutation_NoDup (Permutation_sym HP)). apply LT. }
  assert (Hlen : r < length (p_heap st)).
  { destruct HS as [-> _]. now apply node_bound. }
  assert (Hgood : forall d, In d (daughters (get h r)) ->
                            good h nodes leaves (p_heap st) d).
  { intros d Hd.
    assert (Hne : strID (get (p_heap st) d) <> []).
    { unfold allDaughtersHaveStrID in Hall. rewrite HD, forallb_forall in Hall.
      specialize (Hall d Hd). destruct (strID (get (p_heap st) d)); [discriminate|].
      discriminate. }
    apply (daughter_iff h nodes leaves LT) in Hd. destruct Hd as [[Hd|Hd] _].
    - apply In_nth_error in Hd. destruct Hd as [k Hk].
      now apply (good_leaf st k).
    - apply (Permutation_in _ (Permutation_sym HP)) in Hd.
      apply in_app_or in Hd. destruct Hd as [Hd|Hd].
      + now rewrite (HV d Hd) in Hne.
      + now apply H2. }
  destruct (new_strID_good st r Hinv Hrn Hgood) as (G1 & G2 & G3).
  rewrite getStrID_eq.
  set (L := new_strID (p_heap st) r) in *.
  assert (Hget : forall x, get (upd (p_heap st) r (set_strID L)) x
                           = if Nat.eqb r x then set_strID L (get (p_heap st) x)
                             else get (p_heap st) x).
  { intros x. rewrite get_upd.
    assert (E : Nat.ltb r (length (p_heap st)) = true) by now apply Nat.ltb_lt.
    now rewrite E, andb_true_r. }
  assert (Hother : forall x, x <> r ->
                             strID (get (upd (p_heap st) r (set_strID L)) x)
                             = strID (get (p_heap st) x)).
  { intros x Hx. rewrite Hget. destruct (Nat.eqb_spec r x); congruence. }
  assert (Hself : strID (get (upd (p_heap st) r (set_strID L)) r) = L).
  { rewrite Hget, Nat.eqb_refl. reflexivity. }
  unfold pinv. cbn [p_heap p_nodesval p_nodes2]. split; [|split; [|split; [|split; [|split]]]].
  - eapply same_records_trans; [exact HS|apply same_records_strID].
  - intros x. rewrite Hget. destruct (Nat.eqb r x); [|apply HD].
    cbn [set_strID daughters]. apply HD.
  - intros k l Hk. rewrite Hother; [now apply HL|].
    intros ->. apply (leaf_not_node h nodes leaves LT r); auto.
    eapply nth_error_In; eauto.
  - rewrite <- HP. rewrite (remove_first_perm r (p_nodesval st) Hr) at 2.
    rewrite app_assoc. rewrite <- Permutation_cons_append. cbn [app].
    reflexivity.
  - intros v Hv. apply in_app_or in Hv. destruct Hv as [Hv|[<-|[]]].
    + assert (v <> r).
      { intros ->. apply (NoDup_app_disjoint _ _ _ r Hnd); auto. }
      unfold good. rewrite Hother by assumption. now apply H2.
    + unfold good. rewrite Hself. repeat split; auto; apply G2.
  - intros v Hv.
    assert (Hvin : In v (p_nodesval st)).
    { apply (Permutation_in _ (Permutation_sym (remove_first_perm r _ Hr))).
      now right. }
    assert (v <> r).
    { intros ->. apply NoDup_app_remove_r in Hnd.
      apply (Permutation_NoDup (remove_first_perm r _ Hr)) in Hnd.
      inversion Hnd; contradiction. }
    rewrite Hother by assumption. now apply HV.
Qed.

End Propagation.

(** ** The scan of the unresolved nodes *)

Lemma remove_first_le (r : ref) (l : list ref) :
  length (remove_first r l) <= length l.
Proof.
  induction l as [|y l IH]; [auto|]. cbn [remove_first].
  destruct (Nat.eqb r y); simpl; lia.
Qed.

Lemma scan_length_le :
  forall (n i : nat) (st : pstate),
    length (p_nodesval (scan n i st)) <= length (p_nodesval st).
Proof.
  induction n as [|n IH]; intros i st; [auto|]. cbn [scan].
  destruct (nth_error (p_nodesval st) i) as [r|]; [|auto].
  destruct (allDaughtersHaveStrID (p_heap st) r); [|apply IH].
  etransitivity; [apply IH|]. cbn [p_nodesval]. apply remove_first_le.
Qed.

(** a pass that meets a node whose daughters all have their string ID
    leaves fewer unresolved nodes *)
Lemma scan_progress :
  forall (n i : nat) (st : pstate),
    (exists j r, i <= j /\ nth_error (p_nodesval st) j = Some r /\
                 allDaughtersHaveStrID (p_heap st) r = true) ->
    length (p_nodesval st) <= n + i ->
    length (p_nodesval (scan n i st)) < length (p_nodesval st).
Proof.
  induction n as [|n IH]; intros i st (j & r & Hij & Hj & Hr) Hlen.
  - assert (j < length (p_nodesval st)) by (apply nth_error_Some; congruence).
    simpl in Hlen. lia.
  - cbn [scan]. destruct (nth_error (p_nodesval st) i) as [ri|] eqn:Ei.
    + destruct (allDaughtersHaveStrID (p_heap st) ri) eqn:Eri.
      * pose proof (scan_length_le n (S i)
                      (mkPstate (getStrID (p_heap st) ri)
                                (remove_first ri (p_nodesval st))
                                (p_nodes2 st ++ [ri]))) as Hle.
        cbn [p_nodesval] in Hle.
        pose proof (remove_first_length ri (p_nodesval st)
                      (nth_error_In _ _ Ei)). lia.
      * apply IH; [|lia]. exists j, r. repeat split; auto.
        destruct (Nat.eq_dec i j) as [->|]; [congruence|lia].
    + apply nth_error_None in Ei.
      assert (j < length (p_nodesval st)) by (apply nth_error_Some; congruence).
      lia.
Qed.

Lemma propagate_more_fuel :
  forall (fuel : nat) (st st' : pstate),
    propagate fuel st = Ok st' ->
    forall fuel', fuel <= fuel' -> propagate fuel' st = Ok st'.
Proof.
  induction fuel as [|fuel IH]; intros st st' H fuel' Hle; [discriminate|].
  destruct fuel' as [|fuel']; [lia|]. cbn [propagate] in *.
  destruct (p_nodesval st); [assumption|]. apply IH; [assumption|lia].
Qed.

Section Termination.

Variable h : heap.
Variable nodes : dict.
Variable leaves : list ref.
Hypothesis LT : linked_tree h nodes leaves.
Hypothesis AC : acyclic h nodes.
Hypothesis FE : fertile h nodes leaves.

Lemma scan_pinv :
  forall (n i : nat) (st : pstate),
    pinv h nodes leaves st -> pinv h nodes leaves (scan n i st).
Proof.
  induction n as [|n IH]; intros i st Hinv; [assumption|]. cbn [scan].
  destruct (nth_error (p_nodesval st) i) as [r|] eqn:Ei; [|assumption].
  destruct (allDaughtersHaveStrID (p_heap st) r) eqn:Er; [|now apply IH].
  apply IH. apply (pinv_step h nodes leaves LT AC FE); auto.
  eapply nth_error_In; eauto.
Qed.

Lemma deepest_node (l : list ref) :
  l <> [] -> (forall v, In v l -> exists n, rooted h nodes v n) ->
  exists v n, In v l /\ rooted h nodes v n /\
              forall v' n', In v' l -> rooted h nodes v' n' -> n' <= n.
Proof.
  induction l as [|a l IH]; intros Hne Hall; [congruence|].
  destruct (Hall a (or_introl eq_refl)) as [na Ha].
  destruct l as [|b l].
  - exists a, na. repeat split; [now left|assumption|].
    intros v' n' [<-|[]] Hv'. now rewrite (rooted_fun h nodes _ _ _ Ha Hv').
  - destruct IH as (v & n & Hv & Hn & Hmax); [discriminate| |].
    { intros v Hv. apply Hall. now right. }
    destruct (Nat.le_ge_cases n na) as [Hle|Hge].
    + exists a, na. repeat split; [now left|assumption|].
      intros v' n' [<-|Hv'] Hn'.
      * now rewrite (rooted_fun h nodes _ _ _ Ha Hn').
      * specialize (Hmax v' n' Hv' Hn'). lia.
    + exists v, n. repeat split; [now right|assumption|].
      intros v' n' [<-|Hv'] Hn'.
      * rewrite (rooted_fun h nodes _ _ _ Hn' Ha). exact Hge.
      * now apply (Hmax v' n').
Qed.

Lemma resolvable_exists (st : pstate) :
  pinv h nodes leaves st -> p_nodesval st <> [] ->
  exists j r, 0 <= j /\ nth_error (p_nodesval st) j = Some r /\
              allDaughtersHaveStrID (p_heap st) r = true.
Proof.
  intros (HS & HD & HL & HP & H2 & HV) Hne.
  assert (Hsub : forall v, In v (p_nodesval st) -> In v (dict_values nodes)).
  { intros v Hv. apply (Permutation_in _ HP). apply in_or_app. now left. }
  destruct (deepest_node (p_nodesval st) Hne) as (v & n & Hv & Hn & Hmax).
  { intros v Hv. apply AC. now apply Hsub. }
  destruct (In_nth_error _ _ Hv) as [j Hj].
  exists j, v. split; [lia|]. split; [assumption|].
  unfold allDaughtersHaveStrID. rewrite HD. apply forallb_forall.
  intros d Hd. apply (daughter_iff h nodes leaves LT) in Hd.
  destruct Hd as [[Hd|Hd] Hm].
  - apply In_nth_error in Hd. destruct Hd as [k Hk].
    now rewrite (HL k d Hk).
  - apply (Permutation_in _ (Permutation_sym HP)) in Hd.
    apply in_app_or in Hd. destruct Hd as [Hd|Hd].
    + exfalso. specialize (Hmax d (S n) Hd (rooted_step h nodes d v n Hm Hn)). lia.
    + destruct (H2 d Hd) as [_ Hnz].
      destruct (strID (get (p_heap st) d)); [congruence|reflexivity].
Qed.

Lemma propagate_terminates :
  forall (m : nat) (st : pstate),
    pinv h nodes leaves st -> length (p_nodesval st) <= m ->
    exists st', propagate (S m) st = Ok st' /\
                pinv h nodes leaves st' /\ p_nodesval st' = [].
Proof.
  induction m as [|m IH]; intros st Hinv Hlen.
  - exists st. destruct (p_nodesval st) eqn:E; [|simpl in Hlen; lia].
    cbn [propagate]. rewrite E. auto.
  - destruct (p_nodesval st) as [|v vs] eqn:E.
    + exists st. cbn [propagate]. rewrite E. auto.
    + assert (Hne : p_nodesval st <> []) by (rewrite E; discriminate).
      rewrite <- E in Hlen.
      assert (Hlt : length (p_nodesval (scan (length (p_nodesval st)) 0 st))
                    < length (p_nodesval st)).
      { apply scan_progress; [now apply resolvable_exists|lia]. }
      destruct (IH (scan (length (p_nodesval st)) 0 st)) as (st' & Hp & Hi & Hn).
      * now apply scan_pinv.
      * lia.
      * exists st'. split; [|auto].
        change (propagate (S (S m)) st)
          with (match p_nodesval st with
                | [] => Ok st
                | _ :: _ => propagate (S m) (scan (length (p_nodesval st)) 0 st)
                end).
        rewrite E. rewrite <- E. exact Hp.
Qed.

Lemma pinv_start : pinv h nodes leaves (mkPstate h (dict_values nodes) []).
Proof.
  pose proof LT as (Hl & Hk & Hn & Hv & Hu & Hd & Hs & Hz).
  unfold pinv. cbn [p_heap p_nodesval p_nodes2]. repeat split; auto.
  - now rewrite app_nil_r.
  - destruct H.
  - destruct H.
  - destruct H.
  - intros v Hin. apply Hz. intros Hleaf.
    now apply (leaf_not_node h nodes leaves LT v).
Qed.

(** on a well-formed tree the propagation returns, with every internal
    node resolved to its span *)
Lemma propagate_well_formed :
  exists fuel st,
    (forall fuel', fuel <= fuel' ->
       propagate fuel' (mkPstate h (dict_values nodes) []) = Ok st) /\
    pinv h nodes leaves st /\ p_nodesval st = [].
Proof.
  destruct (propagate_terminates (length (dict_values nodes))
              (mkPstate h (dict_values nodes) []) pinv_start (le_n _))
    as (st & Hp & Hi & Hn).
  exists (S (length (dict_values nodes))), st. split; [|auto].
  intros fuel' Hle. eapply propagate_more_fuel; eauto.
Qed.

End Termination.

(** ** Trees whose mother ids resolve *)

Lemma link_leaves_ok (nodes : dict) :
  forall (ls : list ref) (s : Z) (h : heap),
    (forall l, In l ls -> dict_get nodes (mother (get h l)) <> None) ->
    exists h', link_leaves nodes s ls h = Ok h'.
Proof.
  induction ls as [|leaf ls IH]; intros s h H; [now exists h|].
  cbn [link_leaves]. rewrite mother_upd_strID.
  destruct (dict_get nodes (mother (get h leaf))) as [m|] eqn:E.
  - apply IH. intros l Hl. rewrite mother_upd_daughter, mother_upd_strID.
    apply H. now right.
  - exfalso. apply (H leaf); [now left|assumption].
Qed.

Lemma link_nodes_ok (nodes : dict) :
  forall (vs : list ref) (h : heap),
    (forall v, In v vs -> mother (get h v) = lit "0" \/
                          dict_get nodes (mother (get h v)) <> None) ->
    exists h', link_nodes nodes vs h = Ok h'.
Proof.
  induction vs as [|v vs IH]; intros h H; [now exists h|].
  cbn [link_nodes].
  destruct (str_eqb_spec (mother (get h v)) (lit "0")) as [E0|N0]; cbn [negb].
  - apply IH. intros v' Hv'. apply H. now right.
  - destruct (dict_get nodes (mother (get h v))) as [m|] eqn:E.
    + apply IH. intros v' Hv'. rewrite mother_upd_daughter. apply H. now right.
    + exfalso. destruct (H v (or_introl eq_refl)); congruence.
Qed.

Lemma linked_ok (tree : list str) (h0 : heap) (nodes : dict) (leaves : list ref) :
  build tree [] [] [] = Ok (h0, nodes, leaves) ->
  resolves h0 nodes leaves ->
  exists h, linked tree = Ok (h, nodes, leaves).
Proof.
  intros Hb [Hl Hv]. unfold linked. rewrite Hb. cbn [bind].
  destruct (link_leaves_ok nodes leaves 0 h0 Hl) as [h1 E1]. rewrite E1.
  cbn [bind].
  destruct (link_nodes_ok nodes (dict_values nodes) h1) as [h2 E2].
  - intros v Hin. rewrite (link_leaves_mother _ _ _ _ _ E1). now apply Hv.
  - rewrite E2. cbn [bind]. now exists h2.
Qed.

Lemma up_same_records (h h' : heap) (nodes : dict) (x r : ref) (n : nat) :
  same_records h h' -> up h nodes x n r -> up h' nodes x n r.
Proof.
  intros S. induction 1 as [x|x m n r Hx Hm IH]; [constructor|].
  econstructor; [|exact IH]. now rewrite (same_records_mother_of h h' nodes x S).
Qed.

Lemma rooted_same_records (h h' : heap) (nodes : dict) (x : ref) (n : nat) :
  same_records h h' -> rooted h nodes x n -> rooted h' nodes x n.
Proof.
  intros S. induction 1 as [x Hx|x m n Hx Hm IH].
  - constructor. now rewrite (same_records_mother_of h h' nodes x S).
  - econstructor; [|exact IH]. now rewrite (same_records_mother_of h h' nodes x S).
Qed.

Lemma same_records_sym (h h' : heap) : same_records h h' -> same_records h' h.
Proof.
  intros [L F]. split; [congruence|]. intros r.
  destruct (F r) as (-> & -> & ->). auto.
Qed.

(** a well-formed tree: the three loops link it, the propagation returns
    for every amount of fuel from some amount on, and resolves every
    internal node to its span *)
Lemma spans_well_formed
  (tree : list str) (h0 : heap) (nodes : dict) (leaves : list ref) :
  build tree [] [] [] = Ok (h0, nodes, leaves) ->
  well_formed h0 nodes leaves ->
  exists fuel h h' nodes2,
    linked tree = Ok (h, nodes, leaves) /\
    linked_tree h nodes leaves /\
    same_records h0 h /\
    (forall fuel', fuel <= fuel' ->
       spans fuel' tree = Ok (h', nodes, leaves, nodes2)) /\
    pinv h nodes leaves (mkPstate h' [] nodes2).
Proof.
  intros Hb (Hres & Hac & Hfe).
  destruct (linked_ok tree h0 nodes leaves Hb Hres) as [h Hl].
  destruct (linked_inv tree h nodes leaves Hl) as (LT & h0' & Hb' & S).
  assert (h0' = h0) by congruence. subst h0'.
  assert (AC : acyclic h nodes).
  { intros v Hv. destruct (Hac v Hv) as [n Hn]. exists n.
    now apply (rooted_same_records h0 h). }
  assert (FE : fertile h nodes leaves).
  { intros v Hv. destruct (Hfe v Hv) as (l & Hin & n & Hn). exists l.
    split; [assumption|]. exists n. now apply (up_same_records h0 h). }
  destruct (propagate_well_formed h nodes leaves LT AC FE) as (fuel & st & Hp & Hi & Hn).
  exists fuel, h, (p_heap st), (p_nodes2 st).
  split; [assumption|]. split; [assumption|]. split; [assumption|]. split.
  - intros fuel' Hle. unfold spans. rewrite Hl. cbn [bind].
    rewrite (Hp fuel' Hle). reflexivity.
  - destruct st as [hp nv n2]. cbn [p_nodesval] in Hn. subst nv. exact Hi.
Qed.

(** C3: on a well-formed tree (the records parse, every mother id names a
    node, the mother links of every internal node lead to a root, every
    internal node dominates a leaf) the span propagation returns with
    enough fuel; then the k-th leaf, in the order of the lines, has the
    string ID [k], and the string ID of every internal node is the
    ascending list, without repeats, of the positions of the leaves it
    dominates. *)
Theorem spans_of_well_formed_tree
  (tree : list str) (h0 : heap) (nodes : dict) (leaves : list ref) :
  build tree [] [] [] = Ok (h0, nodes, leaves) ->
  well_formed h0 nodes leaves ->
  exists fuel h' nodes2,
    spans fuel tree = Ok (h', nodes, leaves, nodes2) /\
    leaves = leaf_refs h0 /\
    (forall k l, nth_error leaves k = Some l -> strID (get h' l) = [Z.of_nat k]) /\
    (forall v, In v (dict_values nodes) ->
               is_span h0 nodes leaves v (strID (get h' v))).
Proof.
  intros Hb Hwf.
  destruct (spans_well_formed tree h0 nodes leaves Hb Hwf)
    as (fuel & h & h' & nodes2 & Hl & LT & S & Hsp & Hinv).
  destruct Hinv as (_ & _ & HL & HP & H2 & _). cbn [p_heap p_nodesval p_nodes2] in *.
  exists fuel, h', nodes2. split; [now apply Hsp|]. split; [|split].
  - destruct LT as (-> & _). now apply same_records_leaf_refs.
  - exact HL.
  - intros v Hv. apply (Permutation_in _ (Permutation_sym HP)) in Hv.
    cbn [app] in Hv. destruct (H2 v Hv) as [[G1 G2] _].
    split; [assumption|]. intros z. rewrite G2.
    assert (Hvn : In v (dict_values nodes)) by (apply (Permutation_in _ HP); auto).
    rewrite (span_rel_node h nodes leaves LT v z Hvn).
    split; intros (k & l & E & Hk & n & Hn); exists k, l;
      (split; [assumption|]); (split; [assumption|]); exists n.
    + apply (up_same_records h h0); [now apply same_records_sym|assumption].
    + now apply (up_same_records h0 h).
Qed.

Lemma tree1_well_formed :
  exists h0 nodes leaves,
    build tree1 [] [] [] = Ok (h0, nodes, leaves) /\
    leaves = [0; 1; 2] /\ dict_values nodes = [3; 4] /\
    well_formed h0 nodes leaves.
Proof.
  eexists. eexists. eexists. split; [vm_compute; reflexivity|].
  split; [reflexivity|]. split; [reflexivity|].
  split; [|split].
  - split.
    + intros l [<-|[<-|[<-|[]]]]; vm_compute; discriminate.
    + intros v [<-|[<-|[]]]; [right|left]; vm_compute; [discriminate|reflexivity].
  - intros v [<-|[<-|[]]].
    + exists 1. apply rooted_step with (m := 4); [reflexivity|].
      apply rooted_root. reflexivity.
    + exists 0. apply rooted_root. reflexivity.
  - intros v [<-|[<-|[]]].
    + exists 0. split; [now left|]. exists 0.
      apply up_S with (m := 3); [reflexivity|constructor].
    + exists 1. split; [right; now left|]. exists 0.
      apply up_S with (m := 4); [reflexivity|constructor].
Defined.

Lemma spans_of_well_formed_tree_witness :
  exists h0 nodes leaves fuel h' nodes2,
    build tree1 [] [] [] = Ok (h0, nodes, leaves) /\
    spans fuel tree1 = Ok (h', nodes, leaves, nodes2) /\
    leaves = leaf_refs h0 /\
    (forall k l, nth_error leaves k = Some l -> strID (get h' l) = [Z.of_nat k]) /\
    (forall v, In v (dict_values nodes) ->
               is_span h0 nodes leaves v (strID (get h' v))).
Proof.
  destruct tree1_well_formed as (h0 & nodes & leaves & Hb & _ & _ & Hwf).
  destruct (spans_of_well_formed_tree tree1 h0 nodes leaves Hb Hwf)
    as (fuel & h' & nodes2 & H).
  exists h0, nodes, leaves, fuel, h', nodes2. split; [exact Hb|exact H].
Defined.

Example spans_tree1 :
  match spans 10 tree1 with
  | Ok (h, _, _, nodes2) =>
      map (fun r => strID (get h r)) [0; 1; 2; 3; 4]
      = [[0]; [1]; [2]; [0; 2]; [0; 1; 2]]%Z /\ nodes2 = [3; 4]
  | _ => False
  end.
Proof. vm_compute. auto. Qed.

(** C6, as the code has it: on a well-formed tree the span propagation
    returns for every amount of fuel from some amount on, with every
    internal node moved to [nodes2], once, and holding a non-empty string
    ID.  (No error is raised when a pass resolves nothing: the loop goes
    on.) *)
Theorem propagation_returns_on_well_formed_tree
  (tree : list str) (h0 : heap) (nodes : dict) (leaves : list ref) :
  build tree [] [] [] = Ok (h0, nodes, leaves) ->
  well_formed h0 nodes leaves ->
  exists fuel h' nodes2,
    (forall fuel', fuel <= fuel' ->
       spans fuel' tree = Ok (h', nodes, leaves, nodes2)) /\
    Permutation nodes2 (dict_values nodes) /\
    (forall v, In v (dict_values nodes) -> strID (get h' v) <> []).
Proof.
  intros Hb Hwf.
  destruct (spans_well_formed tree h0 nodes leaves Hb Hwf)
    as (fuel & h & h' & nodes2 & Hl & LT & S & Hsp & Hinv).
  destruct Hinv as (_ & _ & _ & HP & H2 & _). cbn [p_heap p_nodesval p_nodes2 app] in *.
  exists fuel, h', nodes2. split; [assumption|]. split; [assumption|].
  intros v Hv. apply (Permutation_in _ (Permutation_sym HP)) in Hv.
  now apply H2.
Qed.

Lemma propagation_returns_on_well_formed_tree_witness :
  exists h0 nodes leaves fuel h' nodes2,
    build tree1 [] [] [] = Ok (h0, nodes, leaves) /\
    (forall fuel', fuel <= fuel' ->
       spans fuel' tree1 = Ok (h', nodes, leaves, nodes2)) /\
    Permutation nodes2 (dict_values nodes) /\
    (forall v, In v (dict_values nodes) -> strID (get h' v) <> []).
Proof.
  destruct tree1_well_formed as (h0 & nodes & leaves & Hb & _ & _ & Hwf).
  destruct (propagation_returns_on_well_formed_tree tree1 h0 nodes leaves Hb Hwf)
    as (fuel & h' & nodes2 & H).
  exists h0, nodes, leaves, fuel, h', nodes2. split; [exact Hb|exact H].
Defined.

(** ** The order of the daughters *)

Lemma getStrID_frame (h : heap) (r : ref) :
  same_records h (getStrID h r) /\
  forall x, daughters (get (getStrID h r) x) = daughters (get h x).
Proof.
  rewrite getStrID_eq. split; [apply same_records_strID|].
  intros x. rewrite get_upd.
  destruct (Nat.eqb r x && Nat.ltb r (length h)); reflexivity.
Qed.

Lemma scan_frame :
  forall (n i : nat) (st : pstate),
    same_records (p_heap st) (p_heap (scan n i st)) /\
    forall x, daughters (get (p_heap (scan n i st)) x)
              = daughters (get (p_heap st) x).
Proof.
  induction n as [|n IH]; intros i st.
  - split; [apply same_records_refl|reflexivity].
  - cbn [scan]. destruct (nth_error (p_nodesval st) i) as [r|];
      [|split; [apply same_records_refl|reflexivity]].
    destruct (allDaughtersHaveStrID (p_heap st) r); [|apply IH].
    destruct (IH (S i) (mkPstate (getStrID (p_heap st) r)
                                 (remove_first r (p_nodesval st))
                                 (p_nodes2 st ++ [r]))) as [S D].
    destruct (getStrID_frame (p_heap st) r) as [S0 D0].
    cbn [p_heap] in *. split; [eapply same_records_trans; eauto|].
    intros x. now rewrite D, D0.
Qed.

Lemma propagate_frame :
  forall (fuel : nat) (st st' : pstate),
    propagate fuel st = Ok st' ->
    same_records (p_heap st) (p_heap st') /\
    forall x, daughters (get (p_heap st') x) = daughters (get (p_heap st) x).
Proof.
  induction fuel as [|fuel IH]; intros st st' H; [discriminate|].
  cbn [propagate] in H. destruct (p_nodesval st) eqn:E.
  - injection H as <-. split; [apply same_records_refl|reflexivity].
  - rewrite <- E in H. destruct (IH _ _ H) as [S D].
    destruct (scan_frame (length (p_nodesval st)) 0 st) as [S0 D0].
    split; [eapply same_records_trans; eauto|].
    intros x. now rewrite D, D0.
Qed.

Lemma contract_names :
  forall (ps : list Predicate) (count : Z) (largs : list str),
    map name (snd (fst (contract ps count largs))) = map name ps.
Proof.
  induction ps as [|p ps IH]; intros count largs; [reflexivity|].
  cbn [contract].
  destruct (contract_i (args p) count largs) as [[largs1 pargs1] count1].
  specialize (IH count1 largs1).
  destruct (contract ps count1 largs1) as [[largs2 ps2] count2].
  cbn [fst snd map name] in *. now rewrite IH.
Qed.

Lemma Rule_init_internal (h : heap) (r : ref) (key : str) :
  id (get h r) = hash :: key ->
  exists rule ps,
    Rule_init h r = Ok rule /\ rhs rule = Preds ps /\
    map name ps = map (fun d => label (get h d)) (daughters (get h r)).
Proof.
  intros Hid. unfold Rule_init. rewrite Hid.
  change (negb (Ascii.eqb hash hash)) with false. cbv iota.
  pose proof (contract_names
                (map (fun d => mkPredicate (label (get h d)) (findArgs h d))
                     (daughters (get h r))) 0 (findArgs h r)) as Hn.
  destruct (contract _ 0 (findArgs h r)) as [[largs ps] count].
  cbn [fst snd] in Hn. eexists. exists ps. split; [reflexivity|].
  split; [reflexivity|]. rewrite Hn, map_map. reflexivity.
Qed.

(** C9, as the code has it: once [induce] has the string IDs, the
    daughters of an internal node kept in the dictionary are its leaf
    daughters, in the order of the lines, followed by its internal-node
    daughters, in the order of the dictionary; that is the order of the
    lines when no internal id is repeated.  The right-hand side of the
    rule built from the node has one predicate per daughter, in this
    order. *)
Theorem daughters_leaves_then_nodes
  (fuel : nat) (tree : list str)
  (h : heap) (nodes : dict) (leaves nodes2 : list ref) (r : ref) :
  spans fuel tree = Ok (h, nodes, leaves, nodes2) ->
  In r (dict_values nodes) ->
  daughters (get h r)
  = filter (is_daughter h nodes r) (leaf_refs h)
    ++ filter (is_daughter h nodes r) (dict_values nodes) /\
  (NoDup (map (fun i => id (get h i)) (internal_refs h)) ->
   dict_values nodes = internal_refs h) /\
  exists rule ps,
    Rule_init h r = Ok rule /\ rhs rule = Preds ps /\
    map name ps = map (fun d => label (get h d)) (daughters (get h r)).
Proof.
  unfold spans. intros H Hr.
  destruct (linked tree) as [[[h2 nodes0] leaves0]| |] eqn:El;
    cbn [bind] in H; try discriminate.
  destruct (propagate fuel _) as [st| |] eqn:Ep; cbn [bind] in H; try discriminate.
  injection H as <- <- <- <-.
  destruct (linked_inv tree h2 nodes0 leaves0 El) as (LT & _).
  destruct (propagate_frame _ _ _ Ep) as [S D]. cbn [p_heap] in S, D.
  pose proof LT as (Hl & Hk & Hn & Hv & Hu & Hd & _).
  split; [|split].
  - rewrite D, Hd, (same_records_leaf_refs h2 (p_heap st) S), <- Hl.
    f_equal; apply filter_ext; intros x; symmetry;
      now apply same_records_is_daughter.
  - intros Hnd. rewrite (same_records_internal_refs h2 (p_heap st) S).
    apply Hu. rewrite (same_records_internal_refs h2 (p_heap st) S) in Hnd.
    erewrite map_ext; [exact Hnd|]. intros i. cbv beta.
    destruct S as [_ F]. now destruct (F i) as (-> & _).
  - unfold dict_values in Hr. apply in_map_iff in Hr.
    destruct Hr as ([k r'] & E & Hin). cbn [snd] in E. subst r'.
    destruct (Hn k r Hin) as [_ Hid].
    apply (Rule_init_internal (p_heap st) r k).
    destruct S as [_ F]. destruct (F r) as (-> & _). exact Hid.
Qed.

Lemma daughters_leaves_then_nodes_witness :
  exists h nodes leaves nodes2,
    spans 10 tree1 = Ok (h, nodes, leaves, nodes2) /\
    daughters (get h 4) = [1; 3] /\
    dict_values nodes = internal_refs h /\
    exists rule ps,
      Rule_init h 4 = Ok rule /\ rhs rule = Preds ps /\
      map name ps = [lit "B"; lit "VP"].
Proof.
  eexists. eexists. eexists. eexists. split; [vm_compute; reflexivity|].
  match goal with
  | |- context [daughters (get ?h 4)] =>
      match goal with
      | |- context [dict_values ?nodes] =>
          destruct (daughters_leaves_then_nodes 10 tree1 h nodes [0; 1; 2] [3; 4] 4)
            as (H1 & H2 & H3)
      end
  end.
  - vm_compute. reflexivity.
  - right. now left.
  - split; [reflexivity|]. split; [reflexivity|]. exact H3.
Defined.

(** C9, the claim as stated: with the id 500 declared on the lines 2 and
    4, the daughters of the root are the record of line 4 and then the
    record of line 3, and the rule has C in front of B. *)
Lemma repeated_id_daughter_order :
  exists h nodes leaves nodes2,
    spans 10 tree_repeated_id = Ok (h, nodes, leaves, nodes2) /\
    internal_refs h = [2; 3; 4; 5] /\
    dict_values nodes = [4; 3; 5] /\
    daughters (get h 5) = [4; 3] /\
    forms (induce 10 [] tree_repeated_id)
    = Ok [ "X(x)->eps"; "Y(y)->eps"; "C(X_0)->X(X_0)"; "B(X_0)->Y(X_0)";
           "S(X_0X_1)->C(X_0)B(X_1)" ]%string.
Proof.
  eexists. eexists. eexists. eexists. split; [vm_compute; reflexivity|].
  vm_compute. auto.
Qed.

(** ** A second call of induce *)

Lemma Rule_init_ok (h : heap) (r : ref) :
  id (get h r) <> [] -> exists rule, Rule_init h r = Ok rule.
Proof.
  intros Hid. unfold Rule_init. destruct (id (get h r)) as [|c key]; [congruence|].
  destruct (negb (Ascii.eqb c hash)); [eauto|].
  destruct (contract _ 0 (findArgs h r)) as [[largs ps] count]. eauto.
Qed.

Lemma add_rules_ok (h : heap) :
  forall (rs : list ref) (rules : list Rule),
    (forall r, In r rs -> id (get h r) <> []) ->
    exists rules', add_rules h rs rules = Ok rules'.
Proof.
  induction rs as [|r rs IH]; intros rules H; [now exists rules|].
  cbn [add_rules]. destruct (Rule_init_ok h r (H r (or_introl eq_refl))) as [rule ->].
  cbn [bind]. apply IH. intros r' Hr'. apply H. now right.
Qed.

(** C8: on a well-formed tree [induce] returns, with enough fuel, and a
    second call with the same lines builds rules whose forms are all
    stored: it returns the same list of rules. *)
Theorem induce_idempotent
  (tree : list str) (h0 : heap) (nodes : dict) (leaves : list ref) :
  build tree [] [] [] = Ok (h0, nodes, leaves) ->
  well_formed h0 nodes leaves ->
  exists fuel,
    forall fuel' rules,
      fuel <= fuel' ->
      exists rules',
        induce fuel' rules tree = Ok rules' /\
        induce fuel' rules' tree = Ok rules'.
Proof.
  intros Hb Hwf.
  destruct (spans_well_formed tree h0 nodes leaves Hb Hwf)
    as (fuel & h & h' & nodes2 & Hl & LT & S & Hsp & Hinv).
  destruct Hinv as (S' & _ & _ & HP & _). cbn [p_heap p_nodesval p_nodes2 app] in *.
  exists fuel. intros fuel' rules Hle.
  assert (Hid : forall r, r < length h0 -> id (get h' r) <> []).
  { intros r Hr. destruct S' as [_ F']. destruct (F' r) as (-> & _).
    destruct S as [_ F]. destruct (F r) as (-> & _).
    destruct (build_built _ _ _ _ _ _ _ built_empty Hb) as (_ & Hf & _).
    now apply Hf. }
  assert (Ll : length h = length h0) by apply S.
  destruct (add_rules_ok h' leaves rules) as [rules1 E1].
  { intros r Hr. apply Hid. destruct LT as (-> & _).
    apply leaf_refs_bound in Hr. lia. }
  destruct (add_rules_ok h' nodes2 rules1) as [rules2 E2].
  { intros r Hr. apply Hid. rewrite <- Ll.
    apply (node_bound h nodes leaves LT). now apply (Permutation_in _ HP). }
  assert (E : induce fuel' rules tree = Ok rules2).
  { unfold induce. rewrite (Hsp fuel' Hle). cbn [bind]. rewrite E1. cbn [bind].
    exact E2. }
  exists rules2. split; [exact E|]. now apply (induce_again fuel' rules).
Qed.

Lemma induce_idempotent_witness :
  exists h0 nodes leaves fuel,
    build tree1 [] [] [] = Ok (h0, nodes, leaves) /\
    forall fuel' rules,
      fuel <= fuel' ->
      exists rules',
        induce fuel' rules tree1 = Ok rules' /\
        induce fuel' rules' tree1 = Ok rules'.
Proof.
  destruct tree1_well_formed as (h0 & nodes & leaves & Hb & _ & _ & Hwf).
  destruct (induce_idempotent tree1 h0 nodes leaves Hb Hwf) as (fuel & H).
  exists h0, nodes, leaves, fuel. split; [exact Hb|exact H].
Defined.

Example induce_tree1_twice :
  forms (rules <- induce 10 [] tree1 ;; induce 10 rules tree1)
  = forms (induce 10 [] tree1).
Proof. vm_compute. reflexivity. Qed.

(* ================================================================== *)
(** * Further properties of the code *)

(** ** Splitting a line *)

Lemma split_on_cons (sep : ascii) (s : str) :
  exists w ws, split_on sep s = w :: ws.
Proof.
  induction s as [|c s (w & ws & IH)]; cbn [split_on]; [eauto|].
  destruct (Ascii.eqb c sep); [eauto|]. rewrite IH. eauto.
Qed.

(** X1: [line.split(sep)] loses nothing: joining the fields with the
    separator gives the line back; there is one field more than the line
    has separators, and no field holds the separator. *)
Theorem split_on_join (sep : ascii) (s : str) :
  join_on sep (split_on sep s) = s /\
  length (split_on sep s) = S (count_occ ascii_dec s sep) /\
  Forall (fun field => ~ In sep field) (split_on sep s).
Proof.
  induction s as [|c s (IH1 & IH2 & IH3)].
  - cbn. repeat split. repeat constructor. intros [].
  - cbn [split_on count_occ].
    destruct (split_on_cons sep s) as (w & ws & E). rewrite E in *.
    destruct (Ascii.eqb_spec c sep) as [->|Hne].
    + destruct (ascii_dec sep sep) as [_|]; [|congruence].
      split; [|split].
      * cbn [join_on flat_map app]. cbn [join_on] in IH1. now rewrite IH1.
      * cbn [length] in *. lia.
      * constructor; [intros []|assumption].
    + destruct (ascii_dec c sep) as [|_]; [congruence|].
      split; [|split].
      * cbn [join_on app] in *. now rewrite IH1.
      * exact IH2.
      * inversion IH3; subst. constructor; [|assumption].
        intros [E'|H]; [congruence|contradiction].
Qed.

(** ** The records of a tree *)

Lemma Node_init_cases (l : list str) :
  (6 <= length l /\
   Node_init l = Ok (mkNode (nth 0 l []) (nth 2 l []) (nth 5 l []) [] [])) \/
  (length l < 6 /\ Node_init l = Raise IndexError).
Proof.
  unfold Node_init.
  destruct l as [|a [|b [|c [|d [|e [|f l]]]]]]; cbn; (left; split; [lia|reflexivity])
    || (right; split; [lia|reflexivity]).
Qed.

Lemma build_cons
  (line : str) (tree : list str) (h : heap) (nodes : dict) (leaves : list ref) :
  build (line :: tree) h nodes leaves =
  if valid_line line then
    if is_internal_node (record_of line)
    then build tree (h ++ [record_of line])
               (dict_set nodes (tl (id (record_of line))) (length h)) leaves
    else build tree (h ++ [record_of line]) nodes (leaves ++ [length h])
  else Raise IndexError.
Proof.
  cbn [build]. unfold valid_line, record_of, is_internal_node.
  destruct (Node_init_cases (split_on tab line)) as [[Hlen ->]|[Hlen ->]];
    cbn [bind id].
  - apply Nat.leb_le in Hlen. rewrite Hlen. cbn [andb].
    destruct (nth 0 (split_on tab line) []) as [|c key]; [reflexivity|].
    cbn [tl]. reflexivity.
  - assert (E6 : (6 <=? length (split_on tab line)) = false)
      by (apply Nat.leb_gt; lia).
    now rewrite E6.
Qed.

Lemma build_outcome :
  forall (tree : list str) (h : heap) (nodes : dict) (leaves : list ref),
    match build tree h nodes leaves with
    | Ok (h', _, _) =>
        forallb valid_line tree = true /\ h' = h ++ map record_of tree
    | Raise e => e = IndexError /\ forallb valid_line tree = false
    | Timeout => False
    end.
Proof.
  induction tree as [|line tree IH]; intros h nodes leaves.
  - cbn. split; [reflexivity|]. now rewrite app_nil_r.
  - rewrite build_cons. cbn [forallb map].
    destruct (valid_line line); cbn [andb]; [|auto].
    destruct (is_internal_node (record_of line)).
    + specialize (IH (h ++ [record_of line])
                     (dict_set nodes (tl (id (record_of line))) (length h)) leaves).
      destruct (build tree _ _ leaves) as [[[h' ?] ?]|e|]; auto.
      destruct IH as [-> ->]. split; [reflexivity|]. now rewrite <- app_assoc.
    + specialize (IH (h ++ [record_of line]) nodes (leaves ++ [length h])).
      destruct (build tree _ nodes _) as [[[h' ?] ?]|e|]; auto.
      destruct IH as [-> ->]. split; [reflexivity|]. now rewrite <- app_assoc.
Qed.

(** X2: the first loop of [induce] makes one record per line, from the
    fields 0, 2 and 5, when every line has six tab-separated fields at
    least and a first field that is not empty; otherwise it raises
    IndexError, and it raises nothing else. *)
Theorem build_records_or_IndexError (tree : list str) :
  match build tree [] [] [] with
  | Ok (h, nodes, leaves) =>
      forallb valid_line tree = true /\ h = map record_of tree /\
      leaves = leaf_refs h
  | Raise e => e = IndexError /\ forallb valid_line tree = false
  | Timeout => False
  end.
Proof.
  pose proof (build_outcome tree [] [] []) as H.
  destruct (build tree [] [] []) as [[[h nodes] leaves]|e|] eqn:E; auto.
  destruct H as [H1 H2]. split; [assumption|]. split; [assumption|].
  apply (build_built _ _ _ _ _ _ _ built_empty E).
Qed.

(** ** The arguments as a code of the span *)

Lemma tokens_inj :
  forall s s' : list Z,
    Forall (fun q => (0 <= q)%Z) s -> Forall (fun q => (0 <= q)%Z) s' ->
    tokens s = tokens s' -> s = s'.
Proof.
  induction s as [|p s IH]; intros [|p' s'] Hs Hs' E; try reflexivity;
    try discriminate.
  inversion Hs as [|? ? Hp Hs0]; inversion Hs' as [|? ? Hp' Hs0']; subst.
  change (tokens (p :: s)) with (cY :: c_ :: str_of_Z p ++ tokens s) in E.
  change (tokens (p' :: s')) with (cY :: c_ :: str_of_Z p' ++ tokens s') in E.
  injection E as E.
  assert (Ep : str_of_Z p = str_of_Z p').
  { destruct (digits_prefix (str_of_Z p) (str_of_Z p') (tokens s) (tokens s') [])
      as [[t Et] _]; auto using str_of_Z_digits, endok_tokens.
    { now rewrite app_nil_r. }
    destruct (digits_prefix (str_of_Z p') (str_of_Z p) (tokens s') (tokens s) [])
      as [[t' Et'] _]; auto using str_of_Z_digits, endok_tokens.
    { now rewrite app_nil_r. }
    assert (Hl : length t = 0).
    { apply (f_equal (@length ascii)) in Et, Et'.
      rewrite length_app in Et, Et'. lia. }
    destruct t; [|discriminate]. now rewrite app_nil_r in Et. }
  assert (p = p') by now apply str_of_Z_inj. subst p'.
  apply app_inv_head in E. f_equal. now apply IH.
Qed.

(** X3: the arguments [findArgs] returns determine the string ID: two
    lists of non-negative positions with the same arguments are the same
    list. *)
Theorem findArgs_of_inj (s s' : list Z) :
  Forall (fun q => (0 <= q)%Z) s -> Forall (fun q => (0 <= q)%Z) s' ->
  findArgs_of s = findArgs_of s' -> s = s'.
Proof.
  intros Hs Hs' E. apply tokens_inj; auto.
  rewrite <- (comps_concat s), <- (comps_concat s'), <- !tokens_concat.
  now rewrite <- !findArgs_of_comps, E.
Qed.

Lemma findArgs_of_inj_witness :
  findArgs_of [0; 1; 3]%Z = [lit "Y_0Y_1"; lit "Y_3"] /\
  [0; 1; 3]%Z = [0; 1; 3]%Z.
Proof.
  split; [reflexivity|].
  apply (findArgs_of_inj [0; 1; 3]%Z [0; 1; 3]%Z);
    [repeat constructor; lia|repeat constructor; lia|reflexivity].
Defined.

(** ** The while loop on any tree *)

Lemma scan_perm :
  forall (n i : nat) (st : pstate),
    Permutation (p_nodesval (scan n i st) ++ p_nodes2 (scan n i st))
                (p_nodesval st ++ p_nodes2 st).
Proof.
  induction n as [|n IH]; intros i st; [reflexivity|]. cbn [scan].
  destruct (nth_error (p_nodesval st) i) as [r|] eqn:Ei; [|reflexivity].
  destruct (allDaughtersHaveStrID (p_heap st) r); [|apply IH].
  rewrite IH. cbn [p_nodesval p_nodes2].
  rewrite (remove_first_perm r (p_nodesval st) (nth_error_In _ _ Ei)) at 2.
  rewrite app_assoc, <- Permutation_cons_append. reflexivity.
Qed.

Lemma propagate_perm :
  forall (fuel : nat) (st st' : pstate),
    propagate fuel st = Ok st' ->
    p_nodesval st' = [] /\
    Permutation (p_nodes2 st') (p_nodesval st ++ p_nodes2 st).
Proof.
  induction fuel as [|fuel IH]; intros st st' H; [discriminate|].
  cbn [propagate] in H. destruct (p_nodesval st) eqn:E.
  - injection H as <-. rewrite E. split; reflexivity.
  - rewrite <- E in *. destruct (IH _ _ H) as [H1 H2]. split; [assumption|].
    rewrite H2. apply scan_perm.
Qed.

Lemma propagate_no_exception :
  forall (fuel : nat) (st : pstate) (e : exn), propagate fuel st <> Raise e.
Proof.
  induction fuel as [|fuel IH]; intros st e; [discriminate|].
  cbn [propagate]. destruct (p_nodesval st); [discriminate|apply IH].
Qed.

Lemma spans_inv
  (fuel : nat) (tree : list str)
  (h : heap) (nodes : dict) (leaves nodes2 : list ref) :
  spans fuel tree = Ok (h, nodes, leaves, nodes2) ->
  exists h2,
    linked tree = Ok (h2, nodes, leaves) /\
    same_records h2 h /\
    Permutation nodes2 (dict_values nodes).
Proof.
  unfold spans. intros H.
  destruct (linked tree) as [[[h2 nodes0] leaves0]| |] eqn:El;
    cbn [bind] in H; try discriminate.
  destruct (propagate fuel _) as [st| |] eqn:Ep; cbn [bind] in H; try discriminate.
  injection H as <- <- <- <-.
  destruct (propagate_frame _ _ _ Ep) as [S _].
  destruct (propagate_perm _ _ _ Ep) as [_ P].
  cbn [p_heap p_nodesval p_nodes2] in *. rewrite app_nil_r in P.
  exists h2. auto.
Qed.

(** X4: on every tree on which the while loop ends, well-formed or not,
    [nodes2] holds every internal node of the dictionary, each once: no
    node is lost and none is resolved twice. *)
Theorem every_node_resolved_once
  (fuel : nat) (tree : list str)
  (h : heap) (nodes : dict) (leaves nodes2 : list ref) :
  spans fuel tree = Ok (h, nodes, leaves, nodes2) ->
  Permutation nodes2 (dict_values nodes) /\ NoDup nodes2.
Proof.
  intros H. destruct (spans_inv _ _ _ _ _ _ H) as (h2 & Hl & _ & P).
  split; [assumption|].
  apply (Permutation_NoDup (Permutation_sym P)).
  destruct (linked_inv _ _ _ _ Hl) as [LT _]. apply LT.
Qed.

Lemma every_node_resolved_once_witness :
  exists h nodes leaves nodes2,
    spans 10 tree_repeated_id = Ok (h, nodes, leaves, nodes2) /\
    Permutation nodes2 (dict_values nodes) /\ NoDup nodes2.
Proof.
  eexists. eexists. eexists. eexists. split; [vm_compute; reflexivity|].
  eapply (every_node_resolved_once 10 tree_repeated_id). vm_compute. reflexivity.
Defined.

(** ** How many rules a tree adds *)

Lemma add_rule_length (rules : list Rule) (newrule : Rule) :
  length (add_rule rules newrule) <= S (length rules).
Proof.
  destruct (add_rule_cases rules newrule) as [[_ ->]|[_ ->]]; [lia|].
  rewrite length_app. simpl. lia.
Qed.

Lemma add_rules_length (h : heap) :
  forall (rs : list ref) (rules rules' : list Rule),
    add_rules h rs rules = Ok rules' ->
    length rules' <= length rules + length rs.
Proof.
  induction rs as [|r rs IH]; intros rules rules' H; cbn [add_rules] in H.
  - injection H as <-. simpl. lia.
  - destruct (Rule_init h r) as [rule| |]; cbn [bind] in H; try discriminate.
    apply IH in H. pose proof (add_rule_length rules rule). simpl. lia.
Qed.

Lemma refs_count (h : heap) (nodes : dict) (leaves : list ref) :
  linked_tree h nodes leaves ->
  length leaves + length (dict_values nodes) <= length h.
Proof.
  intros LT. rewrite <- length_app, <- (length_seq (length h) 0).
  apply NoDup_incl_length.
  - apply NoDup_app.
    + apply (leaves_NoDup h nodes leaves LT).
    + apply LT.
    + intros x. apply (leaf_not_node h nodes leaves LT).
  - intros x Hx. apply in_seq. apply in_app_or in Hx. destruct Hx as [Hx|Hx].
    + destruct LT as (-> & _). apply leaf_refs_bound in Hx. lia.
    + pose proof (node_bound h nodes leaves LT x Hx). lia.
Qed.

(** X5: a call of [induce] that returns adds one rule per line of the tree
    at most. *)
Theorem induce_adds_at_most_one_rule_per_line
  (fuel : nat) (rules rules' : list Rule) (tree : list str) :
  induce fuel rules tree = Ok rules' ->
  length rules' <= length rules + length tree.
Proof.
  intros H.
  destruct (induce_inv _ _ _ _ H) as (h & nodes & leaves & nodes2 & rules1 & Hs & H1 & H2).
  destruct (spans_inv _ _ _ _ _ _ Hs) as (h2 & Hl & S & P).
  destruct (linked_inv _ _ _ _ Hl) as (LT & h0 & Hb & S0).
  pose proof (refs_count _ _ _ LT) as Hc.
  pose proof (build_outcome tree [] [] []) as Ho. rewrite Hb in Ho.
  destruct Ho as [_ ->]. cbn [app] in S0.
  assert (length h2 = length tree).
  { destruct S0 as [-> _]. apply length_map. }
  apply add_rules_length in H1, H2.
  rewrite (Permutation_length P) in H2. lia.
Qed.

Lemma induce_adds_at_most_one_rule_per_line_witness :
  exists rules',
    induce 10 [] tree1 = Ok rules' /\ length rules' <= 0 + length tree1.
Proof.
  eexists. split; [vm_compute; reflexivity|].
  apply (induce_adds_at_most_one_rule_per_line 10 []). vm_compute. reflexivity.
Defined.

(** ** The exceptions of induce *)

Lemma link_nodes_outcome (nodes : dict) :
  forall (vs : list ref) (h : heap),
    (exists h', link_nodes nodes vs h = Ok h') \/
    link_nodes nodes vs h = Raise KeyError.
Proof.
  induction vs as [|v vs IH]; intros h; cbn [link_nodes].
  - left. eauto.
  - destruct (negb _); [|apply IH].
    destruct (dict_get nodes _) as [m|]; [apply IH|now right].
Qed.

Lemma linked_resolves
  (tree : list str) (h0 h : heap) (nodes nodes' : dict) (leaves leaves' : list ref) :
  build tree [] [] [] = Ok (h0, nodes, leaves) ->
  linked tree = Ok (h, nodes', leaves') ->
  resolves h0 nodes leaves.
Proof.
  intros Hb Hl. unfold linked in Hl. rewrite Hb in Hl. cbn [bind] in Hl.
  destruct (link_leaves nodes 0 leaves h0) as [h1| |] eqn:E1;
    cbn [bind] in Hl; try discriminate.
  destruct (link_nodes nodes (dict_values nodes) h1) as [h2| |] eqn:E2;
    cbn [bind] in Hl; try discriminate.
  split.
  - intros l Hin Hnone.
    rewrite (link_leaves_dangling nodes leaves 0 h0 l Hin Hnone) in E1.
    discriminate.
  - intros v Hin.
    destruct (str_eqb_spec (mother (get h0 v)) (lit "0")) as [E0|N0]; [now left|].
    right. intros Hnone.
    rewrite (link_nodes_dangling nodes (dict_values nodes) h1 v Hin) in E2;
      [discriminate| |]; now rewrite (link_leaves_mother _ _ _ _ _ E1).
Qed.

Lemma linked_raises (tree : list str) (e : exn) :
  linked tree = Raise e <->
  (e = IndexError /\ forallb valid_line tree = false) \/
  (e = KeyError /\
   exists h0 nodes leaves,
     build tree [] [] [] = Ok (h0, nodes, leaves) /\ ~ resolves h0 nodes leaves).
Proof.
  pose proof (build_outcome tree [] [] []) as Ho.
  destruct (build tree [] [] []) as [[[h0 nodes] leaves]|e0|] eqn:Hb;
    [|destruct Ho as [-> Hv]|destruct Ho].
  - destruct Ho as [Hv _]. split.
    + intros H. right.
      assert (e = KeyError) as ->.
      { unfold linked in H. rewrite Hb in H. cbn [bind] in H.
        destruct (link_leaves_outcome nodes leaves 0 h0) as [[h1 E1]|E1];
          rewrite E1 in H; cbn [bind] in H; [|congruence].
        destruct (link_nodes_outcome nodes (dict_values nodes) h1) as [[h2 E2]|E2];
          rewrite E2 in H; cbn [bind] in H; congruence. }
      split; [reflexivity|]. exists h0, nodes, leaves. split; [reflexivity|].
      intros R. destruct (linked_ok _ _ _ _ Hb R) as [h E]. congruence.
    + intros [[_ Hf]|[-> (h0' & nodes' & leaves' & Hb' & NR)]]; [congruence|].
      injection Hb' as <- <- <-.
      destruct (linked tree) as [[[h nodes'] leaves']|e'|] eqn:El.
      * exfalso. apply NR. apply (linked_resolves _ _ _ _ _ _ _ Hb El).
      * f_equal. unfold linked in El. rewrite Hb in El. cbn [bind] in El.
        destruct (link_leaves_outcome nodes leaves 0 h0) as [[h1 E1]|E1];
          rewrite E1 in El; cbn [bind] in El; [|congruence].
        destruct (link_nodes_outcome nodes (dict_values nodes) h1) as [[h2 E2]|E2];
          rewrite E2 in El; cbn [bind] in El; congruence.
      * exfalso. unfold linked in El. rewrite Hb in El. cbn [bind] in El.
        destruct (link_leaves_outcome nodes leaves 0 h0) as [[h1 E1]|E1];
          rewrite E1 in El; cbn [bind] in El; [|congruence].
        destruct (link_nodes_outcome nodes (dict_values nodes) h1) as [[h2 E2]|E2];
          rewrite E2 in El; cbn [bind] in El; congruence.
  - assert (El : linked tree = Raise IndexError).
    { unfold linked. now rewrite Hb. }
    rewrite El. split.
    + intros H. injection H as <-. now left.
    + intros [[-> _]|[_ (h0 & nodes & leaves & Hb' & _)]]; [reflexivity|discriminate].
Qed.

Lemma spans_ids
  (fuel : nat) (tree : list str)
  (h : heap) (nodes : dict) (leaves nodes2 : list ref) :
  spans fuel tree = Ok (h, nodes, leaves, nodes2) ->
  forall r, In r leaves \/ In r nodes2 -> id (get h r) <> [].
Proof.
  intros H r Hr.
  destruct (spans_inv _ _ _ _ _ _ H) as (h2 & Hl & [_ S] & P).
  destruct (linked_inv _ _ _ _ Hl) as [LT _].
  destruct (S r) as (-> & _).
  destruct Hr as [Hr|Hr].
  - destruct LT as (-> & _). apply leaf_refs_bound in Hr. destruct Hr as [_ Hr].
    unfold is_leaf_node in Hr. destruct (id (get h2 r)); [discriminate|discriminate].
  - apply (Permutation_in _ P) in Hr. unfold dict_values in Hr.
    apply in_map_iff in Hr. destruct Hr as ([k r'] & E & Hin). simpl in E. subst r'.
    destruct LT as (_ & _ & Hk & _). destruct (Hk _ _ Hin) as [_ ->]. discriminate.
Qed.

(** X6: the exceptions of [induce].  It raises [IndexError] exactly when a
    line of the tree has fewer than six fields or an empty first field, and
    [KeyError] exactly when all lines are accepted and a mother id does not
    resolve: that of a leaf is no key of the dictionary, or that of an
    internal node is neither "0" nor a key.  Nothing is raised once the
    daughters are linked. *)
Theorem induce_raises
  (fuel : nat) (rules : list Rule) (tree : list str) (e : exn) :
  induce fuel rules tree = Raise e <->
  (e = IndexError /\ forallb valid_line tree = false) \/
  (e = KeyError /\
   exists h0 nodes leaves,
     build tree [] [] [] = Ok (h0, nodes, leaves) /\ ~ resolves h0 nodes leaves).
Proof.
  rewrite <- linked_raises. unfold induce. split.
  - intros H.
    destruct (spans fuel tree) as [[[[h nodes] leaves] nodes2]|e'|] eqn:Es;
      cbn [bind] in H; try discriminate.
    + exfalso.
      destruct (add_rules_ok h leaves rules) as [rules1 E1].
      { intros r Hr. apply (spans_ids _ _ _ _ _ _ Es). now left. }
      rewrite E1 in H. cbn [bind] in H.
      destruct (add_rules_ok h nodes2 rules1) as [rules2 E2].
      { intros r Hr. apply (spans_ids _ _ _ _ _ _ Es). now right. }
      congruence.
    + injection H as ->. unfold spans in Es.
      destruct (linked tree) as [[[h2 nodes] leaves]|e'|]; cbn [bind] in Es;
        try discriminate; [|now injection Es as ->].
      destruct (propagate fuel _) as [st|e'|] eqn:Ep; cbn [bind] in Es;
        try discriminate.
      exfalso. apply (propagate_no_exception _ _ _ Ep).
  - intros H. unfold spans. now rewrite H.
Qed.

(** ** The rule of a leaf *)

Lemma Rule_init_leaf (h : heap) (r : ref) :
  is_leaf_node (get h r) = true ->
  exists rule,
    Rule_init h r = Ok rule /\ rhs rule = Eps /\
    form rule = label (get h r) ++ lit "(" ++ id (get h r) ++ lit ")->eps".
Proof.
  unfold is_leaf_node, Rule_init. intros H.
  destruct (id (get h r)) as [|c w] eqn:E; [discriminate|]. rewrite H.
  eexists. split; [reflexivity|]. split; [reflexivity|].
  cbn [form]. unfold Rule_mkform, Predicate_mkform.
  cbn [args name fold_left last].
  rewrite str_eqb_refl. repeat rewrite <- app_assoc. reflexivity.
Qed.

Lemma records_of_tree
  (fuel : nat) (tree : list str)
  (h : heap) (nodes : dict) (leaves nodes2 : list ref) :
  spans fuel tree = Ok (h, nodes, leaves, nodes2) ->
  same_records (map record_of tree) h /\
  leaves = leaf_refs (map record_of tree).
Proof.
  intros Hs.
  destruct (spans_inv _ _ _ _ _ _ Hs) as (h2 & Hl & S & _).
  destruct (linked_inv _ _ _ _ Hl) as (LT & h0 & Hb & S0).
  pose proof (build_built _ _ _ _ _ _ _ built_empty Hb) as (Hlv & _).
  pose proof (build_outcome tree [] [] []) as Ho. rewrite Hb in Ho.
  destruct Ho as [_ ->]. cbn [app] in *. split; [|assumption].
  destruct S0 as [L0 F0], S as [L1 F1]. split; [congruence|].
  intros r. destruct (F0 r) as (<- & <- & <-). apply F1.
Qed.

(** X7: after a call of [induce] that returns, the terminal rule of every
    leaf line of the tree is stored: its form is the label (field 2), the
    word (field 0) in parentheses, and [->eps]. *)
Theorem leaf_rule_stored
  (fuel : nat) (rules rules' : list Rule) (tree : list str) (line : str) :
  induce fuel rules tree = Ok rules' ->
  In line tree ->
  is_leaf_node (record_of line) = true ->
  In (nth 2 (split_on tab line) [] ++ lit "(" ++ nth 0 (split_on tab line) []
      ++ lit ")->eps")
     (map form rules').
Proof.
  intros H Hin Hleaf.
  destruct (induce_inv _ _ _ _ H)
    as (h & nodes & leaves & nodes2 & rules1 & Hs & H1 & H2).
  destruct (records_of_tree _ _ _ _ _ _ Hs) as [[L F] ->].
  destruct (In_nth_error _ _ Hin) as [i Hi].
  assert (Hlt : i < length tree) by (apply nth_error_Some; congruence).
  assert (G : get (map record_of tree) i = record_of line).
  { unfold get. apply nth_error_nth. now rewrite nth_error_map, Hi. }
  assert (Hl : In i (leaf_refs (map record_of tree))).
  { apply leaf_refs_bound. rewrite length_map, G. auto. }
  destruct (add_rules_inv h _ _ _ H1) as (_ & _ & St).
  destruct (St i Hl) as (rule & Hr & Hf).
  destruct (add_rules_inv h _ _ _ H2) as (_ & [new ->] & _).
  rewrite map_app. apply in_or_app. left.
  destruct (F i) as (Ei & El & _). rewrite G in Ei, El.
  destruct (Rule_init_leaf h i) as (rule' & Hr' & _ & Hf').
  { unfold is_leaf_node. rewrite Ei. exact Hleaf. }
  rewrite Hr in Hr'. injection Hr' as <-.
  rewrite Hf', Ei, El in Hf. exact Hf.
Qed.

Lemma leaf_rule_stored_witness :
  exists rules',
    induce 10 [] tree1 = Ok rules' /\
    In (lit "A(a)->eps") (map form rules').
Proof.
  eexists. split; [vm_compute; reflexivity|].
  apply (leaf_rule_stored 10 [] _ tree1 (line "a" "A" "500"));
    [vm_compute; reflexivity|now left|reflexivity].
Defined.

(** ** Trees on which the while loop does not end *)

Lemma remove_first_other (r x : ref) (l : list ref) :
  x <> r -> In x l -> In x (remove_first r l).
Proof.
  intros Hne. induction l as [|y l IH]; intros H; [destruct H|].
  cbn [remove_first]. destruct (Nat.eqb_spec r y) as [->|Hy].
  - destruct H as [->|H]; [congruence|assumption].
  - destruct H as [->|H]; [now left|right; auto].
Qed.

Lemma strID_getStrID (h : heap) (r x : ref) :
  strID (get (getStrID h r) x) = new_strID h r /\ x = r \/
  strID (get (getStrID h r) x) = strID (get h x).
Proof.
  rewrite getStrID_eq, get_upd.
  destruct (Nat.eqb_spec r x) as [->|Hne]; cbn [andb]; [|now right].
  destruct (x <? length h); [left|right]; auto.
Qed.

Section Blocked.

Variable h : heap.
Variable P : ref -> Prop.
Variable w : ref.
Hypothesis Hw : exists d, In d (daughters (get h w)) /\ P d.
Hypothesis HP :
  forall v, P v ->
            (exists d, In d (daughters (get h v)) /\ P d) \/
            daughters (get h v) = [].

Lemma blocked_not_ready (st : pstate) (v : ref) :
  blocked h P w st ->
  (exists d, In d (daughters (get h v)) /\ P d) ->
  allDaughtersHaveStrID (p_heap st) v = false.
Proof.
  intros (Hd & He & _) (d & Hin & Pd). unfold allDaughtersHaveStrID.
  destruct (forallb _ _) eqn:E; [|reflexivity].
  rewrite forallb_forall in E. rewrite Hd in E. specialize (E d Hin).
  now rewrite (He d Pd) in E.
Qed.

Lemma blocked_step (st : pstate) (r : ref) :
  blocked h P w st ->
  allDaughtersHaveStrID (p_heap st) r = true ->
  blocked h P w
          (mkPstate (getStrID (p_heap st) r)
                    (remove_first r (p_nodesval st))
                    (p_nodes2 st ++ [r])).
Proof.
  intros B Hr. pose proof B as (Hd & He & Hin).
  unfold blocked. cbn [p_heap p_nodesval]. split; [|split].
  - intros x. destruct (getStrID_frame (p_heap st) r) as [_ F]. now rewrite F.
  - intros v Pv.
    destruct (strID_getStrID (p_heap st) r v) as [[E ->]|E]; rewrite E; [|auto].
    destruct (HP r Pv) as [Hex|Hnil].
    + rewrite (blocked_not_ready st r B Hex) in Hr. discriminate.
    + unfold new_strID. rewrite Hd, Hnil. reflexivity.
  - apply remove_first_other; [|assumption]. intros Heq. rewrite <- Heq in Hr.
    rewrite (blocked_not_ready st w B Hw) in Hr. discriminate.
Qed.

Lemma scan_blocked :
  forall (n i : nat) (st : pstate),
    blocked h P w st -> blocked h P w (scan n i st).
Proof.
  induction n as [|n IH]; intros i st B; [assumption|]. cbn [scan].
  destruct (nth_error (p_nodesval st) i) as [r|]; [|assumption].
  destruct (allDaughtersHaveStrID (p_heap st) r) eqn:Er; [|now apply IH].
  apply IH. now apply blocked_step.
Qed.

Lemma propagate_blocked :
  forall (fuel : nat) (st : pstate),
    blocked h P w st -> propagate fuel st = Timeout.
Proof.
  induction fuel as [|fuel IH]; intros st B; [reflexivity|]. cbn [propagate].
  pose proof B as (_ & _ & Hin).
  destruct (p_nodesval st) as [|v vs] eqn:E; [destruct Hin|].
  rewrite <- E. apply IH. now apply scan_blocked.
Qed.

End Blocked.

Lemma induce_blocked
  (tree : list str) (h : heap) (nodes : dict) (leaves : list ref)
  (P : ref -> Prop) (w : ref) :
  linked tree = Ok (h, nodes, leaves) ->
  (exists d, In d (daughters (get h w)) /\ P d) ->
  (forall v, P v ->
             (exists d, In d (daughters (get h v)) /\ P d) \/
             daughters (get h v) = []) ->
  (forall v, P v -> In v (dict_values nodes)) ->
  In w (dict_values nodes) ->
  forall (fuel : nat) (rules : list Rule), induce fuel rules tree = Timeout.
Proof.
  intros Hl Hw HP Hn Hin fuel rules.
  destruct (linked_inv _ _ _ _ Hl) as [LT _].
  unfold induce, spans. rewrite Hl. cbn [bind].
  rewrite (propagate_blocked h P w Hw HP); [reflexivity|].
  unfold blocked. cbn [p_heap p_nodesval]. split; [reflexivity|]. split; [|assumption].
  intros v Pv. destruct LT as (_ & _ & _ & _ & _ & _ & _ & Hz). apply Hz.
  intros Hleaf. apply (leaf_not_node h nodes leaves (proj1 (linked_inv _ _ _ _ Hl)) v Hleaf).
  now apply Hn.
Qed.

Lemma cycle_node (h : heap) (nodes : dict) (v : ref) :
  dominates h nodes v v -> In v (dict_values nodes).
Proof.
  intros [n U]. apply up_last in U. destruct U as (d & _ & Hm).
  apply (mother_is_node h nodes _ _ Hm).
Qed.

Lemma cycle_daughter (h : heap) (nodes : dict) (leaves : list ref) (v : ref) :
  linked_tree h nodes leaves ->
  dominates h nodes v v ->
  exists d, In d (daughters (get h v)) /\ dominates h nodes d d.
Proof.
  intros LT [n U]. apply up_last in U. destruct U as (d & U & Hm).
  assert (Hd : dominates h nodes d d) by (exists n; econstructor; eauto).
  exists d. split; [|assumption].
  apply (daughter_iff h nodes leaves LT). split; [|assumption].
  right. now apply (cycle_node h nodes).
Qed.

(** X8: when the mother ids of a tree resolve and the mother links of some
    node lead back to it, the while loop of [induce] does not end: the call
    returns for no amount of fuel, whatever rules are stored. *)
Theorem cyclic_mothers_never_resolve
  (tree : list str) (h0 : heap) (nodes : dict) (leaves : list ref) (v : ref) :
  build tree [] [] [] = Ok (h0, nodes, leaves) ->
  resolves h0 nodes leaves ->
  dominates h0 nodes v v ->
  forall (fuel : nat) (rules : list Rule), induce fuel rules tree = Timeout.
Proof.
  intros Hb Hres Hc.
  destruct (linked_ok _ _ _ _ Hb Hres) as [h Hl].
  destruct (linked_inv _ _ _ _ Hl) as (LT & h0' & Hb' & S).
  assert (h0' = h0) by congruence. subst h0'.
  assert (Hc' : dominates h nodes v v).
  { destruct Hc as [n U]. exists n. now apply (up_same_records h0 h). }
  apply (induce_blocked tree h nodes leaves (fun x => dominates h nodes x x) v Hl).
  - now apply (cycle_daughter h nodes leaves).
  - intros x Hx. left. now apply (cycle_daughter h nodes leaves).
  - intros x Hx. now apply (cycle_node h nodes).
  - now apply (cycle_node h nodes).
Qed.

Lemma cyclic_mothers_never_resolve_witness :
  induce 1000 [] tree_cycle = Timeout.
Proof.
  refine (cyclic_mothers_never_resolve tree_cycle _ _ _ 0 _ _ _ 1000 []).
  - vm_compute. reflexivity.
  - split.
    + intros l [].
    + intros v Hv. right. vm_compute in Hv.
      destruct Hv as [<-|[<-|[]]]; vm_compute; discriminate.
  - exists 1. eapply up_S; [vm_compute; reflexivity|].
    eapply up_S; [vm_compute; reflexivity|]. apply up_O.
Defined.

Lemma barren_daughters
  (h : heap) (nodes : dict) (leaves : list ref) (v d : ref) :
  linked_tree h nodes leaves ->
  (forall l, In l leaves -> ~ dominates h nodes v l) ->
  In d (daughters (get h v)) ->
  In d (dict_values nodes) /\ forall l, In l leaves -> ~ dominates h nodes d l.
Proof.
  intros LT Hb Hd. apply (daughter_iff h nodes leaves LT) in Hd.
  destruct Hd as [Hd Hm]. split.
  - destruct Hd as [Hd|Hd]; [|assumption]. exfalso. apply (Hb d Hd).
    exists 0. econstructor; [eassumption|constructor].
  - intros l Hl [n U]. apply (Hb l Hl). exists (S n).
    now apply (up_snoc h nodes l d v (S n)).
Qed.

(** X9: when the mother ids of a tree resolve and an internal node that has
    a mother dominates no leaf, the while loop of [induce] does not end:
    such a node never gets a string ID that is not empty, so its mother is
    never resolved. *)
Theorem barren_node_never_resolves
  (tree : list str) (h0 : heap) (nodes : dict) (leaves : list ref) (v m : ref) :
  build tree [] [] [] = Ok (h0, nodes, leaves) ->
  resolves h0 nodes leaves ->
  In v (dict_values nodes) ->
  mother_of h0 nodes v = Some m ->
  (forall l, In l leaves -> ~ dominates h0 nodes v l) ->
  forall (fuel : nat) (rules : list Rule), induce fuel rules tree = Timeout.
Proof.
  intros Hb Hres Hv Hm Hbar.
  destruct (linked_ok _ _ _ _ Hb Hres) as [h Hl].
  destruct (linked_inv _ _ _ _ Hl) as (LT & h0' & Hb' & S).
  assert (h0' = h0) by congruence. subst h0'.
  assert (Hm' : mother_of h nodes v = Some m).
  { now rewrite (same_records_mother_of h0 h nodes v S). }
  assert (Hbar' : forall l, In l leaves -> ~ dominates h nodes v l).
  { intros l Hin [n U]. apply (Hbar l Hin). exists n.
    apply (up_same_records h h0); [now apply same_records_sym|assumption]. }
  apply (induce_blocked tree h nodes leaves
           (fun x => In x (dict_values nodes) /\
                     forall l, In l leaves -> ~ dominates h nodes x l) m Hl).
  - exists v. split; [|now split].
    apply (daughter_iff h nodes leaves LT). auto.
  - intros x [Hx Bx]. destruct (daughters (get h x)) as [|d ds] eqn:E; [now right|].
    left. exists d. split; [now left|].
    apply (barren_daughters h nodes leaves x d LT Bx). rewrite E. now left.
  - intros x [Hx _]. exact Hx.
  - apply (mother_is_node h nodes _ _ Hm').
Qed.

Lemma barren_node_never_resolves_witness :
  induce 1000 [] tree_childless = Timeout.
Proof.
  refine (barren_node_never_resolves tree_childless _ _ _ 1 0 _ _ _ _ _ 1000 []).
  - vm_compute. reflexivity.
  - split.
    + intros l [].
    + intros v Hv. vm_compute in Hv.
      destruct Hv as [<-|[<-|[]]]; [left|right]; vm_compute; [reflexivity|discriminate].
  - vm_compute. auto.
  - vm_compute. reflexivity.
  - intros l [].
Defined.

(** ** How many passes the while loop makes *)

(** X10: on a well-formed tree the while loop of [induce] ends after at
    most as many passes over the unresolved nodes as the dictionary has
    internal nodes, which are at most the lines of the tree: every pass
    resolves a node. *)
Theorem propagation_passes_bounded
  (tree : list str) (h0 : heap) (nodes : dict) (leaves : list ref) :
  build tree [] [] [] = Ok (h0, nodes, leaves) ->
  well_formed h0 nodes leaves ->
  length (dict_values nodes) <= length tree /\
  exists h' nodes2,
    spans (S (length (dict_values nodes))) tree = Ok (h', nodes, leaves, nodes2).
Proof.
  intros Hb (Hres & Hac & Hfe).
  destruct (linked_ok tree h0 nodes leaves Hb Hres) as [h Hl].
  destruct (linked_inv tree h nodes leaves Hl) as (LT & h0' & Hb' & S).
  assert (h0' = h0) by congruence. subst h0'.
  split.
  - pose proof (refs_count _ _ _ LT) as Hc.
    pose proof (build_outcome tree [] [] []) as Ho. rewrite Hb in Ho.
    destruct Ho as [_ ->]. cbn [app] in S. destruct S as [L _].
    rewrite length_map in L. lia.
  - assert (AC : acyclic h nodes).
    { intros v Hv. destruct (Hac v Hv) as [n Hn]. exists n.
      now apply (rooted_same_records h0 h). }
    assert (FE : fertile h nodes leaves).
    { intros v Hv. destruct (Hfe v Hv) as (l & Hin & n & Hn). exists l.
      split; [assumption|]. exists n. now apply (up_same_records h0 h). }
    destruct (propagate_terminates h nodes leaves LT AC FE
                (length (dict_values nodes))
                (mkPstate h (dict_values nodes) [])
                (pinv_start h nodes leaves LT) (le_n _))
      as (st & Hp & _).
    exists (p_heap st), (p_nodes2 st). unfold spans. rewrite Hl. cbn [bind].
    cbn [p_nodesval] in Hp. rewrite Hp. reflexivity.
Qed.

Lemma propagation_passes_bounded_witness :
  exists h' nodes nodes2,
    length (dict_values nodes) <= length tree1 /\
    spans (S (length (dict_values nodes))) tree1 = Ok (h', nodes, [0; 1; 2], nodes2).
Proof.
  destruct tree1_well_formed as (h0 & nodes & leaves & Hb & Hl & _ & W).
  destruct (propagation_passes_bounded tree1 h0 nodes leaves Hb W)
    as (Hle & h' & nodes2 & Hs).
  exists h', nodes, nodes2. rewrite <- Hl. auto.
Defined.

(** ** The trees of a file *)

Lemma append_line_last (lists : list (list str)) (cur : list str) (line : str) :
  append_line (lists ++ [cur]) (length lists) line = lists ++ [cur ++ [line]].
Proof.
  induction lists as [|l ls IH]; simpl; [reflexivity|]. now rewrite IH.
Qed.

(** the lines of a block after its [#BOS] line, with [tree] bound to the
    last object made *)
Lemma collect_block :
  forall (seg rest : list str) (lists : list (list str)) (cur : list str)
         (trees : list nat),
    Forall (fun l => is_bos l = false) seg ->
    collect (seg ++ rest)
            (mkIstate (lists ++ [cur]) (Some (length lists)) trees) =
    collect rest
            (mkIstate (lists ++ [cur ++ plain seg]) (Some (length lists))
                      (trees ++ repeat (length lists) (closings seg))).
Proof.
  induction seg as [|l seg IH]; intros rest lists cur trees Hseg.
  - cbn [app plain closings filter length repeat]. now rewrite !app_nil_r.
  - inversion Hseg as [|? ? Hl Hseg']; subst.
    cbn [app collect]. unfold collect_step. rewrite Hl. cbn [i_tree i_lists i_trees].
    unfold plain, closings. cbn [filter].
    destruct (is_eos l) eqn:El; cbn [negb length repeat].
    + rewrite (IH rest lists cur (trees ++ [length lists]) Hseg').
      unfold plain, closings. rewrite <- app_assoc. reflexivity.
    + rewrite append_line_last.
      rewrite (IH rest lists (cur ++ [l]) trees Hseg').
      unfold plain, closings. rewrite <- app_assoc. reflexivity.
Qed.

Lemma collect_blocks :
  forall (blocks : list (str * list str)) (st : istate),
    cut_at_bos blocks ->
    exists st',
      collect (blocks_lines blocks) st = inr st' /\
      i_lists st' = i_lists st ++ map (fun b => plain (snd b)) blocks /\
      (Forall (fun t => t < length (i_lists st)) (i_trees st) ->
       Forall (fun t => t < length (i_lists st')) (i_trees st') /\
       map (fun t => nth t (i_lists st') []) (i_trees st') =
       map (fun t => nth t (i_lists st) []) (i_trees st)
       ++ flat_map (fun b => repeat (plain (snd b)) (closings (snd b))) blocks).
Proof.
  induction blocks as [|[b seg] blocks IH]; intros st Hcut.
  - exists st. cbn [blocks_lines flat_map collect map]. rewrite !app_nil_r. auto.
  - inversion Hcut as [|? ? [Hb Hseg] Hcut']; subst. cbn [fst snd] in Hb, Hseg.
    unfold blocks_lines. cbn [flat_map fst snd].
    change (flat_map (fun b0 => fst b0 :: snd b0) blocks) with (blocks_lines blocks).
    cbn [app collect]. unfold collect_step. rewrite Hb.
    rewrite (collect_block seg (blocks_lines blocks) (i_lists st) [] (i_trees st) Hseg).
    cbn [app].
    destruct (IH (mkIstate (i_lists st ++ [plain seg]) (Some (length (i_lists st)))
                           (i_trees st ++ repeat (length (i_lists st)) (closings seg)))
                 Hcut') as (st' & Hc & Hl & Ht).
    cbn [i_lists i_trees] in Hl, Ht.
    exists st'. split; [exact Hc|]. split.
    + rewrite Hl, <- app_assoc. reflexivity.
    + intros Hold. destruct Ht as [Hb' Hm].
      * apply Forall_app. split.
        -- eapply Forall_impl; [|exact Hold]. intros t Ht. cbv beta in Ht.
           rewrite length_app. simpl. lia.
        -- apply Forall_forall. intros t Ht. apply repeat_spec in Ht. subst t.
           rewrite length_app. simpl. lia.
      * split; [exact Hb'|]. rewrite Hm, map_app, <- app_assoc. f_equal.
        -- apply map_ext_in. intros t Ht. rewrite Forall_forall in Hold.
           apply app_nth1. now apply Hold.
        -- cbn [flat_map snd]. f_equal.
           rewrite map_repeat. f_equal. rewrite app_nth2; [|lia].
           now rewrite Nat.sub_diag.
Qed.

(** X11: the trees [Grammar.__init__] collects.  With the lines cut at the
    [#BOS] lines, every [#EOS] line of a block appends one reference to the
    list of that block, and that list holds, when the loop has ended, all
    lines of the block that are no [#EOS] line: those after an [#EOS]
    included, since [tree.append] changes the list already appended.  A
    block without [#EOS] gives no tree, one with two gives the same tree
    twice. *)
Theorem collect_trees_blocks (blocks : list (str * list str)) :
  cut_at_bos blocks ->
  collect_trees (blocks_lines blocks) =
  inr (flat_map (fun b => repeat (plain (snd b)) (closings (snd b))) blocks).
Proof.
  intros Hcut. unfold collect_trees.
  destruct (collect_blocks blocks (mkIstate [] None []) Hcut) as (st' & -> & _ & Ht).
  cbn [i_lists i_trees] in Ht. destruct (Ht (Forall_nil _)) as [_ ->]. reflexivity.
Qed.

Lemma collect_trees_blocks_witness :
  collect_trees file_closed_twice =
  inr [ [line "a" "A" "500"; line "#500" "S" "0"];
        [line "a" "A" "500"; line "#500" "S" "0"] ].
Proof.
  apply (collect_trees_blocks
           [ (lit "#BOS 1",
              [line "a" "A" "500"; lit "#EOS 1"; line "#500" "S" "0"; lit "#EOS 1"]) ]).
  repeat constructor.
Defined.

Lemma collect_bound :
  forall (lines : list str) (st : istate),
    i_tree st <> None -> exists st', collect lines st = inr st'.
Proof.
  induction lines as [|l lines IH]; intros st Hb; [now exists st|].
  cbn [collect]. unfold collect_step.
  destruct (is_bos l); [apply IH; discriminate|].
  destruct (i_tree st) as [t|]; [|congruence].
  destruct (is_eos l); apply IH; discriminate.
Qed.

(** X12: [Grammar.__init__] raises [UnboundLocalError] exactly when the
    file has a first line and that line does not start with [#BOS];
    whatever follows a first [#BOS] line, the loop over the lines ends
    without an exception. *)
Theorem collect_trees_unbound (lines : list str) :
  collect_trees lines = inl UnboundLocalError <->
  exists l rest, lines = l :: rest /\ is_bos l = false.
Proof.
  unfold collect_trees. split.
  - destruct lines as [|l rest]; [discriminate|]. intros H. exists l, rest.
    split; [reflexivity|]. destruct (is_bos l) eqn:E; [|reflexivity].
    cbn [collect] in H. unfold collect_step in H. rewrite E in H.
    destruct (collect_bound rest
                (mkIstate (i_lists (mkIstate [] None []) ++ [[]])
                          (Some (length (i_lists (mkIstate [] None []))))
                          (i_trees (mkIstate [] None []))))
      as [st' Hc]; [discriminate|].
    rewrite Hc in H. discriminate.
  - intros (l & rest & -> & E). cbn [collect]. unfold collect_step.
    rewrite E. reflexivity.
Qed.

(** ** The order of the printed rules *)

Lemma nat_of_ascii_inj (x y : ascii) : nat_of_ascii x = nat_of_ascii y -> x = y.
Proof.
  intros E. rewrite <- (ascii_nat_embedding x), <- (ascii_nat_embedding y).
  now rewrite E.
Qed.

Lemma str_ltb_irrefl (a : str) : str_ltb a a = false.
Proof.
  induction a as [|x a IH]; [reflexivity|]. cbn [str_ltb].
  now rewrite Nat.ltb_irrefl.
Qed.

Lemma str_ltb_trans :
  forall a b c : str, str_lt a b -> str_lt b c -> str_lt a c.
Proof.
  unfold str_lt.
  induction a as [|x a IH]; intros [|y b] [|z c] H1 H2; cbn [str_ltb] in *;
    try discriminate; try reflexivity.
  destruct (Nat.ltb_spec (nat_of_ascii x) (nat_of_ascii y)),
           (Nat.ltb_spec (nat_of_ascii y) (nat_of_ascii x)),
           (Nat.ltb_spec (nat_of_ascii y) (nat_of_ascii z)),
           (Nat.ltb_spec (nat_of_ascii z) (nat_of_ascii y)),
           (Nat.ltb_spec (nat_of_ascii x) (nat_of_ascii z)),
           (Nat.ltb_spec (nat_of_ascii z) (nat_of_ascii x));
    try discriminate; try reflexivity; try lia.
  now apply (IH b c).
Qed.

Lemma str_ltb_total :
  forall a b : str, str_ltb a b = false -> str_ltb b a = false -> a = b.
Proof.
  induction a as [|x a IH]; intros [|y b] H1 H2; cbn [str_ltb] in *;
    try discriminate; try reflexivity.
  destruct (Nat.ltb_spec (nat_of_ascii x) (nat_of_ascii y)),
           (Nat.ltb_spec (nat_of_ascii y) (nat_of_ascii x));
    try discriminate; try lia.
  f_equal; [apply nat_of_ascii_inj; lia|now apply IH].
Qed.

Lemma str_lt_asym (a b : str) : str_lt a b -> str_ltb b a = false.
Proof.
  intros H. destruct (str_ltb b a) eqn:E; [|reflexivity].
  pose proof (str_ltb_trans a b a H E) as C. unfold str_lt in C.
  now rewrite str_ltb_irrefl in C.
Qed.

Lemma insert_str_perm (x : str) (l : list str) :
  Permutation (insert_str x l) (x :: l).
Proof.
  induction l as [|y l IH]; [reflexivity|]. cbn [insert_str].
  destruct (str_ltb y x); [|reflexivity]. rewrite IH. apply perm_swap.
Qed.

Lemma sort_str_perm (l : list str) : Permutation (sort_str l) l.
Proof.
  induction l as [|x l IH]; [reflexivity|]. cbn [sort_str].
  rewrite insert_str_perm. now constructor.
Qed.

Lemma insert_str_sorted (x : str) (l : list str) :
  ~ In x l -> StronglySorted str_lt l -> StronglySorted str_lt (insert_str x l).
Proof.
  induction l as [|y l IH]; intros Hx Hs; [repeat constructor|].
  inversion Hs as [|? ? Hs' Hy]; subst. cbn [insert_str].
  destruct (str_ltb y x) eqn:E.
  - constructor; [apply IH; [intros H; apply Hx; now right|assumption]|].
    apply Forall_forall. intros z Hz.
    apply (Permutation_in _ (insert_str_perm x l)) in Hz.
    destruct Hz as [<-|Hz]; [exact E|]. rewrite Forall_forall in Hy. now apply Hy.
  - assert (Hxy : str_lt x y).
    { unfold str_lt. destruct (str_ltb x y) eqn:E'; [reflexivity|].
      exfalso. apply Hx. left. symmetry. now apply str_ltb_total. }
    constructor; [assumption|]. constructor; [assumption|].
    eapply Forall_impl; [|exact Hy]. intros z Hz. now apply (str_ltb_trans x y z).
Qed.

Lemma sort_str_sorted (l : list str) :
  NoDup l -> StronglySorted str_lt (sort_str l).
Proof.
  induction l as [|x l IH]; intros Hnd; [constructor|].
  inversion Hnd as [|? ? Hx Hnd']; subst. cbn [sort_str].
  apply insert_str_sorted; [|now apply IH].
  intros H. apply Hx. now apply (Permutation_in _ (sort_str_perm l)).
Qed.

(** two ascending lists with the same elements are the same list *)
Lemma sorted_str_unique :
  forall l l' : list str,
    StronglySorted str_lt l -> StronglySorted str_lt l' ->
    (forall x, In x l <-> In x l') -> l = l'.
Proof.
  induction l as [|a l IH]; intros [|a' l'] Hs Hs' Heq.
  - reflexivity.
  - exfalso. apply (proj2 (Heq a')). now left.
  - exfalso. apply (proj1 (Heq a)). now left.
  - inversion Hs as [|? ? Hs1 Ha]; inversion Hs' as [|? ? Hs1' Ha']; subst.
    rewrite Forall_forall in Ha, Ha'.
    assert (a = a') as <-.
    { destruct (proj1 (Heq a) (or_introl eq_refl)) as [E|Hin]; [now symmetry|].
      destruct (proj2 (Heq a') (or_introl eq_refl)) as [E|Hin']; [assumption|].
      pose proof (str_lt_asym _ _ (Ha _ Hin')) as C.
      rewrite (Ha' _ Hin) in C. discriminate. }
    f_equal. apply IH; auto. intros x. split; intros Hx.
    + destruct (proj1 (Heq x) (or_intror Hx)) as [<-|H]; [|assumption].
      pose proof (Ha _ Hx) as C. unfold str_lt in C.
      rewrite str_ltb_irrefl in C. discriminate.
    + destruct (proj2 (Heq x) (or_intror Hx)) as [<-|H]; [|assumption].
      pose proof (Ha' _ Hx) as C. unfold str_lt in C.
      rewrite str_ltb_irrefl in C. discriminate.
Qed.

(** X13: what [pprint] prints for a grammar made by [Grammar.__init__]: the
    forms of the stored rules, each once, in strictly ascending order of
    the strings; [pwrite] writes the same lines. *)
Theorem pprint_ascending
  (fuel : nat) (trees : list (list str)) (rules : list Rule) :
  Grammar_induce_all fuel [] trees = Ok rules ->
  StronglySorted str_lt (pprint rules) /\
  Permutation (pprint rules) (map form rules) /\
  pwrite rules = flat_map (fun l => l ++ [newline]) (pprint rules).
Proof.
  intros H. destruct (Grammar_induce_all_NoDup fuel _ _ _ H) as [Hnd _].
  unfold pprint, pwrite. split; [|split; [apply sort_str_perm|reflexivity]].
  apply sort_str_sorted, Hnd. constructor.
Qed.

Lemma pprint_ascending_witness :
  map string_of_str
      (pprint (match Grammar_induce_all 10 [] [tree1] with
               | Ok rules => rules
               | _ => []
               end))
  = [ "A(a)->eps"; "B(b)->eps"; "C(c)->eps"; "S(X_1X_0X_2)->B(X_0)VP(X_1,X_2)";
      "VP(X_0,X_1)->A(X_0)C(X_1)" ]%string /\
  exists rules,
    Grammar_induce_all 10 [] [tree1] = Ok rules /\
    StronglySorted str_lt (pprint rules).
Proof.
  split; [vm_compute; reflexivity|].
  eexists. split; [vm_compute; reflexivity|].
  eapply (pprint_ascending 10 [tree1]). vm_compute. reflexivity.
Defined.

(** ** The order of the trees *)

Lemma add_rule_forms (rules : list Rule) (newrule : Rule) (x : str) :
  In x (map form (add_rule rules newrule)) <->
  In x (map form rules) \/ form newrule = x.
Proof.
  destruct (add_rule_cases rules newrule) as [[Hin ->]|[_ ->]].
  - split; [auto|]. intros [H|<-]; assumption.
  - rewrite map_app, in_app_iff. cbn [map In]. tauto.
Qed.

Lemma add_rules_forms (h : heap) :
  forall (rs : list ref) (rules rules' : list Rule),
    add_rules h rs rules = Ok rules' ->
    forall x,
      In x (map form rules') <->
      In x (map form rules) \/
      exists r rule, In r rs /\ Rule_init h r = Ok rule /\ form rule = x.
Proof.
  induction rs as [|r rs IH]; intros rules rules' H x; cbn [add_rules] in H.
  - injection H as <-. split; [auto|]. intros [H|(r & rule & [] & _)]. exact H.
  - destruct (Rule_init h r) as [rule| |] eqn:Er; cbn [bind] in H; try discriminate.
    rewrite (IH _ _ H x), add_rule_forms. split.
    + intros [[H1|H1]|(r' & rule' & Hin & Hr & Hf)]; [now left| |].
      * right. exists r, rule. split; [now left|auto].
      * right. exists r', rule'. split; [now right|auto].
    + intros [H1|(r' & rule' & [<-|Hin] & Hr & Hf)]; [now left; left| |].
      * left. right. congruence.
      * right. exists r', rule'. auto.
Qed.

Lemma add_rules_any (h : heap) :
  forall (rs : list ref) (rules rules' : list Rule),
    add_rules h rs rules = Ok rules' ->
    forall rules2, exists rules2', add_rules h rs rules2 = Ok rules2'.
Proof.
  induction rs as [|r rs IH]; intros rules rules' H rules2; cbn [add_rules] in *.
  - eauto.
  - destruct (Rule_init h r) as [rule| |]; cbn [bind] in *; try discriminate.
    apply (IH _ _ H).
Qed.

Lemma induce_forms
  (fuel : nat) (rules rules' : list Rule) (tree : list str) :
  induce fuel rules tree = Ok rules' ->
  forall x, In x (map form rules') <->
            In x (map form rules) \/ tree_form fuel tree x.
Proof.
  intros H x.
  destruct (induce_inv _ _ _ _ H)
    as (h & nodes & leaves & nodes2 & rules1 & Hs & H1 & H2).
  rewrite (add_rules_forms h _ _ _ H2 x), (add_rules_forms h _ _ _ H1 x).
  unfold tree_form. split.
  - intros [[Hx|(r & rule & Hin & Hr & Hf)]|(r & rule & Hin & Hr & Hf)];
      [now left| |]; right; exists h, nodes, leaves, nodes2, r, rule;
      (split; [assumption|]); (split; [apply in_or_app; auto|auto]).
  - intros [Hx|(h' & nodes' & leaves' & nodes2' & r & rule & Hs' & Hin & Hr & Hf)];
      [now left; left|].
    rewrite Hs in Hs'. injection Hs' as <- <- <- <-.
    apply in_app_or in Hin. destruct Hin as [Hin|Hin].
    + left. right. exists r, rule. auto.
    + right. exists r, rule. auto.
Qed.

Lemma induce_any
  (fuel : nat) (rules rules' : list Rule) (tree : list str) :
  induce fuel rules tree = Ok rules' ->
  forall rules2, exists rules2', induce fuel rules2 tree = Ok rules2'.
Proof.
  intros H rules2.
  destruct (induce_inv _ _ _ _ H)
    as (h & nodes & leaves & nodes2 & rules1 & Hs & H1 & H2).
  unfold induce. rewrite Hs. cbn [bind].
  destruct (add_rules_any h _ _ _ H1 rules2) as [r1 E1]. rewrite E1. cbn [bind].
  apply (add_rules_any h _ _ _ H2).
Qed.

Lemma Grammar_induce_all_forms (fuel : nat) :
  forall (trees : list (list str)) (rules rules' : list Rule),
    Grammar_induce_all fuel rules trees = Ok rules' ->
    (forall x, In x (map form rules') <->
               In x (map form rules) \/
               exists tree, In tree trees /\ tree_form fuel tree x) /\
    (forall tree, In tree trees ->
       forall rules2, exists rules2', induce fuel rules2 tree = Ok rules2').
Proof.
  induction trees as [|tree trees IH]; intros rules rules' H;
    cbn [Grammar_induce_all] in H.
  - injection H as <-. split.
    + intros x. split; [auto|]. intros [Hx|(t & [] & _)]. exact Hx.
    + intros t [].
  - destruct (induce fuel rules tree) as [rules1| |] eqn:Ei; cbn [bind] in H;
      try discriminate.
    destruct (IH _ _ H) as [Hf Ha]. split.
    + intros x. rewrite (Hf x), (induce_forms _ _ _ _ Ei x). split.
      * intros [[Hx|Hx]|(t & Hin & Ht)]; [now left| |].
        -- right. exists tree. split; [now left|assumption].
        -- right. exists t. split; [now right|assumption].
      * intros [Hx|(t & [<-|Hin] & Ht)]; [now left; left|now left; right|].
        right. exists t. auto.
    + intros t [<-|Hin]; [apply (induce_any _ _ _ _ Ei)|now apply Ha].
Qed.

Lemma Grammar_induce_all_returns (fuel : nat) :
  forall (trees : list (list str)) (rules : list Rule),
    (forall tree, In tree trees ->
       forall rules2, exists rules2', induce fuel rules2 tree = Ok rules2') ->
    exists rules', Grammar_induce_all fuel rules trees = Ok rules'.
Proof.
  induction trees as [|tree trees IH]; intros rules Ha; cbn [Grammar_induce_all].
  - eauto.
  - destruct (Ha tree (or_introl eq_refl) rules) as [rules1 E]. rewrite E.
    cbn [bind]. apply IH. intros t Hin. apply Ha. now right.
Qed.

Lemma pprint_same_forms (rules rules' : list Rule) :
  NoDup (map form rules) -> NoDup (map form rules') ->
  (forall x, In x (map form rules') <-> In x (map form rules)) ->
  pprint rules' = pprint rules /\ pwrite rules' = pwrite rules.
Proof.
  intros Hnd Hnd' Hsame.
  assert (E : sort_str (map form rules') = sort_str (map form rules)).
  { apply sorted_str_unique; [now apply sort_str_sorted|now apply sort_str_sorted|].
    intros x. split; intros Hx;
      apply (Permutation_in _ (Permutation_sym (sort_str_perm _)));
      apply (Permutation_in _ (sort_str_perm _)) in Hx; now apply Hsame. }
  unfold pprint, pwrite. now rewrite E.
Qed.

Lemma same_trees_same_forms
  (fuel : nat) (trees trees' : list (list str)) (rules : list Rule) :
  (forall tree, In tree trees <-> In tree trees') ->
  Grammar_induce_all fuel [] trees = Ok rules ->
  exists rules',
    Grammar_induce_all fuel [] trees' = Ok rules' /\
    NoDup (map form rules) /\ NoDup (map form rules') /\
    forall x, In x (map form rules') <-> In x (map form rules).
Proof.
  intros Hsame H.
  destruct (Grammar_induce_all_forms fuel _ _ _ H) as [Hf Ha].
  destruct (Grammar_induce_all_returns fuel trees' []) as [rules' H'].
  { intros t Hin. apply Ha. now apply Hsame. }
  destruct (Grammar_induce_all_forms fuel _ _ _ H') as [Hf' _].
  destruct (Grammar_induce_all_NoDup fuel _ _ _ H) as [Hnd _].
  destruct (Grammar_induce_all_NoDup fuel _ _ _ H') as [Hnd' _].
  exists rules'. split; [assumption|].
  split; [apply Hnd; constructor|]. split; [apply Hnd'; constructor|].
  intros x. rewrite (Hf x), (Hf' x). split.
  - intros [Hx|(t & Hin & Ht)]; [now left|].
    right. exists t. split; [now apply Hsame|assumption].
  - intros [Hx|(t & Hin & Ht)]; [now left|].
    right. exists t. split; [now apply Hsame|assumption].
Qed.

(** X14: the grammar printed does not depend on the order of the trees, nor
    on how often a tree occurs: when the loop over [trees] returns, it
    returns on every list with the same trees, and [pprint] and [pwrite]
    give the same output. *)
Theorem output_independent_of_tree_order
  (fuel : nat) (trees trees' : list (list str)) (rules : list Rule) :
  (forall tree, In tree trees <-> In tree trees') ->
  Grammar_induce_all fuel [] trees = Ok rules ->
  exists rules',
    Grammar_induce_all fuel [] trees' = Ok rules' /\
    pprint rules' = pprint rules /\
    pwrite rules' = pwrite rules.
Proof.
  intros Hsame H.
  destruct (same_trees_same_forms fuel trees trees' rules Hsame H)
    as (rules' & H' & Hnd & Hnd' & Hf).
  exists rules'. split; [assumption|].
  now apply pprint_same_forms.
Qed.

Lemma output_independent_of_tree_order_witness :
  exists rules rules',
    Grammar_induce_all 10 [] [tree1; tree_repeated_id] = Ok rules /\
    Grammar_induce_all 10 [] [tree_repeated_id; tree1; tree_repeated_id] = Ok rules' /\
    map form rules <> map form rules' /\
    pprint rules' = pprint rules /\
    pwrite rules' = pwrite rules.
Proof.
  eexists. 
  destruct (output_independent_of_tree_order 10
              [tree1; tree_repeated_id] [tree_repeated_id; tree1; tree_repeated_id]
              _ (fun t => conj (fun H => or_intror H)
                               (fun H => match H with
                                         | or_introl E => or_intror (or_introl E)
                                         | or_intror H' => H'
                                         end))
              eq_refl) as (rules' & H' & Hp & Hw).
  exists rules'. split; [reflexivity|]. split; [exact H'|]. split; [|auto].
  vm_compute in H'. injection H' as <-. vm_compute. discriminate.
Defined.

(** ** Removing from the list that is iterated *)

Lemma remove_first_In (r x : ref) (l : list ref) :
  In x (remove_first r l) -> In x l.
Proof.
  induction l as [|y l IH]; [auto|]. cbn [remove_first].
  destruct (Nat.eqb r y); [now right|]. intros [H|H]; [now left|right; auto].
Qed.

Lemma remove_first_NoDup (r : ref) (l : list ref) :
  NoDup l -> NoDup (remove_first r l).
Proof.
  induction 1 as [|y l Hy Hnd IH]; [constructor|]. cbn [remove_first].
  destruct (Nat.eqb r y); [assumption|]. constructor; [|assumption].
  intros H. apply Hy. now apply (remove_first_In r).
Qed.

(** without repeats, removing the element at index [j] keeps the elements
    before it in place and moves the later ones one index down *)
Lemma remove_first_nth :
  forall (l : list ref) (j k : nat) (r : ref),
    NoDup l -> nth_error l j = Some r ->
    nth_error (remove_first r l) k =
    if k <? j then nth_error l k else nth_error l (S k).
Proof.
  induction l as [|y l IH]; intros j k r Hnd Hj; [now destruct j|].
  inversion Hnd as [|? ? Hy Hnd']; subst. cbn [remove_first].
  destruct j as [|j]; cbn [nth_error] in Hj.
  - injection Hj as ->. rewrite Nat.eqb_refl. reflexivity.
  - destruct (Nat.eqb_spec r y) as [->|Hne].
    + exfalso. apply Hy. eapply nth_error_In; eauto.
    + destruct k as [|k]; [reflexivity|]. cbn [nth_error].
      rewrite (IH j k r Hnd' Hj). reflexivity.
Qed.

Lemma scan_keeps_before :
  forall (n j : nat) (st : pstate) (k : nat),
    NoDup (p_nodesval st) -> k < j ->
    nth_error (p_nodesval (scan n j st)) k = nth_error (p_nodesval st) k.
Proof.
  induction n as [|n IH]; intros j st k Hnd Hk; [reflexivity|]. cbn [scan].
  destruct (nth_error (p_nodesval st) j) as [r|] eqn:Ej; [|reflexivity].
  destruct (allDaughtersHaveStrID (p_heap st) r); [|apply IH; auto].
  rewrite IH; cbn [p_nodesval]; [|now apply remove_first_NoDup|lia].
  rewrite (remove_first_nth _ j k r Hnd Ej).
  destruct (Nat.ltb_spec k j); [reflexivity|lia].
Qed.

(** X15: the pass [for node in nodesval] skips the node that follows a
    resolved one.  When the node at index [i] is resolved and removed, the
    node that stood at index [i + 1] takes its place and is not examined in
    this pass: it is still in [nodesval], at index [i], when the pass ends,
    even if all its daughters have a string ID. *)
Theorem scan_skips_next
  (n i : nat) (st : pstate) (a b : ref) :
  NoDup (p_nodesval st) ->
  nth_error (p_nodesval st) i = Some a ->
  allDaughtersHaveStrID (p_heap st) a = true ->
  nth_error (p_nodesval st) (S i) = Some b ->
  nth_error (p_nodesval (scan (S n) i st)) i = Some b.
Proof.
  intros Hnd Ha Hr Hb. cbn [scan]. rewrite Ha, Hr.
  rewrite scan_keeps_before; cbn [p_nodesval];
    [|now apply remove_first_NoDup|lia].
  rewrite (remove_first_nth _ i i a Hnd Ha). now rewrite Nat.ltb_irrefl.
Qed.

Lemma scan_skips_next_witness :
  allDaughtersHaveStrID [noNode; noNode] 1 = true /\
  nth_error (p_nodesval (scan 2 0 (mkPstate [noNode; noNode] [0; 1] []))) 0
  = Some 1.
Proof.
  split; [reflexivity|].
  apply (scan_skips_next 1 0 (mkPstate [noNode; noNode] [0; 1] []) 0 1);
    [repeat constructor; simpl; intuition congruence|reflexivity|reflexivity
    |reflexivity].
Defined.

(** ** The order of the sentences in the file *)

Lemma blocks_trees_In (blocks blocks' : list (str * list str)) :
  Permutation blocks blocks' ->
  forall tree,
    In tree (flat_map (fun b => repeat (plain (snd b)) (closings (snd b))) blocks)
    <->
    In tree (flat_map (fun b => repeat (plain (snd b)) (closings (snd b))) blocks').
Proof.
  intros P tree. rewrite !in_flat_map. split; intros (b & Hb & Ht); exists b;
    (split; [|assumption]).
  - now apply (Permutation_in _ P).
  - now apply (Permutation_in _ (Permutation_sym P)).
Qed.

Lemma Grammar_init_blocks (fuel : nat) (blocks : list (str * list str)) :
  cut_at_bos blocks ->
  Grammar_init fuel (blocks_lines blocks) =
  inr (Grammar_induce_all fuel []
         (flat_map (fun b => repeat (plain (snd b)) (closings (snd b))) blocks)).
Proof.
  intros Hcut. unfold Grammar_init, collect_trees.
  destruct (collect_blocks blocks (mkIstate [] None []) Hcut) as (st' & -> & _ & Ht).
  cbn [i_lists i_trees] in Ht. destruct (Ht (Forall_nil _)) as [_ ->]. reflexivity.
Qed.

(** X16: the grammar [Grammar.__init__] makes from a file does not depend
    on the order of the sentences: with the blocks of the file (a [#BOS]
    line and the lines up to the next one) in another order, the
    constructor returns as well, and [pprint] and [pwrite] give the same
    output. *)
Theorem output_independent_of_sentence_order
  (fuel : nat) (blocks blocks' : list (str * list str)) (rules : list Rule) :
  cut_at_bos blocks ->
  Permutation blocks blocks' ->
  Grammar_init fuel (blocks_lines blocks) = inr (Ok rules) ->
  exists rules',
    Grammar_init fuel (blocks_lines blocks') = inr (Ok rules') /\
    pprint rules' = pprint rules /\
    pwrite rules' = pwrite rules.
Proof.
  intros Hcut P H.
  assert (Hcut' : cut_at_bos blocks').
  { unfold cut_at_bos in *. rewrite Forall_forall in *. intros b Hb.
    apply Hcut. now apply (Permutation_in _ (Permutation_sym P)). }
  rewrite (Grammar_init_blocks fuel blocks Hcut) in H. injection H as H.
  rewrite (Grammar_init_blocks fuel blocks' Hcut').
  destruct (same_trees_same_forms fuel _ _ rules (blocks_trees_In _ _ P) H)
    as (rules' & H' & Hnd & Hnd' & Hf).
  exists rules'. split; [now rewrite H'|].
  now apply pprint_same_forms.
Qed.

Lemma output_independent_of_sentence_order_witness :
  exists rules rules',
    Grammar_init 10 (blocks_lines [sentence1; sentence2]) = inr (Ok rules) /\
    Grammar_init 10 (blocks_lines [sentence2; sentence1]) = inr (Ok rules') /\
    map form rules <> map form rules' /\
    pprint rules' = pprint rules /\
    pwrite rules' = pwrite rules.
Proof.
  eexists.
  destruct (output_independent_of_sentence_order 10
              [sentence1; sentence2] [sentence2; sentence1] _
              ltac:(repeat constructor) (perm_swap _ _ _) eq_refl)
    as (rules' & H' & Hp & Hw).
  exists rules'. split; [reflexivity|]. split; [exact H'|]. split; [|auto].
  vm_compute in H'. injection H' as <-. vm_compute. discriminate.
Defined.

(** ** The number of arguments of a rule *)

(** X17: the contraction changes no number of arguments.  The rule of an
    internal node has the node's label and as many left-hand-side arguments
    as [findArgs] returns for the node; its right-hand side has one
    predicate per daughter, in order, with the daughter's label and as many
    arguments as [findArgs] returns for the daughter. *)
Theorem Rule_init_keeps_arity (h : heap) (r : ref) (key : str) :
  id (get h r) = hash :: key ->
  exists largs ps,
    Rule_init h r
    = Ok (mkRule (mkPredicate (label (get h r)) largs) (Preds ps)
                 (Rule_mkform (mkPredicate (label (get h r)) largs) (Preds ps))) /\
    length largs = length (findArgs h r) /\
    map name ps = map (fun d => label (get h d)) (daughters (get h r)) /\
    map (fun p => length (args p)) ps
    = map (fun d => length (findArgs h d)) (daughters (get h r)).
Proof.
  intros Hid. unfold Rule_init. rewrite Hid.
  unfold hash at 1. cbn [Ascii.eqb Bool.eqb negb andb].
  set (rhs0 := map (fun d => mkPredicate (label (get h d)) (findArgs h d))
                   (daughters (get h r))).
  pose proof (contract_length rhs0 0%Z (findArgs h r)) as [Hl Hp].
  pose proof (contract_names rhs0 0%Z (findArgs h r)) as Hn.
  destruct (contract rhs0 0 (findArgs h r)) as [[largs ps] count].
  cbn [fst snd] in *. exists largs, ps. split; [reflexivity|].
  split; [assumption|]. subst rhs0. rewrite map_map in Hn, Hp. auto.
Qed.

Lemma Rule_init_keeps_arity_witness :
  exists largs ps,
    Rule_init heap_two_leaves 2
    = Ok (mkRule (mkPredicate (label (get heap_two_leaves 2)) largs) (Preds ps)
                 (Rule_mkform (mkPredicate (label (get heap_two_leaves 2)) largs)
                              (Preds ps))) /\
    length largs = length (findArgs heap_two_leaves 2) /\
    map name ps
    = map (fun d => label (get heap_two_leaves d)) (daughters (get heap_two_leaves 2)) /\
    map (fun p => length (args p)) ps
    = map (fun d => length (findArgs heap_two_leaves d))
          (daughters (get heap_two_leaves 2)).
Proof.
  apply (Rule_init_keeps_arity heap_two_leaves 2 (tl (id (get heap_two_leaves 2)))).
  reflexivity.
Defined.

(** ** The two branches of getStrID *)

Lemma insert_sorted_head (x : Z) (l : list Z) :
  Forall (Z.le x) l -> insert_sorted x l = x :: l.
Proof.
  intros H. destruct l as [|y l]; [reflexivity|]. cbn [insert_sorted].
  inversion H as [|? ? Hxy _]; subst.
  destruct (Z.leb_spec x y); [reflexivity|lia].
Qed.

Lemma sort_of_sorted (l : list Z) : StronglySorted Z.le l -> sort l = l.
Proof.
  induction 1 as [|x l Hs IH Hx]; [reflexivity|]. cbn [sort].
  rewrite IH. now apply insert_sorted_head.
Qed.

(** X18: the branch of [getStrID] for a node with one daughter is a
    shortcut: as long as the daughter's string ID is ascending, it sets
    what the general branch would set, the sorted concatenation of the
    daughters' string IDs. *)
Theorem getStrID_shortcut (h : heap) (r : ref) :
  (forall d, daughters (get h r) = [d] ->
             StronglySorted Z.le (strID (get h d))) ->
  getStrID h r
  = upd h r (set_strID (sort (flat_map (fun d => strID (get h d))
                                       (daughters (get h r))))).
Proof.
  intros H. unfold getStrID.
  destruct (daughters (get h r)) as [|d [|d' ds]]; try reflexivity.
  cbn [flat_map]. rewrite app_nil_r, (sort_of_sorted _ (H d eq_refl)). reflexivity.
Qed.

Lemma getStrID_shortcut_witness :
  daughters (get heap_one_daughter 1) = [0] /\
  getStrID heap_one_daughter 1
  = upd heap_one_daughter 1
        (set_strID (sort (flat_map (fun d => strID (get heap_one_daughter d))
                                   (daughters (get heap_one_daughter 1))))).
Proof.
  split; [reflexivity|].
  apply (getStrID_shortcut heap_one_daughter 1).
  intros d E. injection E as <-. repeat constructor.
Defined.

(** ** The options of main *)

Lemma last_cons_default (A : Type) :
  forall (l : list A) (x d : A), last (x :: l) d = last l x.
Proof.
  induction l as [|y l IH]; intros x d; [reflexivity|].
  change (last (x :: y :: l) d) with (last (y :: l) d). now rewrite !IH.
Qed.

Lemma main_opts_no_help :
  forall (opts : list (str * str)) (f_out : option str),
    ~ In (lit "-h") (map fst opts) ->
    main_opts opts f_out
    = inr (last (map (fun oa => Some (snd oa))
                     (filter (fun oa => str_eqb (fst oa) (lit "-o")) opts))
                f_out).
Proof.
  induction opts as [|[o a] opts IH]; intros f_out Hh; [reflexivity|].
  cbn [main_opts map filter fst snd In] in *.
  destruct (str_eqb_spec o (lit "-h")) as [->|Nh]; [exfalso; auto|].
  assert (Hh' : ~ In (lit "-h") (map fst opts)) by auto.
  destruct (str_eqb o (lit "-o")); rewrite (IH _ Hh'); [|reflexivity].
  cbn [map snd]. now rewrite last_cons_default.
Qed.

Lemma main_opts_help :
  forall (opts : list (str * str)) (f_out : option str),
    In (lit "-h") (map fst opts) -> main_opts opts f_out = inl helptext.
Proof.
  induction opts as [|[o a] opts IH]; intros f_out Hh; [destruct Hh|].
  cbn [main_opts map fst In] in *.
  destruct (str_eqb_spec o (lit "-h")) as [->|Nh]; [reflexivity|].
  destruct Hh as [E|Hh]; [congruence|].
  destruct (str_eqb o (lit "-o")); now apply IH.
Qed.

(** X19: the options of [main].  An option [-h] anywhere among the options
    makes [main] return the help text, before the input file is looked at
    and whatever other options are given.  Without [-h], [main] raises
    [IndexError] when no input file is given, and otherwise induces from
    the first argument and writes on the file of the last [-o], or prints
    when there is no [-o]. *)
Theorem main_options (opts : list (str * str)) (args : list str) :
  (In (lit "-h") (map fst opts) -> main opts args = Help helptext) /\
  (~ In (lit "-h") (map fst opts) ->
   main opts args = match args with
                    | [] => NoInputFile
                    | f :: _ => Induce_from f (last_output opts)
                    end).
Proof.
  unfold main, last_output. split; intros H.
  - now rewrite main_opts_help.
  - now rewrite main_opts_no_help.
Qed.

(** ** The text of a rule *)

Lemma last_nth_eq (A : Type) (d : A) :
  forall l : list A, last l d = nth (length l - 1) l d.
Proof.
  induction l as [|x [|y l] IH]; try reflexivity.
  change (last (x :: y :: l) d) with (last (y :: l) d). rewrite IH.
  cbn [length]. replace (S (S (length l)) - 1) with (S (S (length l) - 1)) by lia.
  reflexivity.
Qed.

Lemma mkform_distinct_args (p : Predicate) :
  args p <> [] -> NoDup (args p) -> Predicate_mkform p = pred_text p.
Proof.
  intros Hne Hnd. unfold Predicate_mkform, pred_text.
  rewrite (mkform_fold (last (args p) []) (args p) (name p ++ lit "(") Hne eq_refl).
  - now rewrite <- app_assoc.
  - intros i Hi E. rewrite last_nth_eq in E.
    apply (proj1 (NoDup_nth (args p) []) Hnd) in E; lia.
Qed.

Lemma fold_pred_text (ps : list Predicate) :
  Forall (fun p => Predicate_mkform p = pred_text p) ps ->
  forall acc : str,
    fold_left (fun form pred => form ++ Predicate_mkform pred) ps acc
    = acc ++ flat_map pred_text ps.
Proof.
  induction 1 as [|p ps Hp Hps IH]; intros acc; cbn [fold_left flat_map].
  - now rewrite app_nil_r.
  - now rewrite IH, Hp, app_assoc.
Qed.

Lemma fresh_vars_distinct (k : Z) (n : nat) :
  (0 <= k)%Z -> NoDup (fresh_vars k n).
Proof.
  intros Hk. unfold fresh_vars. apply NoDup_map_NoDup_ForallPairs; [|apply seq_NoDup].
  intros i j _ _ E. apply var_inj in E; lia.
Qed.

Lemma contracted_text (items : list item) :
  Forall (fun it => snd it <> []) items ->
  forall k : Z,
    (0 <= k)%Z ->
    Forall (fun p => Predicate_mkform p = pred_text p) (contracted items k).
Proof.
  induction 1 as [|[nm rs] items Hrs Hit IH]; intros k Hk; cbn [contracted];
    constructor.
  - cbn [snd] in Hrs. apply mkform_distinct_args; cbn [args].
    + destruct rs; [congruence|discriminate].
    + now apply fresh_vars_distinct.
  - apply IH. lia.
Qed.

Lemma contracted_distinct (items : list item) :
  forall k : Z,
    (0 <= k)%Z -> Forall (fun p => NoDup (args p)) (contracted items k).
Proof.
  induction items as [|[nm rs] items IH]; intros k Hk; cbn [contracted];
    constructor.
  - cbn [args]. now apply fresh_vars_distinct.
  - apply IH. lia.
Qed.

(** the parts of a list without repeats *)
Lemma concat_parts (A : Type) :
  forall L : list (list A),
    NoDup (concat L) -> Forall (fun X => X <> []) L ->
    NoDup L /\
    Forall (fun X => NoDup X) L /\
    forall X Y p, In X L -> In Y L -> In p X -> In p Y -> X = Y.
Proof.
  induction L as [|X0 L IH]; intros Hnd Hne.
  - split; [constructor|]. split; [constructor|]. intros X Y p [].
  - cbn [concat] in Hnd. inversion Hne as [|? ? HX Hne']; subst.
    destruct (IH (NoDup_app_remove_l _ _ Hnd) Hne') as (H1 & H2 & H3).
    assert (Hdis : forall p X, In p X0 -> In X L -> ~ In p X).
    { intros p X Hp HX' Hp'. apply (NoDup_app_disjoint A X0 (concat L) p Hnd Hp).
      apply in_concat. eauto. }
    split; [|split].
    + constructor; [|assumption]. intros Hin.
      destruct X0 as [|p X0]; [congruence|].
      apply (Hdis p (p :: X0)); auto; now left.
    + constructor; [|assumption]. now apply NoDup_app_remove_r in Hnd.
    + intros X Y p [<-|HX'] [<-|HY'] Hp Hp'; auto.
      * exfalso. now apply (Hdis p Y).
      * exfalso. now apply (Hdis p X).
      * now apply (H3 X Y p).
Qed.

Lemma find_run_spec (q : Z) :
  forall (done : list (list Z)) (c v : Z) (b : bool),
    find_run done c q = Some (v, b) ->
    (c <= v)%Z /\
    exists r, nth_error done (Z.to_nat (v - c)) = Some r /\
              In q r /\ b = heads q r.
Proof.
  induction done as [|r0 done IH]; intros c v b H; [discriminate|].
  cbn [find_run] in H. destruct (in_run q r0) eqn:E.
  - injection H as <- <-. split; [lia|]. exists r0.
    rewrite Z.sub_diag. split; [reflexivity|]. split; [now apply in_run_In|reflexivity].
  - destruct (IH _ _ _ H) as (Hle & r & Hn & Hq & Hb). split; [lia|].
    exists r. replace (Z.to_nat (v - c)) with (S (Z.to_nat (v - (c + 1)))) by lia.
    auto.
Qed.

Lemma var_head_inj (c c' : Z) (u u' : str) :
  (0 <= c)%Z -> (0 <= c')%Z -> endok u -> endok u' ->
  var c ++ u = var c' ++ u' -> c = c'.
Proof.
  intros Hc Hc' Hu Hu' E. unfold var in E. cbn in E. injection E as E.
  destruct (digits_prefix (str_of_Z c) (str_of_Z c') u u' [])
    as [[t Et] _]; auto using str_of_Z_digits.
  { now rewrite app_nil_r. }
  destruct (digits_prefix (str_of_Z c') (str_of_Z c) u' u [])
    as [[t' Et'] _]; auto using str_of_Z_digits.
  { now rewrite app_nil_r. }
  assert (Hl : length t = 0).
  { apply (f_equal (@length ascii)) in Et, Et'.
    rewrite length_app in Et, Et'. lia. }
  destruct t; [|discriminate]. rewrite app_nil_r in Et.
  apply str_of_Z_inj; auto.
Qed.

Section LhsArguments.

Variable s : list Z.
Hypothesis s_sorted : StronglySorted Z.lt s.
Hypothesis s_nonneg : Forall (fun q => (0 <= q)%Z) s.
Variable done : list (list Z).
Hypothesis done_runs : Forall (run_of s) done.
Hypothesis done_covers : forall q, In q s -> In q (concat done).

Lemma components_parts :
  NoDup (components s) /\
  Forall (fun X => NoDup X) (components s) /\
  forall X Y p, In X (components s) -> In Y (components s) ->
                In p X -> In p Y -> X = Y.
Proof.
  apply concat_parts.
  - rewrite components_concat. now apply sorted_NoDup.
  - eapply Forall_impl; [|apply components_runs]. now intros X [H _].
Qed.

(** the first position of a component starts the run that holds it *)
Lemma component_head_starts (p : Z) (C : list Z) :
  In (p :: C) (components s) ->
  exists v, (0 <= v)%Z /\ tokf done p = [TX v] /\
            exists r, nth_error done (Z.to_nat v) = Some (p :: r).
Proof.
  intros HC.
  assert (Hp : In p s).
  { rewrite <- (components_concat s). apply in_concat. exists (p :: C).
    split; [assumption|now left]. }
  destruct (find_run_covered p done 0 (done_covers p Hp)) as (v & b & Hf).
  destruct (find_run_spec p done 0 v b Hf) as (Hv & r & Hn & Hq & Hb).
  rewrite Z.sub_0_r in Hn.
  assert (Hr : run_of s r).
  { rewrite Forall_forall in done_runs. apply done_runs.
    eapply nth_error_In; eauto. }
  destruct Hr as (Hne & Hcont & Hsub).
  destruct (run_in_component s s_sorted r Hne Hcont Hsub)
    as (Cpre & A & B & Cpost & Hcomp).
  destruct components_parts as (_ & Hnd & Hsame).
  assert (Hin : In (A ++ r ++ B) (components s)).
  { rewrite Hcomp. apply in_or_app. right. now left. }
  assert (E : p :: C = A ++ r ++ B).
  { apply (Hsame _ _ p HC Hin); [now left|].
    apply in_or_app. right. apply in_or_app. now left. }
  rewrite Forall_forall in Hnd. specialize (Hnd _ Hin).
  destruct A as [|a A].
  - destruct r as [|x r]; [congruence|]. cbn [app] in E. injection E as <- _.
    exists v. split; [assumption|]. split; [|now exists r].
    unfold tokf. rewrite Hf, Hb. cbn [heads]. now rewrite Z.eqb_refl.
  - exfalso. cbn [app] in E, Hnd. injection E as <- _.
    inversion Hnd as [|? ? Hnot _]. apply Hnot.
    apply in_or_app. right. apply in_or_app. now left.
Qed.

Lemma lhs_args_distinct : NoDup (lhs_state s done).
Proof.
  unfold lhs_state.
  assert (Ec : comps s = [[]] \/ comps s = components s).
  { unfold comps. destruct s; auto. }
  destruct Ec as [->| ->]; [repeat constructor; auto|].
  destruct components_parts as (Hnd & _ & Hsame).
  apply NoDup_map_NoDup_ForallPairs; [|assumption].
  intros C1 C2 H1 H2 E.
  assert (Hne : forall C, In C (components s) -> exists p T, C = p :: T).
  { intros C HC. pose proof (components_runs s) as Hr.
    rewrite Forall_forall in Hr. destruct (Hr C HC) as [Hn _].
    destruct C as [|p T]; [congruence|eauto]. }
  assert (Hcov : forall p T, In (p :: T) (components s) ->
                             exists cs, collapse done T = map TX cs).
  { intros p T HC. destruct (collapse_covered done T) as (cs & _ & Ecs); [|eauto].
    intros q Hq. apply done_covers. rewrite <- (components_concat s).
    apply in_concat. exists (p :: T). split; [assumption|now right]. }
  destruct (Hne C1 H1) as (p1 & T1 & ->). destruct (Hne C2 H2) as (p2 & T2 & ->).
  destruct (component_head_starts p1 T1 H1) as (v1 & Hv1 & Et1 & r1 & Hn1).
  destruct (component_head_starts p2 T2 H2) as (v2 & Hv2 & Et2 & r2 & Hn2).
  destruct (Hcov p1 T1 H1) as [cs1 Ec1]. destruct (Hcov p2 T2 H2) as [cs2 Ec2].
  unfold collapse in E, Ec1, Ec2. cbn [flat_map] in E.
  rewrite Et1, Et2, Ec1, Ec2 in E.
  assert (Ev : v1 = v2).
  { apply (var_head_inj v1 v2 (render (map TX cs1)) (render (map TX cs2)));
      auto.
    - rewrite <- (app_nil_r (render _)). now apply endok_render.
    - rewrite <- (app_nil_r (render _)). now apply endok_render. }
  subst v2. rewrite Hn1 in Hn2. injection Hn2 as <- _.
  apply (Hsame _ _ p1 H1 H2); now left.
Qed.

End LhsArguments.

Lemma Rule_init_contracted (h : heap) (r : ref) (key : str) :
  id (get h r) = hash :: key ->
  StronglySorted Z.lt (strID (get h r)) ->
  Forall (fun q => (0 <= q)%Z) (strID (get h r)) ->
  Forall (fun d => strID (get h d) <> []) (daughters (get h r)) ->
  Permutation (flat_map (fun d => strID (get h d)) (daughters (get h r)))
              (strID (get h r)) ->
  Forall (run_of (strID (get h r)))
         (concat (map snd (items_of h (daughters (get h r))))) /\
  (forall q, In q (strID (get h r)) ->
             In q (concat (concat (map snd (items_of h (daughters (get h r))))))) /\
  Rule_init h r
  = Ok (mkRule
          (mkPredicate (label (get h r))
             (lhs_state (strID (get h r))
                        (concat (map snd (items_of h (daughters (get h r)))))))
          (Preds (contracted (items_of h (daughters (get h r))) 0))
          (Rule_mkform
             (mkPredicate (label (get h r))
                (lhs_state (strID (get h r))
                           (concat (map snd (items_of h (daughters (get h r)))))))
             (Preds (contracted (items_of h (daughters (get h r))) 0)))).
Proof.
  intros Hid Hs Hnn Hds Hperm.
  set (s := strID (get h r)) in *.
  set (ds := daughters (get h r)) in *.
  set (items := items_of h ds).
  assert (Hruns : Forall (fun it => Forall (run_of s) (snd it)) items).
  { apply Forall_forall. intros it Hit. apply in_map_iff in Hit.
    destruct Hit as (d & <- & Hd). cbn [snd].
    pose proof (components_runs (strID (get h d))) as Hr.
    rewrite Forall_forall in *. intros run Hrun.
    destruct (Hr run Hrun) as [H1 H2]. repeat split; auto.
    intros q Hq. apply (Permutation_in _ Hperm).
    apply in_flat_map. exists d. split; [assumption|].
    rewrite <- (components_concat (strID (get h d))).
    apply in_concat. eauto. }
  assert (Hcont :
            contract (preds_of items) 0 (lhs_state s [])
            = (lhs_state s ([] ++ concat (map snd items)),
               contracted items 0,
               Z.of_nat (length ([] ++ concat (map snd items))))).
  { apply (contract_items s Hs Hnn items [] Hruns).
    cbn [concat app]. unfold items. rewrite items_runs.
    apply (Permutation_NoDup (Permutation_sym Hperm)).
    now apply sorted_NoDup. }
  cbn [app] in Hcont. split; [|split].
  - apply Forall_forall. intros run Hrun. apply in_concat in Hrun.
    destruct Hrun as (rs & Hrs & Hrun). apply in_map_iff in Hrs.
    destruct Hrs as (it & <- & Hit). rewrite Forall_forall in Hruns.
    specialize (Hruns it Hit). rewrite Forall_forall in Hruns. now apply Hruns.
  - intros q Hq. unfold items. rewrite items_runs.
    now apply (Permutation_in _ (Permutation_sym Hperm)).
  - unfold Rule_init. rewrite Hid.
    change (negb (Ascii.eqb hash hash)) with false. cbv iota.
    fold ds. rewrite (items_preds h ds Hds). fold items.
    unfold findArgs. fold s. rewrite <- lhs_state_start, Hcont. reflexivity.
Qed.

(** X20: the text of the rule of an internal node whose span is ascending
    and not negative and whose daughters have spans that are not empty and
    make up the node's span.  It is the usual notation: the left-hand-side
    predicate, the arrow, and the right-hand-side predicates one after the
    other, each predicate as its name and its arguments between
    parentheses, separated by commas.  The comparison of [Predicate.mkform]
    with the last argument never closes a parenthesis early here, since no
    predicate of such a rule has the same argument twice. *)
Theorem internal_rule_text (h : heap) (r : ref) (key : str) :
  id (get h r) = hash :: key ->
  StronglySorted Z.lt (strID (get h r)) ->
  Forall (fun q => (0 <= q)%Z) (strID (get h r)) ->
  Forall (fun d => strID (get h d) <> []) (daughters (get h r)) ->
  Permutation (flat_map (fun d => strID (get h d)) (daughters (get h r)))
              (strID (get h r)) ->
  exists rule ps,
    Rule_init h r = Ok rule /\
    rhs rule = Preds ps /\
    name (lhs rule) = label (get h r) /\
    NoDup (args (lhs rule)) /\
    Forall (fun p => NoDup (args p)) ps /\
    form rule = pred_text (lhs rule) ++ lit "->" ++ flat_map pred_text ps.
Proof.
  intros Hid Hs Hnn Hds Hperm.
  destruct (Rule_init_contracted h r key Hid Hs Hnn Hds Hperm) as (Hruns & Hcov & Hr).
  set (s := strID (get h r)) in *.
  set (items := items_of h (daughters (get h r))) in *.
  assert (Hlhs : NoDup (lhs_state s (concat (map snd items)))).
  { now apply lhs_args_distinct. }
  assert (Hit : Forall (fun it => snd it <> []) items).
  { apply Forall_forall. intros it Hin. apply in_map_iff in Hin.
    destruct Hin as (d & <- & Hd). cbn [snd].
    rewrite Forall_forall in Hds. specialize (Hds d Hd).
    destruct (strID (get h d)) as [|x l]; [congruence|].
    destruct (components_head x l) as (run & rs & ->). discriminate. }
  eexists. eexists. split; [exact Hr|]. split; [reflexivity|].
  cbn [lhs form name args]. split; [reflexivity|]. split; [assumption|]. split.
  - apply contracted_distinct. lia.
  - unfold Rule_mkform. rewrite mkform_distinct_args; cbn [args]; auto.
    + rewrite (fold_pred_text _ (contracted_text items Hit 0%Z (Z.le_refl 0))).
      cbn [app]. now rewrite <- app_assoc.
    + unfold lhs_state, comps. destruct s; [discriminate|].
      destruct (components_head z s) as (run & rs & ->). discriminate.
Qed.

Lemma internal_rule_text_witness :
  exists rule ps,
    Rule_init heap_two_leaves 2 = Ok rule /\
    rhs rule = Preds ps /\
    name (lhs rule) = lit "S" /\
    NoDup (args (lhs rule)) /\
    Forall (fun p => NoDup (args p)) ps /\
    form rule = pred_text (lhs rule) ++ lit "->" ++ flat_map pred_text ps.
Proof.
  apply (internal_rule_text heap_two_leaves 2 (lit "500")).
  - reflexivity.
  - repeat constructor.
  - repeat constructor; discriminate.
  - repeat constructor; discriminate.
  - apply Permutation_refl.
Defined.
